(** * WhatsApp chat export parser: a shallow embedding of [src/utils/parser.ts]

    The development models the transcript parser [parseChatFile] and the
    sender colour function [getRandomColor] of the repository, together
    with the parts of the JavaScript runtime they rely on (UTF-16 strings,
    backtracking regular expressions, [Number]/[parseInt], [Date],
    [Map]/[Set] in insertion order, stable [Array.prototype.sort]). *)

From Stdlib Require Import String Ascii ZArith List Bool Lia Permutation Sorted.
Import ListNotations.

Set Implicit Arguments.

(* ================================================================== *)
(** ** JavaScript strings as sequences of UTF-16 code units            *)
(* ================================================================== *)

Module JS.

Open Scope Z_scope.

(** A JavaScript string is an immutable sequence of 16-bit code units. *)
Definition jsstring := list Z.

(** ASCII literals of the source, written as Rocq strings. *)
Definition lit (s : string) : jsstring :=
  map (fun a => Z.of_nat (nat_of_ascii a)) (list_ascii_of_string s).

(** [a === b] on strings. *)
Fixpoint streq (a b : jsstring) : bool :=
  match a, b with
  | [], [] => true
  | x :: a', y :: b' => (x =? y) && streq a' b'
  | _, _ => false
  end.

Definition between (lo hi c : Z) : bool := (lo <=? c) && (c <=? hi).

(** The decimal digits, [\d] in a pattern. *)
Definition isDigit (c : Z) : bool := between 48 57 c.

(** ECMAScript WhiteSpace and LineTerminator code points: what
    [String.prototype.trim] strips and what [\s] matches. *)
Definition isLineTerminator (c : Z) : bool :=
  (c =? 10) || (c =? 13) || (c =? 8232) || (c =? 8233).

Definition isWhiteSpace (c : Z) : bool :=
  (c =? 9) || (c =? 11) || (c =? 12) || (c =? 32) || (c =? 160)
  || (c =? 5760) || between 8192 8202 c || (c =? 8239) || (c =? 8287)
  || (c =? 12288) || (c =? 65279) || isLineTerminator c.

Fixpoint dropWhile (p : Z -> bool) (s : jsstring) : jsstring :=
  match s with
  | [] => []
  | c :: s' => if p c then dropWhile p s' else s
  end.

(** [s.trim()] *)
Definition trim (s : jsstring) : jsstring :=
  rev (dropWhile isWhiteSpace (rev (dropWhile isWhiteSpace s))).

(** [s.replace(/[\u200E\u200F]/g, '')] *)
Definition isBidiMark (c : Z) : bool := (c =? 8206) || (c =? 8207).
Definition stripBidi (s : jsstring) : jsstring :=
  filter (fun c => negb (isBidiMark c)) s.

(** [s.split(sep)] for a one-unit separator; the result is never empty. *)
Fixpoint split (sep : Z) (s : jsstring) : list jsstring :=
  match s with
  | [] => [[]]
  | c :: s' =>
      if c =? sep then [] :: split sep s'
      else match split sep s' with
           | l :: ls => (c :: l) :: ls
           | [] => [[c]]
           end
  end.

Fixpoint startsWith (p s : jsstring) : bool :=
  match p, s with
  | [], _ => true
  | x :: p', y :: s' => (x =? y) && startsWith p' s'
  | _ :: _, [] => false
  end.

(** [s.includes(sub)] *)
Fixpoint includes (s sub : jsstring) : bool :=
  startsWith sub s ||
  match s with
  | [] => false
  | _ :: s' => includes s' sub
  end.

(** [s.toLowerCase()], unit by unit.  The mapping covers Basic Latin,
    the Latin-1 Supplement, Latin Extended-A and the two letter-like
    signs that lower to Latin letters (KELVIN SIGN, ANGSTROM SIGN); these
    are all the code units whose lower case can contain a character of
    the phrases the parser searches for.  U+0130 lowers to two units.
    Code units of other scripts are left as they are. *)
Definition lowerUnit (c : Z) : jsstring :=
  if between 65 90 c then [c + 32]
  else if between 192 222 c && negb (c =? 215) then [c + 32]
  else if c =? 304 then [105; 775]
  else if c =? 376 then [255]
  else if (between 256 303 c || between 306 311 c || between 330 375 c)
          && Z.even c then [c + 1]
  else if (between 313 328 c || between 377 382 c) && Z.odd c then [c + 1]
  else if c =? 8490 then [107]
  else if c =? 8491 then [229]
  else [c].

Definition toLowerCase (s : jsstring) : jsstring := flat_map lowerUnit s.

(** Case folding of a regular expression with the [i] flag and without
    the [u] flag: a unit at or above 128 is never folded onto one below
    128, so against ASCII pattern characters only ASCII letters fold. *)
Definition canonicalize (c : Z) : Z :=
  if between 97 122 c then c - 32 else c.

End JS.

(* ================================================================== *)
(** ** Backtracking regular expressions                                *)
(* ================================================================== *)

Module Regex.
Import JS.
Open Scope Z_scope.

(** The fragment of the ECMAScript pattern language the parser uses.
    Unbounded quantifiers only ever apply to a single character class
    in the three patterns of the source. *)
Inductive regex : Type :=
| Eps
| Bol                                   (* ^ *)
| Cls (p : Z -> bool)                    (* one character of a class *)
| Seq (r1 r2 : regex)
| Alt (r1 r2 : regex)                    (* r1|r2, left first *)
| Opt (r : regex)                        (* r? greedy *)
| Star (p : Z -> bool)                   (* [class]* greedy *)
| LazyStar (p : Z -> bool)               (* [class]*? *)
| Group (n : nat) (r : regex).           (* capturing group number n *)

(** Capture groups, most recent binding first. *)
Definition captures := list (nat * jsstring).

Fixpoint group (n : nat) (c : captures) : option jsstring :=
  match c with
  | [] => None
  | (m, s) :: c' => if Nat.eqb m n then Some s else group n c'
  end.

Section Matcher.
Variable R : Type.

(** Continuations receive the position, the rest of the input and the
    captures so far; [None] makes the matcher backtrack. *)
Definition cont := nat -> jsstring -> captures -> option R.

Definition orElse (a : option R) (b : unit -> option R) : option R :=
  match a with
  | Some x => Some x
  | None => b tt
  end.

Fixpoint starGreedy (p : Z -> bool) (pos : nat) (s : jsstring)
         (k : nat -> jsstring -> option R) : option R :=
  match s with
  | c :: s' =>
      if p c
      then orElse (starGreedy p (S pos) s' k) (fun _ => k pos s)
      else k pos s
  | [] => k pos s
  end.

Fixpoint starLazy (p : Z -> bool) (pos : nat) (s : jsstring)
         (k : nat -> jsstring -> option R) : option R :=
  orElse (k pos s)
    (fun _ => match s with
              | c :: s' => if p c then starLazy p (S pos) s' k else None
              | [] => None
              end).

Fixpoint rmatch (r : regex) (pos : nat) (s : jsstring) (caps : captures)
         (k : cont) : option R :=
  match r with
  | Eps => k pos s caps
  | Bol => if Nat.eqb pos 0 then k pos s caps else None
  | Cls p =>
      match s with
      | c :: s' => if p c then k (S pos) s' caps else None
      | [] => None
      end
  | Seq r1 r2 =>
      rmatch r1 pos s caps (fun pos' s' caps' => rmatch r2 pos' s' caps' k)
  | Alt r1 r2 =>
      orElse (rmatch r1 pos s caps k) (fun _ => rmatch r2 pos s caps k)
  | Opt r1 =>
      orElse (rmatch r1 pos s caps k) (fun _ => k pos s caps)
  | Star p => starGreedy p pos s (fun pos' s' => k pos' s' caps)
  | LazyStar p => starLazy p pos s (fun pos' s' => k pos' s' caps)
  | Group n r1 =>
      rmatch r1 pos s caps
        (fun pos' s' caps' =>
           k pos' s' ((n, firstn (pos' - pos) s) :: caps'))
  end.
End Matcher.

(** [str.match(re)] for a pattern without the [g] flag: the leftmost
    start position at which the pattern matches. *)
Fixpoint search (r : regex) (pos : nat) (s : jsstring) : option captures :=
  match rmatch r pos s [] (fun _ _ caps => Some caps) with
  | Some c => Some c
  | None =>
      match s with
      | [] => None
      | _ :: s' => search r (S pos) s'
      end
  end.

Definition exec (r : regex) (s : jsstring) : option captures := search r 0 s.

(** Pattern building blocks. *)
Declare Scope regex_scope.
Delimit Scope regex_scope with re.
Infix ";;" := Seq (at level 61, right associativity) : regex_scope.
Infix "<|>" := Alt (at level 62, right associativity) : regex_scope.
Open Scope regex_scope.

Definition chr (c : Z) : regex := Cls (Z.eqb c).
Definition chrI (c : Z) : regex :=
  Cls (fun x => Z.eqb (canonicalize x) (canonicalize c)).

Fixpoint str (s : jsstring) : regex :=
  match s with
  | [] => Eps
  | c :: s' => chr c ;; str s'
  end.

Fixpoint strI (s : jsstring) : regex :=
  match s with
  | [] => Eps
  | c :: s' => chrI c ;; strI s'
  end.

Definition plus (p : Z -> bool) : regex := Cls p ;; Star p.

(** [r{lo,lo+extra}], greedy. *)
Fixpoint upto (extra : nat) (r : regex) : regex :=
  match extra with
  | O => Eps
  | S n => Opt (r ;; upto n r)
  end.

Fixpoint times (n : nat) (r : regex) : regex :=
  match n with
  | O => Eps
  | S m => r ;; times m r
  end.

Definition rep (lo hi : nat) (r : regex) : regex :=
  times lo r ;; upto (hi - lo) r.

Definition isDot (c : Z) : bool := negb (isLineTerminator c). (* .  *)
Definition isDateSep (c : Z) : bool := (c =? 46) || (c =? 47). (* [./] *)

(** [[a-zA-Z0-9_\-\.\s]], which the [i] flag leaves unchanged. *)
Definition isNameChar (c : Z) : bool :=
  between 97 122 c || between 65 90 c || isDigit c
  || (c =? 95) || (c =? 45) || (c =? 46) || isWhiteSpace c.

Definition digit := Cls isDigit.
Definition ws1 := plus isWhiteSpace.

(** [msgStartRegex] (parser.ts, line 28), piece by piece:
    - anchor [^], then an opening square bracket;
    - group 1: [\d{1,2}[./]\d{1,2}[./]\d{2,4}];
    - [\s+];
    - group 2, optional: U+00D6 U+00D6, or U+00D6 S, or AM, or PM;
    - [\s*];
    - group 3: [\d{1,2}:\d{2}:\d{2}];
    - a closing square bracket, [\s+];
    - group 4: any characters but line terminators, as few as possible;
    - a colon, [\s+];
    - group 5: any characters but line terminators, as many as possible. *)
Definition msgStartRegex : regex :=
  Bol ;; chr 91 ;;
  Group 1 (rep 1 2 digit ;; Cls isDateSep ;; rep 1 2 digit ;; Cls isDateSep
           ;; rep 2 4 digit) ;;
  ws1 ;;
  Opt (Group 2 (str [214; 214] <|> str [214; 83] <|> str (lit "AM")
                <|> str (lit "PM"))) ;;
  Star isWhiteSpace ;;
  Group 3 (rep 1 2 digit ;; chr 58 ;; rep 2 2 digit ;; chr 58
           ;; rep 2 2 digit) ;;
  chr 93 ;; ws1 ;;
  Group 4 (LazyStar isDot) ;; chr 58 ;; ws1 ;; Group 5 (Star isDot).

(** [(jpg|jpeg|png|mp4|opus|mp3|pdf|webp|mov)] under the [i] flag. *)
Definition mediaExt : regex :=
  strI (lit "jpg") <|> strI (lit "jpeg") <|> strI (lit "png")
  <|> strI (lit "mp4") <|> strI (lit "opus") <|> strI (lit "mp3")
  <|> strI (lit "pdf") <|> strI (lit "webp") <|> strI (lit "mov").

(** Group 1 of both attachment patterns: one or more name characters, a
    dot and the extension (group 2). *)
Definition fileName : regex :=
  Group 1 (plus isNameChar ;; chr 46 ;; Group 2 mediaExt).

(** [attachmentRegexOld] (line 33, flag [i]): the file name, [\s+], then
    group 3: the literal "(file attached)" or "(dosya eklendi)". *)
Definition attachmentRegexOld : regex :=
  fileName ;; ws1 ;;
  Group 3 (strI (lit "(file attached)") <|> strI (lit "(dosya eklendi)")).

(** [attachmentRegexNew] (line 34, flag [i]): "<", the file name, [\s+],
    then the literal "eklendi>". *)
Definition attachmentRegexNew : regex :=
  chr 60 ;; fileName ;; ws1 ;; strI (lit "eklendi>").

End Regex.

(* ================================================================== *)
(** ** Numbers and dates                                               *)
(* ================================================================== *)

Module Num.
Import JS.
Open Scope Z_scope.

(** The numbers the parser handles are integers far below 2^53, where
    double arithmetic is exact; [None] stands for [NaN], and also for
    [undefined] where a number is expected (both compare false and both
    make a [Date] invalid). *)
Definition jsnum := option Z.

Fixpoint takeWhile (p : Z -> bool) (s : jsstring) : jsstring :=
  match s with
  | [] => []
  | c :: s' => if p c then c :: takeWhile p s' else []
  end.

(** Value of a digit string, most significant digit first. *)
Definition decimal (s : jsstring) : Z :=
  fold_left (fun acc c => 10 * acc + (c - 48)) s 0.

(** [Number(s)] on the strings the parser applies it to: the pieces of a
    date token, which hold digits and possibly a separator.  A string of
    digits is its decimal value, a blank string is 0, anything else is
    taken as [NaN]. *)
Definition Number (s : jsstring) : jsnum :=
  match trim s with
  | [] => Some 0
  | t => if forallb isDigit t then Some (decimal t) else None
  end.

(** [parseInt(s, 10)]: leading white space, an optional sign, then the
    longest run of digits; [NaN] when there is no digit. *)
Definition parseInt (s : jsstring) : jsnum :=
  let s1 := dropWhile isWhiteSpace s in
  let '(sign, s2) :=
    match s1 with
    | 45 :: r => (-1, r)
    | 43 :: r => (1, r)
    | _ => (1, s1)
    end in
  match takeWhile isDigit s2 with
  | [] => None
  | ds => Some (sign * decimal ds)
  end.

(** Array destructuring [[a, b, c] = arr]: a missing element is
    [undefined]. *)
Definition elem (arr : list jsnum) (i : nat) : jsnum :=
  match nth_error arr i with
  | Some v => v
  | None => None
  end.

(** [String(n)] for an integer. *)
Fixpoint digitsOf (fuel : nat) (n : Z) (acc : jsstring) : jsstring :=
  match fuel with
  | O => acc
  | S f =>
      let acc' := (48 + n mod 10) :: acc in
      if n <? 10 then acc' else digitsOf f (n / 10) acc'
  end.

Definition showInt (n : Z) : jsstring :=
  if n <? 0 then 45 :: digitsOf (Z.to_nat (Z.log2 (- n)) + 1) (- n) []
  else digitsOf (Z.to_nat (Z.log2 n) + 1) n [].

Definition showNum (n : jsnum) : jsstring :=
  match n with
  | Some z => showInt z
  | None => lit "NaN"
  end.

(** *** Date

    A [Date] holds a time value in milliseconds since the epoch, or is
    invalid.  The constructor interprets its fields in the host's local
    time zone; the model takes a host whose local time is UTC. *)
Record Date : Type := mkDate { getTime : jsnum }.

Definition msPerDay := 86400000.
Definition msPerHour := 3600000.
Definition msPerMinute := 60000.
Definition msPerSecond := 1000.

Definition DayFromYear (y : Z) : Z :=
  365 * (y - 1970) + (y - 1969) / 4 - (y - 1901) / 100 + (y - 1601) / 400.

Definition InLeapYear (y : Z) : bool :=
  ((y mod 4 =? 0) && negb (y mod 100 =? 0)) || (y mod 400 =? 0).

(** Days before month [m] (0-based) within a year. *)
Definition DaysBeforeMonth (leap : bool) (m : Z) : Z :=
  let l := if leap then 1 else 0 in
  match m with
  | 0 => 0 | 1 => 31 | 2 => 59 + l | 3 => 90 + l | 4 => 120 + l
  | 5 => 151 + l | 6 => 181 + l | 7 => 212 + l | 8 => 243 + l
  | 9 => 273 + l | 10 => 304 + l | _ => 334 + l
  end.

Definition MakeDay (year month date : Z) : Z :=
  let ym := year + month / 12 in
  let mn := month mod 12 in
  DayFromYear ym + DaysBeforeMonth (InLeapYear ym) mn + date - 1.

Definition MakeTime (hour min sec ms : Z) : Z :=
  hour * msPerHour + min * msPerMinute + sec * msPerSecond + ms.

Definition MakeDate (day time : Z) : Z := day * msPerDay + time.

Definition TimeClip (t : Z) : jsnum :=
  if Z.abs t <=? 8640000000000000 then Some t else None.

(** [new Date(year, monthIndex, day, hours, minutes, seconds)] *)
Definition newDate (year month day hours minutes seconds : jsnum) : Date :=
  match year, month, day, hours, minutes, seconds with
  | Some y, Some m, Some d, Some h, Some mi, Some s =>
      let yr := if (0 <=? y) && (y <=? 99) then 1900 + y else y in
      mkDate (TimeClip (MakeDate (MakeDay yr m d) (MakeTime h mi s 0)))
  | _, _, _, _, _, _ => mkDate None
  end.

Definition Day (t : Z) : Z := t / msPerDay.

(** [d.getHours()], [d.getMinutes()], [d.getSeconds()] *)
Definition getHours (d : Date) : jsnum :=
  option_map (fun t => (t / msPerHour) mod 24) (getTime d).
Definition getMinutes (d : Date) : jsnum :=
  option_map (fun t => (t / msPerMinute) mod 60) (getTime d).
Definition getSeconds (d : Date) : jsnum :=
  option_map (fun t => (t / msPerSecond) mod 60) (getTime d).

(** [YearFromTime]: the year [y] with
    [DayFromYear y <= Day t < DayFromYear (y + 1)], found by walking up
    from an underestimate. *)
Fixpoint yearUp (fuel : nat) (day y : Z) : Z :=
  match fuel with
  | O => y
  | S f => if DayFromYear (y + 1) <=? day then yearUp f day (y + 1) else y
  end.

Definition YearFromDay (day : Z) : Z :=
  let y0 := 1970 + (if day <? 0 then day / 365 else day / 366) in
  yearUp (Z.to_nat (Z.abs day / 100000 + 2)) day y0.

Fixpoint monthUp (fuel : nat) (leap : bool) (dayInYear m : Z) : Z :=
  match fuel with
  | O => m
  | S f =>
      if DaysBeforeMonth leap (m + 1) <=? dayInYear
      then monthUp f leap dayInYear (m + 1) else m
  end.

Definition MonthFromDay (day : Z) : Z :=
  let y := YearFromDay day in
  monthUp 11 (InLeapYear y) (day - DayFromYear y) 0.

Definition DateFromDay (day : Z) : Z :=
  let y := YearFromDay day in
  day - DayFromYear y - DaysBeforeMonth (InLeapYear y) (MonthFromDay day) + 1.

(** [d.getFullYear()], [d.getMonth()] (0-based), [d.getDate()] *)
Definition getFullYear (d : Date) : jsnum :=
  option_map (fun t => YearFromDay (Day t)) (getTime d).
Definition getMonth (d : Date) : jsnum :=
  option_map (fun t => MonthFromDay (Day t)) (getTime d).
Definition getDate (d : Date) : jsnum :=
  option_map (fun t => DateFromDay (Day t)) (getTime d).

(** Number operators on possibly-[NaN] operands. *)
Definition sub (a b : jsnum) : jsnum :=
  match a, b with
  | Some x, Some y => Some (x - y)
  | _, _ => None
  end.

Definition add (a b : jsnum) : jsnum :=
  match a, b with
  | Some x, Some y => Some (x + y)
  | _, _ => None
  end.

(** [a < b], false as soon as an operand is [NaN]. *)
Definition lt (a b : jsnum) : bool :=
  match a, b with
  | Some x, Some y => x <? y
  | _, _ => false
  end.

(** [a === b] and [a !== b] on numbers; [NaN] differs from everything. *)
Definition eqn (a b : jsnum) : bool :=
  match a, b with
  | Some x, Some y => x =? y
  | _, _ => false
  end.

End Num.

(* ================================================================== *)
(** ** The parser                                                      *)
(* ================================================================== *)

Module Parser.
Import JS Regex Num.
Open Scope Z_scope.

(** *** [getRandomColor] *)

Definition colors : list jsstring :=
  [ lit "bg-red-500"; lit "bg-orange-500"; lit "bg-amber-500";
    lit "bg-green-500"; lit "bg-emerald-500"; lit "bg-teal-500";
    lit "bg-cyan-500"; lit "bg-blue-500"; lit "bg-indigo-500";
    lit "bg-violet-500"; lit "bg-purple-500"; lit "bg-fuchsia-500";
    lit "bg-pink-500" ].

(** [ToInt32]: reduction modulo 2^32 into [-2^31, 2^31). *)
Definition ToInt32 (x : Z) : Z :=
  let m := x mod 4294967296 in
  if 2147483648 <=? m then m - 4294967296 else m.

(** [x << n]: both operands go through [ToInt32]/[ToUint32], the shift
    count is taken modulo 32 and the result is a 32-bit signed integer. *)
Definition shl (x n : Z) : Z := ToInt32 (Z.shiftl (ToInt32 x) (n mod 32)).

(** One round of the loop body:
    [hash = name.charCodeAt(i) + ((hash << 5) - hash)].
    Only the shift is a 32-bit operation; [-] and [+] are number
    operations and do not wrap. *)
Definition hashStep (hash c : Z) : Z := c + (shl hash 5 - hash).

Definition hashOf (name : jsstring) : Z := fold_left hashStep name 0.

Definition getRandomColor (name : jsstring) : jsstring :=
  let hash := hashOf name in
  nth (Z.to_nat (Z.abs hash mod Z.of_nat (List.length colors))) colors [].

(** *** Data model ([src/types.ts]) *)

Inductive MsgType : Type := text | image | audio | video | system.

Definition MsgType_eqb (a b : MsgType) : bool :=
  match a, b with
  | text, text | image, image | audio, audio | video, video
  | system, system => true
  | _, _ => false
  end.

Record Message : Type := mkMessage {
  id : jsstring;
  rawDate : jsstring;
  timestamp : Date;
  sender : jsstring;
  content : jsstring;
  isMe : bool;
  isSystem : bool;
  type : MsgType;
  attachmentFileName : option jsstring
}.

Record ChatParticipant : Type := mkParticipant {
  name : jsstring;
  lastMessage : jsstring;
  lastMessageDate : Date;
  avatarColor : jsstring
}.

Record ChatData (JSZip : Type) : Type := mkChatData {
  participants : list ChatParticipant;
  messages : list Message;
  allSenders : list jsstring;
  zipFile : option JSZip
}.

(** *** [Map<string, ChatParticipant>] and [Set<string>]

    Both iterate in insertion order, so they are kept as lists: a key
    is appended on first insertion and stays in place afterwards. *)
Definition PMap := list (jsstring * ChatParticipant).

Fixpoint mapGet (m : PMap) (k : jsstring) : option ChatParticipant :=
  match m with
  | [] => None
  | (k', v) :: m' => if streq k' k then Some v else mapGet m' k
  end.

Definition mapHas (m : PMap) (k : jsstring) : bool :=
  match mapGet m k with Some _ => true | None => false end.

(** [m.set(k, v)] *)
Fixpoint mapSet (m : PMap) (k : jsstring) (v : ChatParticipant) : PMap :=
  match m with
  | [] => [(k, v)]
  | (k', v') :: m' =>
      if streq k' k then (k', v) :: m' else (k', v') :: mapSet m' k v
  end.

(** In-place mutation of the object stored under [k]. *)
Fixpoint mapMutate (m : PMap) (k : jsstring)
         (f : ChatParticipant -> ChatParticipant) : PMap :=
  match m with
  | [] => []
  | (k', v') :: m' =>
      if streq k' k then (k', f v') :: m' else (k', v') :: mapMutate m' k f
  end.

Definition mapValues (m : PMap) : list ChatParticipant := map snd m.

Definition setHas (s : list jsstring) (k : jsstring) : bool :=
  existsb (streq k) s.

(** [s.add(k)] *)
Definition setAdd (s : list jsstring) (k : jsstring) : list jsstring :=
  if setHas s k then s else s ++ [k].

(** [arr.includes(x)] on an array of strings. *)
Definition arrIncludes (arr : list jsstring) (x : jsstring) : bool :=
  existsb (streq x) arr.

(** *** The body of the loop, in the order of the source *)

(** The text of a capture group.  Of the five groups read on line 47
    only the optional marker can be [undefined] after a match (see
    [msgStart_groups] below), so the default is never used for the
    others. *)
Definition grp (n : nat) (m : captures) : jsstring :=
  match group n m with
  | Some s => s
  | None => []
  end.

(** Lines 52-60: the three date fields [(day, month, year)]. *)
Definition dateFields (dateStr : jsstring) : jsnum * jsnum * jsnum :=
  if includes dateStr (lit ".")
  then let a := map Number (split 46 dateStr) in
       (elem a 0, elem a 1, elem a 2)
  else let a := map Number (split 47 dateStr) in
       (elem a 1, elem a 0, elem a 2).

Definition markerIs (amPm : option jsstring) (s : jsstring) : bool :=
  match amPm with
  | Some m => streq m s
  | None => false
  end.

Definition OS : jsstring := [214; 83].       (* U+00D6 S *)
Definition OO : jsstring := [214; 214].      (* U+00D6 U+00D6 *)

(** Lines 68-72: 12-hour to 24-hour conversion. *)
Definition convertHours (amPm : option jsstring) (hours : jsnum) : jsnum :=
  if markerIs amPm OS || markerIs amPm (lit "PM")
  then (if negb (eqn hours (Some 12)) then add hours (Some 12) else hours)
  else if markerIs amPm OO || markerIs amPm (lit "AM")
  then (if eqn hours (Some 12) then Some 0 else hours)
  else hours.

(** Line 74. *)
Definition fullYearOf (year : jsnum) : jsnum :=
  if lt year (Some 100) then add (Some 2000) year else year.

(** The phrases of lines 82-86. *)
Definition phraseNoImage : jsstring :=
  lit "g" ++ [246] ++ lit "r" ++ [252] ++ lit "nt" ++ [252]
  ++ lit " dahil edilmedi".
Definition phraseNoAudio : jsstring := lit "ses dahil edilmedi".
Definition phraseSecurity : jsstring :=
  lit "g" ++ [252] ++ lit "venlik kodu de" ++ [287] ++ lit "i" ++ [351]
  ++ lit "ti".
Definition phraseVideoCall : jsstring :=
  lit "g" ++ [246] ++ lit "r" ++ [252] ++ lit "nt" ++ [252] ++ lit "l"
  ++ [252] ++ lit " arama".
Definition phraseVoiceCall : jsstring := lit "sesli arama".

(** Lines 77-86: the type after the system message checks. *)
Definition phraseType (contentStart : jsstring) : MsgType :=
  let lowerContent := toLowerCase contentStart in
  if includes lowerContent phraseNoImage then image
  else if includes lowerContent phraseNoAudio then audio
  else if includes lowerContent phraseSecurity then system
  else if includes lowerContent phraseVideoCall then system
  else if includes lowerContent phraseVoiceCall then system
  else text.

(** Lines 89-96. *)
Definition attachmentOf (contentStart : jsstring) : option jsstring :=
  let attachMatchNew := exec attachmentRegexNew contentStart in
  let attachMatchOld := exec attachmentRegexOld contentStart in
  match attachMatchNew with
  | Some m => group 1 m
  | None =>
      match attachMatchOld with
      | Some m => group 1 m
      | None => None
      end
  end.

(** [attachmentFileName.split('.').pop()?.toLowerCase()] *)
Definition extOf (fileName : jsstring) : jsstring :=
  toLowerCase (last (split 46 fileName) []).

(** Lines 98-103: a truthy file name re-derives the type. *)
Definition finalType (type0 : MsgType) (attachment : option jsstring)
  : MsgType :=
  match attachment with
  | Some ((_ :: _) as f) =>
      let ext := extOf f in
      if arrIncludes [lit "jpg"; lit "jpeg"; lit "png"; lit "webp"] ext
      then image
      else if arrIncludes [lit "opus"; lit "mp3"; lit "wav"; lit "aac";
                           lit "m4a"] ext
      then audio
      else if arrIncludes [lit "mp4"; lit "mov"] ext then video
      else type0
  | _ => type0
  end.

(** Line 105: [myName ? senderName === myName : false]; [null] and the
    empty string are both falsy. *)
Definition isMeOf (myName : option jsstring) (senderName : jsstring) : bool :=
  match myName with
  | Some ((_ :: _) as n) => streq senderName n
  | _ => false
  end.

(** The state of the loop: the variables declared on lines 22-24, 36. *)
Record State : Type := mkState {
  st_messages : list Message;
  participantsMap : PMap;
  sendersSet : list jsstring;
  currentMessage : option Message
}.

Definition initState : State := mkState [] [] [] None.

(** [if (currentMessage) messages.push(currentMessage)] *)
Definition pushCurrent (msgs : list Message) (cur : option Message)
  : list Message :=
  match cur with
  | Some m => msgs ++ [m]
  | None => msgs
  end.

(** Line 63: [const [hoursStr, minutesStr, secondsStr] = timeStr.split(':')];
    a missing element would be [undefined]. *)
Definition timeParts (timeStr : jsstring) : jsstring * jsstring * jsstring :=
  let t := split 58 timeStr in
  (nth 0 t (lit "undefined"), nth 1 t (lit "undefined"),
   nth 2 t (lit "undefined")).

(** Lines 47-117: the message a start line opens, at line index [i]. *)
Definition startMessage (myName : option jsstring) (i : nat) (m : captures)
  : Message :=
  let dateStr := grp 1 m in
  let amPm := group 2 m in
  let timeStr := grp 3 m in
  let senderNameRaw := grp 4 m in
  let contentStart := grp 5 m in
  let senderName := trim senderNameRaw in
  let '(day, month, year) := dateFields dateStr in
  let '(hoursStr, minutesStr, secondsStr) := timeParts timeStr in
  let hours := convertHours amPm (parseInt hoursStr) in
  let minutes := parseInt minutesStr in
  let seconds := parseInt secondsStr in
  let fullYear := fullYearOf year in
  let timestamp := newDate fullYear (sub month (Some 1)) day
                           hours minutes seconds in
  let attachmentFileName := attachmentOf contentStart in
  let type := finalType (phraseType contentStart) attachmentFileName in
  let isMe := isMeOf myName senderName in
  mkMessage (lit "msg-" ++ showInt (Z.of_nat i))
            (dateStr ++ lit " " ++ showNum hours ++ lit ":" ++ minutesStr)
            timestamp senderName contentStart isMe
            (MsgType_eqb type system) type attachmentFileName.

(** Lines 119-132: a first entry is [set]; a known one is mutated in
    place, its [name] and [avatarColor] left as they are. *)
Definition updateParticipants (pm : PMap) (msg : Message) : PMap :=
  if negb (isMe msg) && negb (MsgType_eqb (type msg) system)
  then
    if negb (mapHas pm (sender msg))
    then mapSet pm (sender msg)
           (mkParticipant (sender msg) (content msg) (timestamp msg)
                          (getRandomColor (sender msg)))
    else mapMutate pm (sender msg)
           (fun p => mkParticipant (name p) (content msg) (timestamp msg)
                                   (avatarColor p))
  else pm.

(** Lines 39-139: one iteration, for line [i] of the input.  The open
    message is referenced by [currentMessage] alone until it is pushed,
    and a participant holds the content string it was given, not the
    message, so appending to the content of the open message on line 137
    changes nothing else. *)
Definition step (myName : option jsstring) (st : State) (i : nat)
           (rawLine : jsstring) : State :=
  let line := trim (stripBidi rawLine) in
  match line with
  | [] => st
  | _ :: _ =>
      match exec msgStartRegex line with
      | Some m =>
          let msgs := pushCurrent (st_messages st) (currentMessage st) in
          let msg := startMessage myName i m in
          mkState msgs
                  (updateParticipants (participantsMap st) msg)
                  (setAdd (sendersSet st) (sender msg))
                  (Some msg)
      | None =>
          match currentMessage st with
          | Some cur =>
              mkState (st_messages st) (participantsMap st) (sendersSet st)
                (Some (mkMessage (id cur) (rawDate cur) (timestamp cur)
                         (sender cur) (content cur ++ [10] ++ line)
                         (isMe cur) (isSystem cur) (type cur)
                         (attachmentFileName cur)))
          | None => st
          end
      end
  end.

(** The [for] loop over [lines], carrying the index. *)
Fixpoint loop (myName : option jsstring) (st : State) (i : nat)
         (lines : list jsstring) : State :=
  match lines with
  | [] => st
  | l :: ls => loop myName (step myName st i l) (S i) ls
  end.

(** [arr.sort(cmp)]: the sort is stable, and a comparator result of
    [NaN] counts as 0.  For the consistent comparator that valid dates
    give, every stable sort returns the list computed here. *)
Section Sort.
Variable A : Type.
Variable cmp : A -> A -> jsnum.

Definition comesAfter (a b : A) : bool :=
  match cmp a b with
  | Some v => 0 <? v
  | None => false
  end.

Fixpoint insertSorted (x : A) (l : list A) : list A :=
  match l with
  | [] => [x]
  | y :: l' => if comesAfter x y then y :: insertSorted x l' else x :: l
  end.

Definition sort (l : list A) : list A := fold_right insertSorted [] l.
End Sort.

(** Line 144: [(a, b) => b.lastMessageDate.getTime() - a.lastMessageDate.getTime()] *)
Definition byRecency (a b : ChatParticipant) : jsnum :=
  sub (getTime (lastMessageDate b)) (getTime (lastMessageDate a)).

Definition parseChatFile (JSZip : Type) (text : jsstring)
           (zipFile : option JSZip) (myName : option jsstring)
  : ChatData JSZip :=
  let lines := split 10 text in
  let st := loop myName initState 0 lines in
  let messages := pushCurrent (st_messages st) (currentMessage st) in
  let participants := sort byRecency (mapValues (participantsMap st)) in
  let allSenders := sendersSet st in
  mkChatData participants messages allSenders zipFile.

End Parser.

(* ================================================================== *)
(** ** The specification's vocabulary                                  *)
(* ================================================================== *)

Module Spec.
Import JS Num Parser.
Open Scope Z_scope.

(** "A year value below 100 is normalized by adding 2000, and a year
    value of 100 or more is used as-is." *)
Definition windowYear (y : Z) : Z := if y <? 100 then y + 2000 else y.

(** The PM-equivalent markers are U+00D6 S and PM, the AM-equivalent
    ones U+00D6 U+00D6 and AM. *)
Definition isPM (marker : option jsstring) : bool :=
  match marker with
  | Some mk => streq mk [214; 83] || streq mk (lit "PM")
  | None => false
  end.

Definition isAM (marker : option jsstring) : bool :=
  match marker with
  | Some mk => streq mk [214; 214] || streq mk (lit "AM")
  | None => false
  end.

(** "With a PM-equivalent marker and hour not equal to 12, add 12; with
    an AM-equivalent marker and hour equal to 12, set it to 0; in every
    other case the hour is unchanged." *)
Definition hour24 (marker : option jsstring) (h : Z) : Z :=
  if isPM marker && negb (h =? 12) then h + 12
  else if isAM marker && (h =? 12) then 0
  else h.

(** "jpg/jpeg/png/webp give image, opus/mp3/wav/aac/m4a give audio,
    mp4/mov give video." *)
Definition typeOfExtension (ext : jsstring) : option MsgType :=
  if existsb (streq ext) [lit "jpg"; lit "jpeg"; lit "png"; lit "webp"]
  then Some image
  else if existsb (streq ext)
            [lit "opus"; lit "mp3"; lit "wav"; lit "aac"; lit "m4a"]
  then Some audio
  else if existsb (streq ext) [lit "mp4"; lit "mov"] then Some video
  else None.


(** The hash "under fixed-width integer wraparound semantics equivalent
    to 32-bit signed overflow at every step": the shift, the subtraction
    and the addition each wrap. *)
Definition hashStep32 (hash c : Z) : Z :=
  ToInt32 (c + ToInt32 (ToInt32 (hash * 32) - hash)).

Definition hash32 (name : jsstring) : Z := fold_left hashStep32 name 0.

Definition colorByHash32 (name : jsstring) : jsstring :=
  nth (Z.to_nat (Z.abs (hash32 name) mod 13)) colors [].

(** The same fold with the shift alone reduced to 32 bits. *)
Definition hashShiftWrapped (name : jsstring) : Z :=
  fold_left (fun hash c => c + (ToInt32 (hash * 32) - hash)) name 0.

(** A line "after removing bidi control marks and trimming". *)
Definition clean (rawLine : jsstring) : jsstring := trim (stripBidi rawLine).

Definition isBlank (line : jsstring) : bool :=
  match line with [] => true | _ => false end.

(** The non-blank lines of a text, cleaned, in input order. *)
Definition nonBlank (rawLines : list jsstring) : list jsstring :=
  filter (fun l => negb (isBlank l)) (map clean rawLines).

Definition nonBlankLines (text : jsstring) : list jsstring :=
  nonBlank (split 10 text).

(** A line "matches the message-start pattern". *)
Definition isStart (line : jsstring) : bool :=
  match Regex.exec Regex.msgStartRegex line with
  | Some _ => true
  | None => false
  end.

(** The content group of a start line. *)
Definition contentStartOf (line : jsstring) : jsstring :=
  match Regex.exec Regex.msgStartRegex line with
  | Some m => grp 5 m
  | None => []
  end.

(** The continuation lines that directly follow: the lines up to the
    next start line. *)
Fixpoint continuationRun (ls : list jsstring) : list jsstring :=
  match ls with
  | [] => []
  | l :: rest => if isStart l then [] else l :: continuationRun rest
  end.

(** Lines "appended, in input order and joined by a newline". *)
Definition appendLines (c : jsstring) (ls : list jsstring) : jsstring :=
  fold_left (fun acc l => acc ++ [10] ++ l) ls c.

(** One content per start line: its own content followed by the
    continuation lines up to the next start line.  A line that is not a
    start line opens nothing; before the first start line it is lost. *)
Fixpoint contentsOf (ls : list jsstring) : list jsstring :=
  match ls with
  | [] => []
  | l :: rest =>
      if isStart l
      then appendLines (contentStartOf l) (continuationRun rest)
           :: contentsOf rest
      else contentsOf rest
  end.

End Spec.

(* ================================================================== *)
(** ** A declarative reading of the patterns                           *)
(* ================================================================== *)

Module Sem.
Import JS Regex.
Open Scope nat_scope.

(** [matches r pos w c c']: pattern [r] can consume exactly the word [w]
    at position [pos], turning the captures [c] into [c']. *)
Inductive matches : regex -> nat -> jsstring -> captures -> captures -> Prop :=
| M_Eps pos c : matches Eps pos [] c c
| M_Bol c : matches Bol 0 [] c c
| M_Cls p pos x c : p x = true -> matches (Cls p) pos [x] c c
| M_Seq r1 r2 pos w1 w2 c c1 c2 :
    matches r1 pos w1 c c1 ->
    matches r2 (pos + length w1) w2 c1 c2 ->
    matches (Seq r1 r2) pos (w1 ++ w2) c c2
| M_AltL r1 r2 pos w c c' :
    matches r1 pos w c c' -> matches (Alt r1 r2) pos w c c'
| M_AltR r1 r2 pos w c c' :
    matches r2 pos w c c' -> matches (Alt r1 r2) pos w c c'
| M_OptSome r pos w c c' :
    matches r pos w c c' -> matches (Opt r) pos w c c'
| M_OptNone r pos c : matches (Opt r) pos [] c c
| M_Star p pos w c :
    forallb p w = true -> matches (Star p) pos w c c
| M_LazyStar p pos w c :
    forallb p w = true -> matches (LazyStar p) pos w c c
| M_Group n r pos w c c' :
    matches r pos w c c' -> matches (Group n r) pos w c ((n, w) :: c').

(** What reaching the continuation after consuming a word means. *)
Definition reached (R : Type) (P : jsstring -> Prop) (pos : nat) (s : jsstring)
           (k : nat -> jsstring -> option R) (x : R) : Prop :=
  exists w s', s = w ++ s' /\ P w /\ k (pos + length w) s' = Some x.

(** The words of a pattern, captures and position left aside. *)
Fixpoint lang (r : regex) (w : jsstring) : Prop :=
  match r with
  | Eps | Bol => w = []
  | Cls p => exists x, w = [x] /\ p x = true
  | Seq r1 r2 => exists w1 w2, w = w1 ++ w2 /\ lang r1 w1 /\ lang r2 w2
  | Alt r1 r2 => lang r1 w \/ lang r2 w
  | Opt r1 => lang r1 w \/ w = []
  | Star p | LazyStar p => forallb p w = true
  | Group _ r1 => lang r1 w
  end.

(** Patterns without a capturing group leave the captures alone. *)
Fixpoint nocap (r : regex) : bool :=
  match r with
  | Seq r1 r2 | Alt r1 r2 => nocap r1 && nocap r2
  | Opt r1 => nocap r1
  | Group _ _ => false
  | _ => true
  end.

Definition digits (w : jsstring) : Prop := forallb isDigit w = true.

(** The shape of a date token: group 1 of the start pattern. *)
Definition dateToken (a : jsstring) (s1 : Z) (b : jsstring) (s2 : Z)
           (c : jsstring) : Prop :=
  digits a /\ 1 <= length a <= 2 /\ isDateSep s1 = true /\
  digits b /\ 1 <= length b <= 2 /\ isDateSep s2 = true /\
  digits c /\ 2 <= length c <= 4.

(** The shape of a time token: group 3 of the start pattern. *)
Definition timeToken (hh mm ss : jsstring) : Prop :=
  digits hh /\ 1 <= length hh <= 2 /\
  digits mm /\ length mm = 2 /\ digits ss /\ length ss = 2.

(** The captures an optional marker leaves: none, or group 2 holding
    one of the four markers. *)
Definition markerCaps (mk : captures) : Prop :=
  mk = [] \/ mk = [(2, [214; 214]%Z)] \/ mk = [(2, [214; 83]%Z)]
  \/ mk = [(2, lit "AM")] \/ mk = [(2, lit "PM")].

(** The extensions the attachment patterns accept, in lower case. *)
Definition mediaExts : list jsstring :=
  [lit "jpg"; lit "jpeg"; lit "png"; lit "mp4"; lit "opus"; lit "mp3";
   lit "pdf"; lit "webp"; lit "mov"].

(** An extension as the patterns accept it: one of [mediaExts] up to
    the case of its letters. *)
Definition knownExt (e : jsstring) : Prop :=
  exists x, In x mediaExts /\ map canonicalize e = map canonicalize x.

(** Lower-case ASCII letters and digits: the characters of [mediaExts]. *)
Definition isLowerAlnum (k : Z) : bool := between 97 122 k || between 48 57 k.

End Sem.

(* ================================================================== *)
(** ** Views of the loop used in the statements                        *)
(* ================================================================== *)

Module Views.
Import JS Regex Num Parser.
Open Scope Z_scope.

(** The captures of a line known to match the start pattern. *)
Definition capturesOf (line : jsstring) : captures :=
  match exec msgStartRegex line with
  | Some m => m
  | None => []
  end.

(** The time fields handed to the [Date] constructor on line 75. *)
Definition hoursOf (m : captures) : jsnum :=
  let '(hoursStr, _, _) := timeParts (grp 3 m) in
  convertHours (group 2 m) (parseInt hoursStr).

Definition minutesOf (m : captures) : jsnum :=
  let '(_, minutesStr, _) := timeParts (grp 3 m) in parseInt minutesStr.

Definition secondsOf (m : captures) : jsnum :=
  let '(_, _, secondsStr) := timeParts (grp 3 m) in parseInt secondsStr.

(** Calendar fields of the messages of a transcript parsed with no
    archive and no self identity. *)
Definition calendarOf (text : jsstring) : list (jsnum * jsnum * jsnum) :=
  map (fun msg => (getDate (timestamp msg), getMonth (timestamp msg),
                   getFullYear (timestamp msg)))
      (messages (parseChatFile text (@None unit) None)).

(** Types of the messages of a transcript parsed with no archive and no
    self identity. *)
Definition typesOf (text : jsstring) : list MsgType :=
  map type (messages (parseChatFile text (@None unit) None)).

Definition attachmentsOf (text : jsstring) : list (option jsstring) :=
  map attachmentFileName (messages (parseChatFile text (@None unit) None)).

Definition keys (pm : PMap) : list jsstring := map fst pm.

(** The messages returned once the loop has stopped in state [st]. *)
Definition finish (st : State) : list Message :=
  pushCurrent (st_messages st) (currentMessage st).

(** The three ways an iteration can go. *)
Inductive stepCase (myName : option jsstring) (st : State) (i : nat)
          (rawLine : jsstring) : Prop :=
| StepBlank :
    Spec.clean rawLine = [] ->
    step myName st i rawLine = st ->
    stepCase myName st i rawLine
| StepStart m :
    Spec.clean rawLine <> [] ->
    exec msgStartRegex (Spec.clean rawLine) = Some m ->
    step myName st i rawLine
    = mkState (finish st)
              (updateParticipants (participantsMap st)
                                  (startMessage myName i m))
              (setAdd (sendersSet st) (sender (startMessage myName i m)))
              (Some (startMessage myName i m)) ->
    stepCase myName st i rawLine
| StepContinue :
    Spec.clean rawLine <> [] ->
    exec msgStartRegex (Spec.clean rawLine) = None ->
    step myName st i rawLine
    = match currentMessage st with
      | Some cur =>
          mkState (st_messages st) (participantsMap st) (sendersSet st)
            (Some (mkMessage (id cur) (rawDate cur) (timestamp cur)
                     (sender cur)
                     (content cur ++ [10] ++ Spec.clean rawLine)
                     (isMe cur) (isSystem cur) (type cur)
                     (attachmentFileName cur)))
      | None => st
      end ->
    stepCase myName st i rawLine.

(** Every message carries the flag line 105 computes from its sender. *)
Definition flagged (myName : option jsstring) (msg : Message) : Prop :=
  isMe msg = isMeOf myName (sender msg).

(** A message that reaches the participants map: the test of line 119. *)
Definition qualifies (msg : Message) : bool :=
  negb (isMe msg) && negb (MsgType_eqb (type msg) system).

(** The last qualifying message of a sender, in input order. *)
Definition lastQualifying (k : jsstring) (msgs : list Message)
  : option Message :=
  find (fun msg => streq (sender msg) k && qualifies msg) (rev msgs).

(** What the map holds, against the messages produced so far. *)
Record Inv (pm : PMap) (msgs : list Message) : Prop := mkInv {
  inv_nodup : NoDup (keys pm);
  inv_name : forall k v, In (k, v) pm -> name v = k;
  inv_color : forall k v, In (k, v) pm -> avatarColor v = getRandomColor k;
  inv_keys : forall k,
      In k (keys pm) <->
      exists msg, In msg msgs /\ sender msg = k /\ qualifies msg = true;
  inv_last : forall k v,
      In (k, v) pm ->
      exists msg conts,
        lastQualifying k msgs = Some msg /\
        lastMessageDate v = timestamp msg /\
        content msg = Spec.appendLines (lastMessage v) conts
}.

End Views.

(* ================================================================== *)
(** ** The time zone of the host                                       *)
(* ================================================================== *)

Module Host.
Import JS Regex Num Parser Views.
Open Scope Z_scope.

(** The [Date] constructor of line 75 reads its fields as local time
    and [getHours] answers in local time.  A host is its time zone: the
    offset of local time from UTC, in milliseconds, at a local time
    value and at a UTC time value.  Nothing is assumed about the two
    functions; at a local time the host's clock skips they disagree. *)
Record Zone : Type := mkZone {
  offsetOfLocal : Z -> Z;
  offsetOfUTC : Z -> Z
}.

(** The host of [Num.newDate] and [Num.getHours]. *)
Definition utcZone : Zone := mkZone (fun _ => 0) (fun _ => 0).

(** A host whose clock is two hours ahead of UTC until 01:00 UTC on
    27 March 2016 and three hours ahead from then on, as in Istanbul
    around that day: local times from 03:00 to 04:00 of that day do not
    exist, and are read with the offset before the change. *)
Definition springForward : Zone :=
  mkZone (fun t => if t <? 1459051200000 then 7200000 else 10800000)
         (fun t => if t <? 1459040400000 then 7200000 else 10800000).

(** [UTC(t)] and [LocalTime(t)] *)
Definition UTC (z : Zone) (t : Z) : Z := t - offsetOfLocal z t.
Definition LocalTime (z : Zone) (t : Z) : Z := t + offsetOfUTC z t.

(** The local time value of the fields of a [Date] constructor call. *)
Definition fieldsValue (year month day hours minutes seconds : jsnum)
  : jsnum :=
  match year, month, day, hours, minutes, seconds with
  | Some y, Some m, Some d, Some h, Some mi, Some s =>
      let yr := if (0 <=? y) && (y <=? 99) then 1900 + y else y in
      Some (MakeDate (MakeDay yr m d) (MakeTime h mi s 0))
  | _, _, _, _, _, _ => None
  end.

(** [new Date(year, monthIndex, day, hours, minutes, seconds)] on a
    host. *)
Definition newDateIn (z : Zone)
           (year month day hours minutes seconds : jsnum) : Date :=
  mkDate (match fieldsValue year month day hours minutes seconds with
          | Some t => TimeClip (UTC z t)
          | None => None
          end).

(** [d.getHours()] on a host. *)
Definition getHoursIn (z : Zone) (d : Date) : jsnum :=
  option_map (fun t => (LocalTime z t / msPerHour) mod 24) (getTime d).

(** The local time [t] exists on the host: converted to UTC and back it
    is [t] again. *)
Definition existsIn (z : Zone) (t : Z) : Prop := LocalTime z (UTC z t) = t.

(** Lines 52-75 for the captures of a start line: the local time value
    of the fields, and the timestamp on a host. *)
Definition localValueOf (m : captures) : jsnum :=
  let '(day, month, year) := dateFields (grp 1 m) in
  fieldsValue (fullYearOf year) (sub month (Some 1)) day
              (hoursOf m) (minutesOf m) (secondsOf m).

Definition timestampIn (z : Zone) (m : captures) : Date :=
  let '(day, month, year) := dateFields (grp 1 m) in
  newDateIn z (fullYearOf year) (sub month (Some 1)) day
            (hoursOf m) (minutesOf m) (secondsOf m).

End Host.

(* ================================================================== *)
(** ** The application around the parser                               *)
(* ================================================================== *)

Module App.
Import JS Regex Num Parser.
Open Scope Z_scope.

(** *** The application shell ([App]) *)

Inductive AppStep : Type := UPLOAD | SELECT_IDENTITY | CHAT.

(** The state hooks of [App]. *)
Record AppState (JSZip : Type) : Type := mkAppState {
  app_step : AppStep;
  chatData : option (ChatData JSZip);
  loading : bool;
  error : option jsstring;
  potentialOwners : list jsstring;
  currentOwner : jsstring
}.

Definition noSpeakerError : jsstring :=
  lit "Sohbet dosyas" ++ [305] ++ lit "nda konu" ++ [351] ++ lit "mac"
  ++ [305] ++ lit " bulunamad" ++ [305]
  ++ lit ". Format desteklenmiyor olabilir.".

(** [handleFileProcess] from the parse on: the state once the text of
    the transcript is at hand.  [setLoading(true)] and [setError(null)]
    come first; an empty [allSenders] throws, the [catch] stores the
    message, and [finally] clears [loading].  Reading the file or the
    archive is left out. *)
Definition processText (JSZip : Type) (st : AppState JSZip)
           (textContent : jsstring) (zipInstance : option JSZip)
  : AppState JSZip :=
  let data := parseChatFile textContent zipInstance None in
  if Nat.eqb (length (allSenders data)) 0
  then mkAppState (app_step st) (chatData st) false (Some noSpeakerError)
                  (potentialOwners st) (currentOwner st)
  else mkAppState SELECT_IDENTITY (Some data) false None
                  (allSenders data) (currentOwner st).

(** [{...msg, isMe: msg.sender === name}] *)
Definition remapMessage (name : jsstring) (msg : Message) : Message :=
  mkMessage (id msg) (rawDate msg) (timestamp msg) (sender msg) (content msg)
            (streq (sender msg) name)
            (isSystem msg) (type msg) (attachmentFileName msg).

(** The chat data [handleIdentitySelect] stores. *)
Definition remapChatData (JSZip : Type) (name : jsstring)
           (data : ChatData JSZip) : ChatData JSZip :=
  let updatedMessages := map (remapMessage name) (messages data) in
  let updatedParticipants :=
    filter (fun p => negb (streq (Parser.name p) name)) (participants data) in
  mkChatData updatedParticipants updatedMessages (allSenders data)
             (zipFile data).

(** [handleIdentitySelect]: nothing happens without chat data. *)
Definition handleIdentitySelect (JSZip : Type) (st : AppState JSZip)
           (name : jsstring) : AppState JSZip :=
  match chatData st with
  | None => st
  | Some data =>
      mkAppState CHAT (Some (remapChatData name data)) (loading st) (error st)
                 (potentialOwners st) name
  end.

(** [resetApp] *)
Definition resetApp (JSZip : Type) (st : AppState JSZip) : AppState JSZip :=
  mkAppState UPLOAD None (loading st) None [] [].

(** *** The header of [ChatInterface] *)

(** [arr.join(sep)] on an array of strings. *)
Fixpoint join (sep : jsstring) (arr : list jsstring) : jsstring :=
  match arr with
  | [] => []
  | [x] => x
  | x :: rest => x ++ sep ++ join sep rest
  end.

Definition otherParticipants (participants : list ChatParticipant)
           (currentUserName : jsstring) : list ChatParticipant :=
  filter (fun p => negb (streq (name p) currentUserName)) participants.

Definition chatTitle (participants : list ChatParticipant)
           (currentUserName : jsstring) : jsstring :=
  let others := otherParticipants participants currentUserName in
  if Nat.eqb (length others) 1
  then match others with
       | p :: _ => name p
       | [] => lit "undefined"
       end
  else if Nat.ltb 1 (length others)
  then firstn 30 (join (lit ", ") (map name others)) ++ lit "..."
  else lit "Sohbet".

Definition headerColor (participants : list ChatParticipant)
           (currentUserName : jsstring) : jsstring :=
  match otherParticipants participants currentUserName with
  | p :: _ => avatarColor p
  | [] => lit "bg-gray-400"
  end.

(** *** Search navigation of [ChatInterface] *)

(** The two hooks [searchMatches] and [currentMatchIndex]. *)
Record SearchState : Type := mkSearch {
  searchMatches : list Z;
  currentMatchIndex : Z
}.

(** The search lowers the term and the contents of the messages with
    [String.prototype.toLowerCase], over every script.  [JS.toLowerCase]
    spells that mapping out for the Latin ranges only, so the search is
    defined over the mapping itself, [hostLowerCase], a function from
    strings to strings about which nothing more is assumed. *)
Section Search.
Variable hostLowerCase : jsstring -> jsstring.

(** The [forEach] of the search effect: the indices, from [index] on, of
    the messages whose content is not empty and holds the term. *)
Fixpoint matchesFrom (index : Z) (lowerTerm : jsstring)
         (displayedMessages : list Message) : list Z :=
  match displayedMessages with
  | [] => []
  | msg :: rest =>
      let hit := match content msg with
                 | [] => false
                 | _ :: _ => includes (hostLowerCase (content msg)) lowerTerm
                 end in
      if hit then index :: matchesFrom (index + 1) lowerTerm rest
      else matchesFrom (index + 1) lowerTerm rest
  end.

(** The search effect: no term, or a term of one unit, clears the
    matches; otherwise the first match becomes the current one. *)
Definition searchEffect (searchTerm : jsstring)
           (displayedMessages : list Message) : SearchState :=
  if Nat.ltb (length searchTerm) 2
  then mkSearch [] (-1)
  else
    let matches :=
      matchesFrom 0 (hostLowerCase searchTerm) displayedMessages in
    match matches with
    | [] => mkSearch matches (-1)
    | _ :: _ => mkSearch matches 0
    end.
End Search.

(** [handleNextMatch] and [handlePrevMatch]; [%] is the remainder that
    takes the sign of the dividend. *)
Definition handleNextMatch (st : SearchState) : SearchState :=
  match searchMatches st with
  | [] => st
  | _ :: _ =>
      mkSearch (searchMatches st)
        (Z.rem (currentMatchIndex st + 1)
               (Z.of_nat (length (searchMatches st))))
  end.

Definition handlePrevMatch (st : SearchState) : SearchState :=
  match searchMatches st with
  | [] => st
  | _ :: _ =>
      mkSearch (searchMatches st)
        (Z.rem (currentMatchIndex st - 1
                + Z.of_nat (length (searchMatches st)))
               (Z.of_nat (length (searchMatches st))))
  end.

Definition handleSearchClose (st : SearchState) : SearchState :=
  mkSearch [] (-1).

(** The scroll effect: the message index scrolled to, if any. *)
Definition scrollTarget (st : SearchState) : option Z :=
  if (0 <=? currentMatchIndex st)
     && Nat.ltb 0 (length (searchMatches st))
  then nth_error (searchMatches st) (Z.to_nat (currentMatchIndex st))
  else None.

(** *** The system notice of [ChatBubble] *)

Inductive Icon : Type := PhoneIcon | LockIcon.

(** [content.toLowerCase().includes('arama') ? <Phone/> : <Lock/>] *)
Definition systemIcon (content : jsstring) : Icon :=
  if includes (toLowerCase content) (lit "arama") then PhoneIcon
  else LockIcon.

End App.

(* ================================================================== *)
(** ** Further vocabulary for statements about the whole parse        *)
(* ================================================================== *)

Module Shapes.
Import JS Regex Num Parser App.
Open Scope Z_scope.

(** Names in the order of their first occurrence. *)
Definition firstSeen (names : list jsstring) : list jsstring :=
  fold_left setAdd names [].

(** The identifier line 108 gives the message opened on line [i]. *)
Definition idOf (i : nat) : jsstring := lit "msg-" ++ showInt (Z.of_nat i).

(** A message with continuation lines appended to its content. *)
Definition extend (msg : Message) (conts : list jsstring) : Message :=
  mkMessage (id msg) (rawDate msg) (timestamp msg) (sender msg)
            (Spec.appendLines (content msg) conts)
            (isMe msg) (isSystem msg) (type msg) (attachmentFileName msg).

(** The messages of a list of raw lines, read off line by line: every
    start line, at its index, with the continuation lines that follow
    it. *)
Fixpoint blocksFrom (myName : option jsstring) (i : nat)
         (rawLines : list jsstring) : list Message :=
  match rawLines with
  | [] => []
  | raw :: rest =>
      match Spec.clean raw with
      | [] => blocksFrom myName (S i) rest
      | _ :: _ =>
          match exec msgStartRegex (Spec.clean raw) with
          | Some m =>
              extend (startMessage myName i m)
                     (Spec.continuationRun (Spec.nonBlank rest))
              :: blocksFrom myName (S i) rest
          | None => blocksFrom myName (S i) rest
          end
      end
  end.

(** The indices of the start lines. *)
Fixpoint startIndices (i : nat) (rawLines : list jsstring) : list nat :=
  match rawLines with
  | [] => []
  | raw :: rest =>
      if negb (Spec.isBlank (Spec.clean raw)) && Spec.isStart (Spec.clean raw)
      then i :: startIndices (S i) rest
      else startIndices (S i) rest
  end.

(** The end of the start pattern: groups 4 and 5 around the colon. *)
Definition startTail : regex :=
  (Group 4 (LazyStar isDot) ;; chr 58 ;; ws1 ;; Group 5 (Star isDot))%re.

(** What a search returns on success. *)
Definition found : nat -> jsstring -> captures -> option captures :=
  fun _ _ caps => Some caps.

(** Participants from the most recent last message to the oldest. *)
Definition newestFirst (ps : list ChatParticipant) : Prop :=
  StronglySorted
    (fun a b => match getTime (lastMessageDate a),
                      getTime (lastMessageDate b) with
                | Some ta, Some tb => tb <= ta
                | _, _ => False
                end) ps.

(** A map without the entry of one name. *)
Definition withoutKey (name : jsstring) (pm : PMap) : PMap :=
  filter (fun kv => negb (streq (fst kv) name)) pm.

(** A state of the loop as a later choice of identity would have made
    it. *)
Definition remapState (name : jsstring) (st : State) : State :=
  mkState (map (remapMessage name) (st_messages st))
          (withoutKey name (participantsMap st))
          (sendersSet st)
          (option_map (remapMessage name) (currentMessage st)).

(** The states of the search navigation while the term and the
    displayed messages stay the same: the search effect sets the first
    one, the two arrows move on from there. *)
Inductive searchRun (hostLowerCase : jsstring -> jsstring)
          (searchTerm : jsstring) (displayedMessages : list Message)
  : SearchState -> Prop :=
| run_effect :
    searchRun hostLowerCase searchTerm displayedMessages
              (searchEffect hostLowerCase searchTerm displayedMessages)
| run_next st :
    searchRun hostLowerCase searchTerm displayedMessages st ->
    searchRun hostLowerCase searchTerm displayedMessages (handleNextMatch st)
| run_prev st :
    searchRun hostLowerCase searchTerm displayedMessages st ->
    searchRun hostLowerCase searchTerm displayedMessages (handlePrevMatch st).

(** A message without its identifier. *)
Definition exceptId (msg : Message) :=
  (rawDate msg, timestamp msg, sender msg, content msg, isMe msg,
   isSystem msg, type msg, attachmentFileName msg).

(** A text with a carriage return put before every line feed. *)
Definition withCR (text : jsstring) : jsstring :=
  flat_map (fun c => if c =? 10 then [13; 10] else [c]) text.

End Shapes.

(* ================================================================== *)
(** ** What a successful match looks like                              *)
(* ================================================================== *)

Module RegexFacts.
Import JS Regex Sem.
Open Scope nat_scope.

Section Soundness.
Variable R : Type.

Lemma starGreedy_sound p : forall s pos k x,
    starGreedy p pos s k = Some x ->
    @reached R (fun w => forallb p w = true) pos s k x.
Proof.
  induction s as [|c s IH]; intros pos k x H; simpl in H.
  - exists [], []. simpl. rewrite Nat.add_0_r. auto.
  - destruct (p c) eqn:Hc.
    + destruct (starGreedy p (S pos) s k) eqn:Hrec; simpl in H.
      * inversion H; subst.
        destruct (IH _ _ _ Hrec) as (w & s' & -> & Hw & Hk).
        exists (c :: w), s'. simpl. rewrite Hc, Hw.
        rewrite <- Nat.add_succ_comm. auto.
      * exists [], (c :: s). simpl. rewrite Nat.add_0_r. auto.
    + exists [], (c :: s). simpl. rewrite Nat.add_0_r. auto.
Qed.

Lemma starLazy_sound p : forall s pos k x,
    starLazy p pos s k = Some x ->
    @reached R (fun w => forallb p w = true) pos s k x.
Proof.
  induction s as [|c s IH]; intros pos k x H; simpl in H.
  - destruct (k pos []) eqn:Hk; simpl in H; [|discriminate].
    inversion H; subst. exists [], []. simpl. rewrite Nat.add_0_r. auto.
  - destruct (k pos (c :: s)) eqn:Hk; simpl in H.
    + inversion H; subst. exists [], (c :: s). simpl.
      rewrite Nat.add_0_r. auto.
    + destruct (p c) eqn:Hc; [|discriminate].
      destruct (IH _ _ _ H) as (w & s' & -> & Hw & Hk').
      exists (c :: w), s'. simpl. rewrite Hc, Hw.
      rewrite <- Nat.add_succ_comm. auto.
Qed.

(** Whatever the matcher returns was returned by its continuation,
    called after a word the pattern matches. *)
Lemma rmatch_sound : forall r pos s caps (k : cont R) x,
    rmatch r pos s caps k = Some x ->
    exists w s' caps',
      s = w ++ s' /\ matches r pos w caps caps' /\
      k (pos + length w) s' caps' = Some x.
Proof.
  induction r; intros pos s caps k x H; simpl in H.
  - exists [], s, caps. simpl. rewrite Nat.add_0_r.
    repeat split; auto. constructor.
  - destruct pos; simpl in H; [|discriminate].
    exists [], s, caps. repeat split; auto. constructor.
  - destruct s as [|c s]; [discriminate|].
    destruct (p c) eqn:Hc; [|discriminate].
    exists [c], s, caps. simpl. rewrite Nat.add_1_r.
    repeat split; auto. constructor; auto.
  - apply IHr1 in H. destruct H as (w1 & s1 & c1 & -> & M1 & H).
    apply IHr2 in H. destruct H as (w2 & s2 & c2 & -> & M2 & H).
    exists (w1 ++ w2), s2, c2. rewrite <- app_assoc, length_app, Nat.add_assoc.
    repeat split; auto. econstructor; eauto.
  - destruct (rmatch r1 pos s caps k) eqn:H1; simpl in H.
    + inversion H; subst. apply IHr1 in H1.
      destruct H1 as (w & s' & c' & -> & M & Hk).
      exists w, s', c'. repeat split; auto. apply M_AltL; auto.
    + apply IHr2 in H. destruct H as (w & s' & c' & -> & M & Hk).
      exists w, s', c'. repeat split; auto. apply M_AltR; auto.
  - destruct (rmatch r pos s caps k) eqn:H1; simpl in H.
    + inversion H; subst. apply IHr in H1.
      destruct H1 as (w & s' & c' & -> & M & Hk).
      exists w, s', c'. repeat split; auto. apply M_OptSome; auto.
    + exists [], s, caps. simpl. rewrite Nat.add_0_r.
      repeat split; auto. apply M_OptNone.
  - apply starGreedy_sound in H. destruct H as (w & s' & -> & Hw & Hk).
    exists w, s', caps. repeat split; auto. constructor; auto.
  - apply starLazy_sound in H. destruct H as (w & s' & -> & Hw & Hk).
    exists w, s', caps. repeat split; auto. constructor; auto.
  - apply IHr in H. destruct H as (w & s' & c' & -> & M & Hk).
    exists w, s', ((n, w) :: c'). repeat split; auto.
    + constructor; auto.
    + replace (pos + length w - pos) with (length w) in Hk by lia.
      rewrite firstn_app, Nat.sub_diag, firstn_all in Hk.
      simpl in Hk. rewrite app_nil_r in Hk. exact Hk.
Qed.
End Soundness.

(** A successful search matched some word of the input. *)
Lemma search_sound r : forall s pos caps,
    search r pos s = Some caps ->
    exists n w s', n <= length s /\ skipn n s = w ++ s' /\
                   matches r (pos + n) w [] caps.
Proof.
  induction s as [|c s IH]; intros pos caps H; simpl in H.
  - destruct (rmatch r pos [] [] _) eqn:Hm; [|discriminate].
    inversion H; subst. apply rmatch_sound in Hm.
    destruct Hm as (w & s' & c' & E & M & Hk). inversion Hk; subst.
    exists 0, w, s'. rewrite Nat.add_0_r. auto.
  - destruct (rmatch r pos (c :: s) [] _) eqn:Hm.
    + inversion H; subst. apply rmatch_sound in Hm.
      destruct Hm as (w & s' & c' & E & M & Hk). inversion Hk; subst.
      exists 0, w, s'. rewrite Nat.add_0_r. simpl. split; [lia|auto].
    + apply IH in H. destruct H as (n & w & s' & Hn & E & M).
      exists (S n), w, s'. simpl. rewrite <- Nat.add_succ_comm.
      split; [lia|auto].
Qed.

Lemma matches_lang r pos w c c' : matches r pos w c c' -> lang r w.
Proof.
  induction 1; simpl; eauto.
Qed.

Lemma matches_nocap r pos w c c' :
  matches r pos w c c' -> nocap r = true -> c' = c.
Proof.
  induction 1; simpl; intros Hn; auto;
    try (apply andb_prop in Hn; destruct Hn); try discriminate.
  - rewrite IHmatches2, IHmatches1; auto.
  - auto.
  - auto.
Qed.

Lemma nocap_times n r : nocap r = true -> nocap (times n r) = true.
Proof. intros H; induction n; simpl; auto. rewrite H; auto. Qed.

Lemma nocap_upto n r : nocap r = true -> nocap (upto n r) = true.
Proof. intros H; induction n; simpl; auto. rewrite H; auto. Qed.

Lemma nocap_rep lo hi r : nocap r = true -> nocap (rep lo hi r) = true.
Proof.
  intros H. unfold rep. simpl. rewrite nocap_times, nocap_upto; auto.
Qed.

Lemma nocap_str l : nocap (str l) = true.
Proof. induction l; simpl; auto. Qed.

Lemma nocap_strI l : nocap (strI l) = true.
Proof. induction l; simpl; auto. Qed.

Lemma lang_times p : forall n w,
    lang (times n (Cls p)) w -> forallb p w = true /\ length w = n.
Proof.
  induction n; simpl; intros w H.
  - subst; auto.
  - destruct H as (w1 & w2 & -> & (x & -> & Hx) & H2).
    apply IHn in H2. destruct H2 as [H2 H3]. simpl. rewrite Hx, H2. auto.
Qed.

Lemma lang_upto p : forall n w,
    lang (upto n (Cls p)) w -> forallb p w = true /\ length w <= n.
Proof.
  induction n; simpl; intros w H.
  - subst; auto.
  - destruct H as [(w1 & w2 & -> & (x & -> & Hx) & H2) | ->].
    + apply IHn in H2. destruct H2 as [H2 H3]. simpl. rewrite Hx, H2.
      split; [auto|lia].
    + simpl. split; [auto|lia].
Qed.

Lemma lang_rep p lo hi w :
  lang (rep lo hi (Cls p)) w ->
  forallb p w = true /\ lo <= length w <= lo + (hi - lo).
Proof.
  unfold rep. simpl. intros (w1 & w2 & -> & H1 & H2).
  apply lang_times in H1. apply lang_upto in H2.
  destruct H1 as [H1 L1], H2 as [H2 L2].
  rewrite forallb_app, length_app, H1, H2. split; [auto|lia].
Qed.

Lemma lang_str : forall l w, lang (str l) w -> w = l.
Proof.
  induction l; simpl; intros w H.
  - auto.
  - destruct H as (w1 & w2 & -> & (x & -> & Hx) & H2).
    apply Z.eqb_eq in Hx. subst. simpl. f_equal. auto.
Qed.

Lemma lang_strI : forall l w,
    lang (strI l) w -> map canonicalize w = map canonicalize l.
Proof.
  induction l; simpl; intros w H.
  - subst; auto.
  - destruct H as (w1 & w2 & -> & (x & -> & Hx) & H2).
    apply Z.eqb_eq in Hx. simpl. rewrite Hx. f_equal. auto.
Qed.

Ltac inv H := inversion H; subst; clear H.

(** Open every pattern whose head constructor is visible; named
    sub-patterns ([rep], [str], ...) stay folded. *)
Ltac open_match :=
  repeat match goal with
  | H : matches (Seq _ _) _ _ _ _ |- _ => inv H
  | H : matches (Group _ _) _ _ _ _ |- _ => inv H
  | H : matches (Cls _) _ _ _ _ |- _ => inv H
  | H : matches (Star _) _ _ _ _ |- _ => inv H
  | H : matches (LazyStar _) _ _ _ _ |- _ => inv H
  | H : matches Bol _ _ _ _ |- _ => inv H
  | H : matches Eps _ _ _ _ |- _ => inv H
  | H : matches (Opt _) _ _ _ _ |- _ => inv H
  | H : matches (Alt _ _) _ _ _ _ |- _ => inv H
  | H : matches (chr _) _ _ _ _ |- _ => unfold chr in H
  | H : matches (chrI _) _ _ _ _ |- _ => unfold chrI in H
  end.

Ltac close_rep :=
  repeat match goal with
  | H : matches (rep ?lo ?hi (Cls ?p)) _ _ ?c ?c' |- _ =>
      let E := fresh "E" in
      assert (E : c' = c)
        by (apply (matches_nocap H); apply nocap_rep; reflexivity);
      apply matches_lang, lang_rep in H; simpl in H; subst c'
  | H : matches (str ?l) _ _ ?c ?c' |- _ =>
      let E := fresh "E" in
      assert (E : c' = c) by (apply (matches_nocap H); apply nocap_str);
      apply matches_lang, lang_str in H; subst c'
  | H : matches (strI ?l) _ _ ?c ?c' |- _ =>
      let E := fresh "E" in
      assert (E : c' = c) by (apply (matches_nocap H); apply nocap_strI);
      apply matches_lang, lang_strI in H; subst c'
  end.

Lemma msgStart_matches pos w m :
  matches msgStartRegex pos w [] m ->
  exists a s1 b s2 c mk hh mm ss snd cnt,
    m = (5, cnt) :: (4, snd) :: (3, hh ++ [58%Z] ++ mm ++ [58%Z] ++ ss)
          :: mk ++ [(1, a ++ [s1] ++ b ++ [s2] ++ c)] /\
    dateToken a s1 b s2 c /\ markerCaps mk /\ timeToken hh mm ss /\
    forallb isDot snd = true /\ forallb isDot cnt = true.
Proof.
  unfold msgStartRegex, chr, ws1, plus, digit. intros H.
  open_match; close_rep;
  repeat match goal with
         | H : _ /\ _ |- _ => destruct H
         | H : (_ =? _)%Z = true |- _ => apply Z.eqb_eq in H; subst
         end.
  all: repeat match goal with
         | H : (_ =? _)%Z = true |- _ => apply Z.eqb_eq in H; subst
         end.
  all: do 5 eexists.
  1: exists [(2, [214; 214]%Z)].
  2: exists [(2, [214; 83]%Z)].
  3: exists [(2, lit "AM")].
  4: exists [(2, lit "PM")].
  5: exists [].
  all: do 5 eexists; (split; [reflexivity|]).
  all: unfold dateToken, timeToken, markerCaps, digits; intuition (auto; lia).
Qed.

Lemma exec_matches r s m :
  exec r s = Some m -> exists pos w, matches r pos w [] m.
Proof.
  unfold exec. intros H. apply search_sound in H.
  destruct H as (n & w & s' & _ & _ & M). eauto.
Qed.

End RegexFacts.

(* ================================================================== *)
(** ** Facts about the string and number primitives                    *)
(* ================================================================== *)

Module StringFacts.
Import JS Num Sem RegexFacts.
Open Scope Z_scope.

Lemma streq_eq : forall a b, streq a b = true <-> a = b.
Proof.
  induction a as [|x a IH]; destruct b as [|y b]; simpl;
    try (split; [discriminate|discriminate]); try tauto.
  rewrite andb_true_iff, Z.eqb_eq, IH. split.
  - intros [-> ->]; reflexivity.
  - intros H; inversion H; auto.
Qed.

Lemma streq_refl a : streq a a = true.
Proof. apply streq_eq; reflexivity. Qed.

Lemma streq_neq a b : streq a b = false <-> a <> b.
Proof.
  rewrite <- streq_eq. destruct (streq a b); split; congruence.
Qed.

(** [split] never returns the empty array. *)
Lemma split_nonempty sep s : split sep s <> [].
Proof.
  destruct s as [|c s]; simpl; [discriminate|].
  destruct (c =? sep); [discriminate|].
  destruct (split sep s); discriminate.
Qed.

(** Without a separator there is one piece. *)
Lemma split_nosep sep : forall s,
    forallb (fun c => negb (c =? sep)) s = true -> split sep s = [s].
Proof.
  induction s as [|c s IH]; simpl; intros H; [reflexivity|].
  apply andb_prop in H. destruct H as [Hc Hs].
  destruct (c =? sep); [discriminate|]. rewrite IH; auto.
Qed.

(** Splitting distributes over a separator. *)
Lemma split_app sep : forall a b,
    split sep (a ++ sep :: b) = split sep a ++ split sep b.
Proof.
  induction a as [|c a IH]; intros b; simpl.
  - rewrite Z.eqb_refl. reflexivity.
  - destruct (c =? sep); [rewrite IH; reflexivity|].
    rewrite IH. destruct (split sep a) eqn:E; [|reflexivity].
    exfalso. exact (split_nonempty _ _ E).
Qed.

Lemma startsWith_app : forall p b, startsWith p (p ++ b) = true.
Proof.
  induction p as [|x p IH]; simpl; intros b; [reflexivity|].
  rewrite Z.eqb_refl, IH. reflexivity.
Qed.

Lemma includes_here : forall a p b, includes (a ++ p ++ b) p = true.
Proof.
  induction a as [|c a IH]; intros p b.
  - simpl app. destruct (p ++ b) eqn:E; simpl; rewrite <- E, startsWith_app;
      reflexivity.
  - simpl. rewrite IH. apply orb_true_r.
Qed.

Lemma includes_unit_false x : forall s,
    forallb (fun c => negb (c =? x)) s = true -> includes s [x] = false.
Proof.
  induction s as [|c s IH]; simpl; intros H; [reflexivity|].
  apply andb_prop in H. destruct H as [Hc Hs].
  rewrite IH by auto. rewrite Z.eqb_sym.
  destruct (c =? x); [discriminate|reflexivity].
Qed.

(** Digits are neither white space, nor signs, nor separators. *)
Lemma digit_range c : isDigit c = true -> 48 <= c <= 57.
Proof. unfold isDigit, between. lia. Qed.

Lemma digit_not_ws c : isDigit c = true -> isWhiteSpace c = false.
Proof.
  intros H. apply digit_range in H.
  unfold isWhiteSpace, isLineTerminator, between.
  repeat (apply orb_false_intro); lia.
Qed.

Lemma digits_without x s :
  ~ (48 <= x <= 57) -> digits s ->
  forallb (fun c => negb (c =? x)) s = true.
Proof.
  unfold digits. intros Hx. induction s as [|c s IH]; simpl; [auto|].
  intros H. apply andb_prop in H. destruct H as [Hc Hs].
  apply digit_range in Hc. rewrite IH by auto.
  replace (c =? x) with false by (symmetry; apply Z.eqb_neq; lia).
  reflexivity.
Qed.

Lemma digits_rev s : digits s -> digits (rev s).
Proof.
  unfold digits. rewrite !forallb_forall. intros H x Hx.
  apply H. apply in_rev. exact Hx.
Qed.

Lemma dropWhile_digits s : digits s -> dropWhile isWhiteSpace s = s.
Proof.
  unfold digits. destruct s as [|c s]; simpl; [auto|].
  intros H. apply andb_prop in H. destruct H as [Hc _].
  rewrite (digit_not_ws _ Hc). reflexivity.
Qed.

Lemma trim_digits s : digits s -> trim s = s.
Proof.
  intros H. unfold trim. rewrite (dropWhile_digits H).
  rewrite (dropWhile_digits (digits_rev H)). apply rev_involutive.
Qed.

Lemma takeWhile_digits s : digits s -> takeWhile isDigit s = s.
Proof.
  unfold digits. induction s as [|c s IH]; simpl; [auto|].
  intros H. apply andb_prop in H. destruct H as [Hc Hs].
  rewrite Hc, IH; auto.
Qed.

(** On a non-empty run of digits, [Number] and [parseInt] both give its
    decimal value. *)
Lemma Number_digits s : digits s -> s <> [] -> Number s = Some (decimal s).
Proof.
  intros H Hne. unfold Number. rewrite (trim_digits H).
  destruct s; [congruence|]. unfold digits in H. rewrite H. reflexivity.
Qed.

Lemma parseInt_digits s :
  digits s -> s <> [] -> parseInt s = Some (decimal s).
Proof.
  intros H Hne. unfold parseInt. rewrite (dropWhile_digits H).
  destruct s as [|c s]; [congruence|].
  assert (Hs : takeWhile isDigit s = s).
  { apply takeWhile_digits. unfold digits in *. simpl in H.
    apply andb_prop in H. tauto. }
  assert (Hc : 48 <= c <= 57).
  { unfold digits in H. simpl in H. apply andb_prop in H.
    apply digit_range. tauto. }
  assert (Hin : In c [48; 49; 50; 51; 52; 53; 54; 55; 56; 57])
    by (simpl; lia).
  simpl in Hin.
  repeat (destruct Hin as [<- | Hin]; [ cbn [takeWhile isDigit between
    Z.leb Z.compare Pos.compare Pos.compare_cont andb]; rewrite Hs;
    destruct (decimal _); reflexivity | ]).
  contradiction.
Qed.

Lemma decimal_nonneg : forall s, digits s -> 0 <= decimal s.
Proof.
  unfold decimal, digits. intros s.
  assert (G : forall acc, 0 <= acc -> forallb isDigit s = true ->
                          0 <= fold_left (fun a c => 10 * a + (c - 48)) s acc).
  { induction s as [|c s IH]; cbn [fold_left forallb]; intros acc Ha H;
      [auto|].
    apply andb_prop in H. destruct H as [Hc Hs].
    apply digit_range in Hc. apply IH; auto. lia. }
  apply G. lia.
Qed.

End StringFacts.

(* ================================================================== *)
(** ** Facts about the loop body                                       *)
(* ================================================================== *)

Module ParserFacts.
Import JS Regex Num Parser Sem Views RegexFacts StringFacts.
Open Scope Z_scope.

Lemma startMessage_timestamp myName i m :
  timestamp (startMessage myName i m) =
  let '(day, month, year) := dateFields (grp 1 m) in
  newDate (fullYearOf year) (sub month (Some 1)) day
          (hoursOf m) (minutesOf m) (secondsOf m).
Proof.
  unfold startMessage, hoursOf, minutesOf, secondsOf.
  destruct (dateFields (grp 1 m)) as [[day month] year].
  destruct (timeParts (grp 3 m)) as [[hs ms] ss]. reflexivity.
Qed.

Lemma startMessage_content myName i m :
  content (startMessage myName i m) = grp 5 m.
Proof.
  unfold startMessage.
  destruct (dateFields (grp 1 m)) as [[day month] year].
  destruct (timeParts (grp 3 m)) as [[hs ms] ss]. reflexivity.
Qed.

Lemma startMessage_sender myName i m :
  sender (startMessage myName i m) = trim (grp 4 m).
Proof.
  unfold startMessage.
  destruct (dateFields (grp 1 m)) as [[day month] year].
  destruct (timeParts (grp 3 m)) as [[hs ms] ss]. reflexivity.
Qed.

Lemma startMessage_isMe myName i m :
  isMe (startMessage myName i m) = isMeOf myName (trim (grp 4 m)).
Proof.
  unfold startMessage.
  destruct (dateFields (grp 1 m)) as [[day month] year].
  destruct (timeParts (grp 3 m)) as [[hs ms] ss]. reflexivity.
Qed.

Lemma startMessage_attachment myName i m :
  attachmentFileName (startMessage myName i m) = attachmentOf (grp 5 m).
Proof.
  unfold startMessage.
  destruct (dateFields (grp 1 m)) as [[day month] year].
  destruct (timeParts (grp 3 m)) as [[hs ms] ss]. reflexivity.
Qed.

Lemma startMessage_isSystem myName i m :
  isSystem (startMessage myName i m)
  = MsgType_eqb (type (startMessage myName i m)) system.
Proof.
  unfold startMessage.
  destruct (dateFields (grp 1 m)) as [[day month] year].
  destruct (timeParts (grp 3 m)) as [[hs ms] ss]. reflexivity.
Qed.

Lemma startMessage_type myName i m :
  type (startMessage myName i m) =
  finalType (phraseType (grp 5 m)) (attachmentOf (grp 5 m)).
Proof.
  unfold startMessage.
  destruct (dateFields (grp 1 m)) as [[day month] year].
  destruct (timeParts (grp 3 m)) as [[hs ms] ss]. reflexivity.
Qed.

Lemma len_nonempty (w : jsstring) : (1 <= length w)%nat -> w <> [].
Proof. destruct w; simpl; intros; [lia|discriminate]. Qed.

(** A dotted date token reads day, month, year. *)
Lemma dateFields_dots a b c :
  digits a -> digits b -> digits c -> a <> [] -> b <> [] -> c <> [] ->
  dateFields (a ++ [46] ++ b ++ [46] ++ c) =
  (Some (decimal a), Some (decimal b), Some (decimal c)).
Proof.
  intros Da Db Dc Na Nb Nc. unfold dateFields.
  change (lit ".") with ([46] ++ @nil Z).
  replace (a ++ [46] ++ b ++ [46] ++ c)
    with (a ++ ([46] ++ []) ++ (b ++ [46] ++ c)) at 1 by reflexivity.
  rewrite includes_here.
  change (a ++ [46] ++ b ++ [46] ++ c) with (a ++ 46 :: (b ++ 46 :: c)).
  rewrite !split_app.
  rewrite !split_nosep by (apply digits_without; [lia|assumption]).
  simpl. unfold elem. simpl.
  rewrite !Number_digits by assumption. reflexivity.
Qed.

(** A slashed date token reads month, day, year. *)
Lemma dateFields_slashes a b c :
  digits a -> digits b -> digits c -> a <> [] -> b <> [] -> c <> [] ->
  dateFields (a ++ [47] ++ b ++ [47] ++ c) =
  (Some (decimal b), Some (decimal a), Some (decimal c)).
Proof.
  intros Da Db Dc Na Nb Nc. unfold dateFields.
  change (lit ".") with [46].
  rewrite includes_unit_false.
  2:{ rewrite !forallb_app. simpl.
      rewrite !digits_without by (try lia; assumption). reflexivity. }
  change (a ++ [47] ++ b ++ [47] ++ c) with (a ++ 47 :: (b ++ 47 :: c)).
  rewrite !split_app.
  rewrite !split_nosep by (apply digits_without; [lia|assumption]).
  simpl. unfold elem. simpl.
  rewrite !Number_digits by assumption. reflexivity.
Qed.

Lemma timeParts_colons hh mm ss :
  digits hh -> digits mm -> digits ss ->
  timeParts (hh ++ [58] ++ mm ++ [58] ++ ss) = (hh, mm, ss).
Proof.
  intros Dh Dm Ds. unfold timeParts.
  change (hh ++ [58] ++ mm ++ [58] ++ ss) with (hh ++ 58 :: (mm ++ 58 :: ss)).
  rewrite !split_app.
  rewrite !split_nosep by (apply digits_without; [lia|assumption]).
  reflexivity.
Qed.

(** What the five groups hold after a successful match of the start
    pattern. *)
Lemma msgStart_groups line m :
  exec msgStartRegex line = Some m ->
  exists a s1 b s2 c hh mm ss snd cnt,
    group 1 m = Some (a ++ [s1] ++ b ++ [s2] ++ c) /\
    dateToken a s1 b s2 c /\
    In (group 2 m) [None; Some OO; Some OS; Some (lit "AM"); Some (lit "PM")] /\
    group 3 m = Some (hh ++ [58] ++ mm ++ [58] ++ ss) /\
    timeToken hh mm ss /\
    group 4 m = Some snd /\ forallb isDot snd = true /\
    group 5 m = Some cnt /\ forallb isDot cnt = true.
Proof.
  intros H. apply exec_matches in H. destruct H as (pos & w & M).
  apply msgStart_matches in M.
  destruct M as (a & s1 & b & s2 & c & mk & hh & mm & ss & snd & cnt
                 & -> & Hd & Hmk & Ht & Hs & Hc).
  exists a, s1, b, s2, c, hh, mm, ss, snd, cnt.
  destruct Hmk as [-> | [-> | [-> | [-> | ->]]]]; simpl;
    repeat split; auto 10; try apply Hd; try apply Ht.
Qed.

(** *** Attachment references *)

Lemma mediaExt_lang e : lang mediaExt e -> knownExt e.
Proof.
  unfold mediaExt. cbn [lang]. unfold knownExt, mediaExts.
  intros H.
  repeat (destruct H as [H|H];
          [apply lang_strI in H; eexists; split; [|exact H]; simpl; tauto|]).
  apply lang_strI in H. eexists; split; [|exact H]; simpl; tauto.
Qed.

Lemma fileName_matches pos w c c' :
  matches fileName pos w c c' ->
  exists stem e,
    w = stem ++ [46] ++ e /\ c' = (1%nat, w) :: (2%nat, e) :: c /\
    forallb isNameChar stem = true /\ stem <> [] /\ knownExt e.
Proof.
  unfold fileName, plus, chr. intros H. open_match.
  match goal with
  | H : matches mediaExt _ _ ?c1 ?c2 |- _ =>
      assert (E : c2 = c1) by (apply (matches_nocap H); reflexivity);
      apply matches_lang, mediaExt_lang in H; subst c2
  end.
  match goal with
  | H : (_ =? _) = true |- _ => apply Z.eqb_eq in H; subst
  end.
  match goal with
  | |- exists stem e, (([?x] ++ ?w1) ++ _ ++ ?e') = _ /\ _ =>
      exists (x :: w1), e'
  end.
  repeat split; auto.
  - cbn [forallb].
    repeat match goal with H : _ = true |- _ => rewrite H; clear H end.
    reflexivity.
  - discriminate.
Qed.

Lemma attachmentNew_group1 s m :
  exec attachmentRegexNew s = Some m ->
  exists stem e, group 1 m = Some (stem ++ [46] ++ e) /\
                 stem <> [] /\ knownExt e.
Proof.
  intros H. apply exec_matches in H. destruct H as (pos & w & M).
  unfold attachmentRegexNew in M.
  inversion M as [| | |r1 r2 p0 w1 w2 c0 c1 c2 M1 M2| | | | | | |]; subst.
  inversion M2 as [| | |r1' r2' p0' w1' w2' c0' c1' c2' M3 M4| | | | | | |];
    subst.
  assert (E1 : c1 = []) by (apply (matches_nocap M1); reflexivity). subst c1.
  apply fileName_matches in M3.
  destruct M3 as (stem & e & -> & -> & _ & Hne & Hk).
  assert (E2 : m = (1%nat, stem ++ [46] ++ e) :: (2%nat, e) :: []).
  { apply (matches_nocap M4). reflexivity. }
  subst m. exists stem, e. simpl. auto.
Qed.

Lemma attachmentOld_group1 s m :
  exec attachmentRegexOld s = Some m ->
  exists stem e, group 1 m = Some (stem ++ [46] ++ e) /\
                 stem <> [] /\ knownExt e.
Proof.
  intros H. apply exec_matches in H. destruct H as (pos & w & M).
  unfold attachmentRegexOld in M.
  inversion M as [| | |r1 r2 p0 w1 w2 c0 c1 c2 M1 M2| | | | | | |]; subst.
  apply fileName_matches in M1.
  destruct M1 as (stem & e & -> & -> & _ & Hne & Hk).
  inversion M2 as [| | |r1' r2' p0' w1' w2' c0' c1' c2' M3 M4| | | | | | |];
    subst.
  assert (E1 : c1' = (1%nat, stem ++ [46] ++ e) :: (2%nat, e) :: [])
    by (apply (matches_nocap M3); reflexivity).
  subst c1'.
  inversion M4 as [| | | | | | | | | |n0 r0 p1 w3 c3 c4 M5]; subst.
  assert (E2 : c4 = (1%nat, stem ++ [46] ++ e) :: (2%nat, e) :: []).
  { apply (matches_nocap M5). reflexivity. }
  subst c4. exists stem, e. simpl. auto.
Qed.

(** Whatever file name the parser extracts is a non-empty stem, a dot
    and an accepted extension. *)
Lemma attachmentOf_shape s f :
  attachmentOf s = Some f ->
  exists stem e, f = stem ++ [46] ++ e /\ stem <> [] /\ knownExt e.
Proof.
  unfold attachmentOf. intros H.
  destruct (exec attachmentRegexNew s) as [m|] eqn:En.
  - destruct (attachmentNew_group1 _ En) as (stem & e & G & Hne & Hk).
    rewrite G in H. inversion H; subst. exists stem, e. auto.
  - destruct (exec attachmentRegexOld s) as [m|] eqn:Eo; [|discriminate].
    destruct (attachmentOld_group1 _ Eo) as (stem & e & G & Hne & Hk).
    rewrite G in H. inversion H; subst. exists stem, e. auto.
Qed.

(** A unit that folds like a lower-case letter or a digit lowers to it,
    and is not a dot. *)
Lemma canon_lower_unit x k :
  isLowerAlnum k = true -> canonicalize x = canonicalize k ->
  lowerUnit x = [k] /\ (x =? 46) = false.
Proof.
  unfold isLowerAlnum, canonicalize, between. intros Hk E.
  assert (Hx : (97 <= k <= 122 /\ (x = k \/ x = k - 32))
               \/ (48 <= k <= 57 /\ x = k)).
  { destruct (Z.leb_spec 97 x), (Z.leb_spec x 122), (Z.leb_spec 97 k),
      (Z.leb_spec k 122); cbn [andb] in E; lia. }
  clear Hk E. split; [|lia].
  unfold lowerUnit, between.
  destruct Hx as [[Hk [-> | ->]] | [Hk ->]].
  - repeat match goal with
           | |- context [?a <=? ?b] =>
               destruct (Z.leb_spec a b); try lia; cbn [andb orb negb]
           | |- context [?a =? ?b] =>
               destruct (Z.eqb_spec a b); try lia; cbn [andb orb negb]
           end; reflexivity.
  - destruct (Z.leb_spec 65 (k - 32)); try lia.
    destruct (Z.leb_spec (k - 32) 90); try lia.
    cbn [andb]. f_equal. lia.
  - repeat match goal with
           | |- context [?a <=? ?b] =>
               destruct (Z.leb_spec a b); try lia; cbn [andb orb negb]
           | |- context [?a =? ?b] =>
               destruct (Z.eqb_spec a b); try lia; cbn [andb orb negb]
           end; reflexivity.
Qed.

Lemma canon_lower : forall l e,
    forallb isLowerAlnum l = true ->
    map canonicalize e = map canonicalize l ->
    toLowerCase e = l /\ forallb (fun c => negb (c =? 46)) e = true.
Proof.
  induction l as [|k l IH]; intros e Hl E.
  - destruct e; [auto|discriminate].
  - destruct e as [|x e]; [discriminate|].
    cbn [map] in E. inversion E as [[E1 E2]].
    cbn [forallb] in Hl. apply andb_prop in Hl. destruct Hl as [Hk Hl].
    destruct (@canon_lower_unit x k Hk E1) as [L1 L2].
    destruct (IH _ Hl E2) as [L3 L4].
    unfold toLowerCase in *. cbn [flat_map forallb].
    rewrite L1, L2, L3, L4. auto.
Qed.

(** An accepted extension lowers to one of [mediaExts] and has no dot. *)
Lemma knownExt_lower e :
  knownExt e ->
  In (toLowerCase e) mediaExts /\
  forallb (fun c => negb (c =? 46)) e = true.
Proof.
  intros (x & Hx & E).
  assert (Hl : forallb isLowerAlnum x = true).
  { unfold mediaExts in Hx. simpl in Hx.
    repeat (destruct Hx as [<- | Hx]; [reflexivity|]). contradiction. }
  destruct (@canon_lower x e Hl E) as [L1 L2].
  rewrite L1. auto.
Qed.

(** The extension of a file name is what follows its last dot. *)
Lemma extOf_suffix stem e :
  forallb (fun c => negb (c =? 46)) e = true ->
  extOf (stem ++ [46] ++ e) = toLowerCase e.
Proof.
  intros H. unfold extOf.
  change (stem ++ [46] ++ e) with (stem ++ 46 :: e).
  rewrite split_app, (@split_nosep 46 e H), last_last. reflexivity.
Qed.

(** Lines 98-103 against the specification's table. *)
Lemma finalType_table type0 f :
  f <> [] ->
  finalType type0 (Some f)
  = match Spec.typeOfExtension (extOf f) with
    | Some t => t
    | None => type0
    end.
Proof.
  intros Hne. destruct f as [|c f]; [congruence|].
  unfold finalType, Spec.typeOfExtension, arrIncludes.
  destruct (existsb _ _); [reflexivity|].
  destruct (existsb _ _); [reflexivity|].
  destruct (existsb _ _); reflexivity.
Qed.

End ParserFacts.

(* ================================================================== *)
(** ** Dates: reading a field back                                     *)
(* ================================================================== *)

Module DateFacts.
Import JS Num.
Open Scope Z_scope.

(** With hour, minute and second in range, a valid date returns the
    hour it was built with. *)
Lemma getHours_newDate y mo d h mi s :
  0 <= h < 24 -> 0 <= mi < 60 -> 0 <= s < 60 ->
  getTime (newDate (Some y) (Some mo) (Some d) (Some h) (Some mi) (Some s))
    <> None ->
  getHours (newDate (Some y) (Some mo) (Some d) (Some h) (Some mi) (Some s))
    = Some h.
Proof.
  intros Hh Hm Hs. unfold newDate, getHours.
  set (yr := if (0 <=? y) && (y <=? 99) then 1900 + y else y).
  set (dd := MakeDay yr mo d).
  unfold MakeDate, MakeTime, TimeClip, msPerDay, msPerHour, msPerMinute,
    msPerSecond.
  cbn [getTime].
  destruct (Z.abs _ <=? 8640000000000000); [intros _|congruence].
  cbn [option_map]. f_equal.
  replace (dd * 86400000 + (h * 3600000 + mi * 60000 + s * 1000 + 0))
    with ((dd * 24 + h) * 3600000 + (mi * 60000 + s * 1000)) by lia.
  rewrite Z.div_add_l by lia.
  rewrite (Z.div_small (mi * 60000 + s * 1000)) by lia.
  rewrite Z.add_0_r, Z.add_comm, Z.mod_add by lia.
  apply Z.mod_small. lia.
Qed.

End DateFacts.

(* ================================================================== *)
(** ** Facts about dates on a host                                     *)
(* ================================================================== *)

Module HostFacts.
Import JS Regex Num Parser Views Host ParserFacts.
Open Scope Z_scope.

(** [Num.newDate] is the constructor on a host whose time is UTC. *)
Lemma newDate_utc y mo d h mi s :
  newDate y mo d h mi s = newDateIn utcZone y mo d h mi s.
Proof.
  unfold newDate, newDateIn, fieldsValue, UTC, utcZone.
  cbn [offsetOfLocal].
  destruct y, mo, d, h, mi, s; try reflexivity.
  rewrite Z.sub_0_r. reflexivity.
Qed.

Lemma startMessage_timestampIn myName i m :
  timestamp (startMessage myName i m) = timestampIn utcZone m.
Proof.
  rewrite startMessage_timestamp. unfold timestampIn.
  destruct (dateFields (grp 1 m)) as [[day month] year].
  apply newDate_utc.
Qed.

(** On any host, a valid date built at a local time that exists there
    from an hour, a minute and a second in range returns the hour. *)
Lemma getHoursIn_newDateIn z y mo d h mi s t :
  fieldsValue y mo d (Some h) (Some mi) (Some s) = Some t ->
  existsIn z t ->
  getTime (newDateIn z y mo d (Some h) (Some mi) (Some s)) <> None ->
  0 <= h < 24 -> 0 <= mi < 60 -> 0 <= s < 60 ->
  getHoursIn z (newDateIn z y mo d (Some h) (Some mi) (Some s)) = Some h.
Proof.
  intros Hf Hex Hv Hh Hm Hs. unfold newDateIn, getHoursIn in *.
  rewrite Hf in *. cbn [getTime] in *. unfold TimeClip in *.
  destruct (Z.abs (UTC z t) <=? 8640000000000000); [|congruence].
  cbn [option_map]. unfold existsIn in Hex. rewrite Hex. f_equal.
  unfold fieldsValue in Hf. destruct y as [y|], mo as [mo|], d as [d|];
    try discriminate.
  set (dd := MakeDay (if (0 <=? y) && (y <=? 99) then 1900 + y else y) mo d)
    in Hf.
  assert (Ht : MakeDate dd (MakeTime h mi s 0) = t)
    by exact (f_equal (fun o => match o with Some v => v | None => t end) Hf).
  rewrite <- Ht. clear Ht Hf.
  unfold MakeDate, MakeTime, msPerDay, msPerHour, msPerMinute, msPerSecond.
  replace (dd * 86400000 + (h * 3600000 + mi * 60000 + s * 1000 + 0))
    with ((dd * 24 + h) * 3600000 + (mi * 60000 + s * 1000)) by lia.
  rewrite Z.div_add_l by lia.
  rewrite (Z.div_small (mi * 60000 + s * 1000)) by lia.
  rewrite Z.add_0_r, Z.add_comm, Z.mod_add by lia.
  apply Z.mod_small. lia.
Qed.

End HostFacts.

(* ================================================================== *)
(** ** Facts about the participants map                                *)
(* ================================================================== *)

Module MapFacts.
Import JS Num Parser Views StringFacts.
Open Scope Z_scope.

Lemma mapGet_None : forall pm k, mapGet pm k = None <-> ~ In k (keys pm).
Proof.
  induction pm as [|[k' v'] pm IH]; simpl; intros k.
  - tauto.
  - destruct (streq k' k) eqn:E.
    + apply streq_eq in E. subst. split; [discriminate|tauto].
    + apply streq_neq in E. rewrite IH. tauto.
Qed.

Lemma mapHas_false pm k : mapHas pm k = false <-> ~ In k (keys pm).
Proof.
  unfold mapHas. rewrite <- mapGet_None.
  destruct (mapGet pm k); split; congruence.
Qed.

Lemma mapHas_true pm k : mapHas pm k = true <-> In k (keys pm).
Proof.
  pose proof (mapHas_false pm k) as H.
  destruct (mapHas pm k).
  - split; [|reflexivity]. intros _.
    destruct (in_dec (list_eq_dec Z.eq_dec) k (keys pm)) as [Hin|Hn]; auto.
    apply H in Hn. discriminate.
  - split; [discriminate|]. intros Hin. exfalso. apply H; auto.
Qed.

(** Setting an absent key appends the entry. *)
Lemma mapSet_absent : forall pm k v,
    mapHas pm k = false -> mapSet pm k v = pm ++ [(k, v)].
Proof.
  intros pm k v H. apply mapHas_false in H.
  induction pm as [|[k' v'] pm IH]; simpl; [reflexivity|].
  simpl in H. destruct (streq k' k) eqn:E.
  - apply streq_eq in E. tauto.
  - rewrite IH by tauto. reflexivity.
Qed.

Lemma mapMutate_keys f : forall pm k, keys (mapMutate pm k f) = keys pm.
Proof.
  induction pm as [|[k' v'] pm IH]; simpl; intros k; [reflexivity|].
  destruct (streq k' k); simpl; [reflexivity|]. f_equal. apply IH.
Qed.

Lemma mapGet_mapMutate_same f : forall pm k v,
    mapGet pm k = Some v -> mapGet (mapMutate pm k f) k = Some (f v).
Proof.
  induction pm as [|[k' v'] pm IH]; simpl; intros k v H; [discriminate|].
  destruct (streq k' k) eqn:E; simpl; rewrite E.
  - inversion H; reflexivity.
  - apply IH. exact H.
Qed.

Lemma mapGet_mapMutate_other f : forall pm k k',
    k' <> k -> mapGet (mapMutate pm k f) k' = mapGet pm k'.
Proof.
  induction pm as [|[k0 v0] pm IH]; simpl; intros k k' H; [reflexivity|].
  destruct (streq k0 k) eqn:E; simpl.
  - apply streq_eq in E. subst k0.
    destruct (streq k k') eqn:E'; [|reflexivity].
    apply streq_eq in E'. congruence.
  - destruct (streq k0 k'); [reflexivity|]. apply IH. exact H.
Qed.

Lemma mapGet_app_other : forall pm k v k',
    k' <> k -> mapGet (pm ++ [(k, v)]) k' = mapGet pm k'.
Proof.
  induction pm as [|[k0 v0] pm IH]; simpl; intros k v k' H.
  - destruct (streq k k') eqn:E; [|reflexivity].
    apply streq_eq in E. congruence.
  - destruct (streq k0 k'); [reflexivity|]. apply IH. exact H.
Qed.

(** The entries after an in-place mutation under a key. *)
Lemma mapMutate_In f : forall pm k k' v',
    NoDup (keys pm) ->
    In (k', v') (mapMutate pm k f) ->
    (k' <> k /\ In (k', v') pm) \/
    (k' = k /\ exists v, In (k, v) pm /\ v' = f v).
Proof.
  induction pm as [|[k0 v0] pm IH]; simpl; intros k k' v' ND H; [tauto|].
  inversion ND as [|x xs Hnotin ND']; subst.
  destruct (streq k0 k) eqn:E.
  - apply streq_eq in E. subst k0. simpl in H. destruct H as [H|H].
    + inversion H; subst. right. split; [reflexivity|]. exists v0. auto.
    + left. split; [|auto]. intros ->. apply Hnotin.
      change k with (fst (k, v')). apply in_map. exact H.
  - apply streq_neq in E. simpl in H. destruct H as [H|H].
    + inversion H; subst. left. auto.
    + destruct (IH _ _ _ ND' H) as [[H1 H2] | [H1 (v & H2 & H3)]].
      * left. auto.
      * right. split; [exact H1|]. exists v. auto.
Qed.

Lemma In_keys (pm : PMap) k v : In (k, v) pm -> In k (keys pm).
Proof. intros H. change k with (fst (k, v)). apply in_map. exact H. Qed.

End MapFacts.

(* ================================================================== *)
(** ** Facts about the loop                                            *)
(* ================================================================== *)

Module LoopFacts.
Import JS Regex Num Parser Sem Views RegexFacts StringFacts ParserFacts MapFacts.
Open Scope Z_scope.

Lemma parseChatFile_messages (JSZip : Type) text (zip : option JSZip) myName :
  messages (parseChatFile text zip myName)
  = finish (loop myName initState 0 (split 10 text)).
Proof. reflexivity. Qed.

Lemma step_unfold myName st i rawLine :
  step myName st i rawLine
  = match Spec.clean rawLine with
    | [] => st
    | _ :: _ =>
        match exec msgStartRegex (Spec.clean rawLine) with
        | Some m =>
            mkState (finish st)
              (updateParticipants (participantsMap st)
                                  (startMessage myName i m))
              (setAdd (sendersSet st) (sender (startMessage myName i m)))
              (Some (startMessage myName i m))
        | None =>
            match currentMessage st with
            | Some cur =>
                mkState (st_messages st) (participantsMap st) (sendersSet st)
                  (Some (mkMessage (id cur) (rawDate cur) (timestamp cur)
                           (sender cur)
                           (content cur ++ [10] ++ Spec.clean rawLine)
                           (isMe cur) (isSystem cur) (type cur)
                           (attachmentFileName cur)))
            | None => st
            end
        end
    end.
Proof. reflexivity. Qed.

Lemma step_cases myName st i rawLine : stepCase myName st i rawLine.
Proof.
  destruct (Spec.clean rawLine) as [|c l] eqn:E.
  - apply StepBlank; [exact E|]. rewrite step_unfold, E. reflexivity.
  - destruct (exec msgStartRegex (c :: l)) as [m|] eqn:Em.
    + apply (StepStart _ _ _ _ (m := m)); rewrite ?E; try discriminate; auto.
      rewrite step_unfold, E, Em. reflexivity.
    + apply StepContinue; rewrite ?E; try discriminate; auto.
      rewrite step_unfold, E, Em. reflexivity.
Qed.

(** A property every iteration keeps holds when the loop stops. *)
Lemma loop_invariant myName (P : State -> Prop) :
  (forall st i l, P st -> P (step myName st i l)) ->
  forall lines st i, P st -> P (loop myName st i lines).
Proof.
  intros Hstep. induction lines as [|l ls IH]; simpl; intros st i H; auto.
Qed.

Lemma nonBlank_blank l ls :
  Spec.clean l = [] -> Spec.nonBlank (l :: ls) = Spec.nonBlank ls.
Proof. unfold Spec.nonBlank. simpl. intros ->. reflexivity. Qed.

Lemma nonBlank_cons l ls :
  Spec.clean l <> [] ->
  Spec.nonBlank (l :: ls) = Spec.clean l :: Spec.nonBlank ls.
Proof.
  unfold Spec.nonBlank. simpl. destruct (Spec.clean l); [congruence|].
  reflexivity.
Qed.

(** The contents the loop ends with: those already pushed, the open
    message with the continuation lines still to come, and one content
    per start line still to come. *)
Lemma loop_contents myName : forall lines st i,
    map content (finish (loop myName st i lines))
    = map content (st_messages st)
      ++ match currentMessage st with
         | Some cur =>
             [Spec.appendLines (content cur)
                (Spec.continuationRun (Spec.nonBlank lines))]
         | None => []
         end
      ++ Spec.contentsOf (Spec.nonBlank lines).
Proof.
  induction lines as [|l ls IH]; intros st i.
  - simpl. unfold finish, pushCurrent.
    destruct (currentMessage st); [|rewrite app_nil_r; reflexivity].
    rewrite map_app, app_nil_r. reflexivity.
  - cbn [loop]. rewrite IH. clear IH.
    destruct (step_cases myName st i l) as [E Hs | m E Em Hs | E Em Hs];
      rewrite Hs.
    + rewrite nonBlank_blank by exact E. reflexivity.
    + rewrite nonBlank_cons by exact E. cbn [st_messages currentMessage].
      cbn [Spec.continuationRun Spec.contentsOf]. unfold Spec.isStart.
      rewrite Em. unfold Spec.contentStartOf. rewrite Em.
      rewrite startMessage_content.
      unfold finish, pushCurrent.
      destruct (currentMessage st) as [cur|].
      * rewrite map_app, <- app_assoc. reflexivity.
      * reflexivity.
    + rewrite nonBlank_cons by exact E.
      cbn [Spec.continuationRun Spec.contentsOf]. unfold Spec.isStart.
      rewrite Em.
      destruct (currentMessage st) as [cur|] eqn:Ec.
      * cbn [st_messages currentMessage content]. reflexivity.
      * rewrite Ec. reflexivity.
Qed.

Lemma contentsOf_length : forall ls,
    length (Spec.contentsOf ls) = length (filter Spec.isStart ls).
Proof.
  induction ls as [|l ls IH]; simpl; [reflexivity|].
  destruct (Spec.isStart l); simpl; auto.
Qed.

Lemma step_flagged myName st i l :
  Forall (flagged myName) (finish st) ->
  Forall (flagged myName) (finish (step myName st i l)).
Proof.
  intros H.
  destruct (step_cases myName st i l) as [E Hs | m E Em Hs | E Em Hs];
    rewrite Hs; clear Hs; auto.
  - unfold finish at 1. cbn [st_messages currentMessage pushCurrent].
    apply Forall_app. split; [exact H|]. constructor; [|constructor].
    unfold flagged. rewrite startMessage_isMe, startMessage_sender.
    reflexivity.
  - unfold finish in *.
    destruct (currentMessage st) as [cur|] eqn:Ec; [|rewrite Ec; exact H].
    cbn [st_messages currentMessage pushCurrent] in *.
    apply Forall_app in H. destruct H as [H1 H2].
    apply Forall_app. split; [exact H1|]. constructor; [|constructor].
    inversion H2; subst. exact H3.
Qed.

Lemma loop_flagged myName lines :
  Forall (flagged myName) (finish (loop myName initState 0 lines)).
Proof.
  apply (loop_invariant myName
           (fun st => Forall (flagged myName) (finish st))).
  - intros st i l. apply step_flagged.
  - constructor.
Qed.

(** *** The participants invariant *)

Lemma lastQualifying_snoc k l msg :
  lastQualifying k (l ++ [msg])
  = if streq (sender msg) k && qualifies msg then Some msg
    else lastQualifying k l.
Proof. unfold lastQualifying. rewrite rev_unit. reflexivity. Qed.

Lemma NoDup_snoc (A : Type) (l : list A) x :
  NoDup l -> ~ In x l -> NoDup (l ++ [x]).
Proof.
  intros ND Hn. apply NoDup_rev in ND.
  rewrite <- (rev_involutive (l ++ [x])). apply NoDup_rev.
  rewrite rev_unit. constructor; [|exact ND].
  rewrite <- in_rev. exact Hn.
Qed.

Lemma updateParticipants_unqualified pm msg :
  qualifies msg = false -> updateParticipants pm msg = pm.
Proof. unfold qualifies, updateParticipants. intros ->. reflexivity. Qed.

Lemma updateParticipants_new pm msg :
  qualifies msg = true -> mapHas pm (sender msg) = false ->
  updateParticipants pm msg
  = pm ++ [(sender msg,
            mkParticipant (sender msg) (content msg) (timestamp msg)
                          (getRandomColor (sender msg)))].
Proof.
  unfold qualifies, updateParticipants. intros -> H. rewrite H.
  cbn [negb]. apply mapSet_absent. exact H.
Qed.

Lemma updateParticipants_known pm msg :
  qualifies msg = true -> mapHas pm (sender msg) = true ->
  updateParticipants pm msg
  = mapMutate pm (sender msg)
      (fun p => mkParticipant (name p) (content msg) (timestamp msg)
                              (avatarColor p)).
Proof.
  unfold qualifies, updateParticipants. intros -> H. rewrite H. reflexivity.
Qed.

Lemma Inv_init : Inv [] [].
Proof.
  constructor; simpl; try tauto.
  - constructor.
  - intros k. split; [tauto|]. intros (msg & [] & _).
Qed.

(** A start line: the new message is appended and the map updated. *)
Lemma Inv_start pm l msg :
  Inv pm l -> Inv (updateParticipants pm msg) (l ++ [msg]).
Proof.
  intros [ND Hname Hcolor Hkeys Hlast].
  destruct (qualifies msg) eqn:Hq.
  2:{ rewrite updateParticipants_unqualified by exact Hq.
      constructor; auto.
      - intros k. rewrite Hkeys. split.
        + intros (m & Hin & Hs & Hm). exists m. rewrite in_app_iff. auto.
        + intros (m & Hin & Hs & Hm). apply in_app_iff in Hin.
          destruct Hin as [Hin | [<- | []]]; [eauto|congruence].
      - intros k v Hin. rewrite lastQualifying_snoc, Hq, andb_false_r.
        apply Hlast. exact Hin. }
  destruct (mapHas pm (sender msg)) eqn:Hhas.
  - rewrite updateParticipants_known by assumption.
    set (f := fun p => mkParticipant (name p) (content msg) (timestamp msg)
                                     (avatarColor p)).
    apply mapHas_true in Hhas.
    constructor.
    + rewrite mapMutate_keys. exact ND.
    + intros k v Hin.
      destruct (mapMutate_In f _ _ _ _ ND Hin) as [[_ H] | [-> (v0 & H & ->)]].
      * apply Hname. exact H.
      * simpl. apply Hname. exact H.
    + intros k v Hin.
      destruct (mapMutate_In f _ _ _ _ ND Hin) as [[_ H] | [-> (v0 & H & ->)]].
      * apply Hcolor. exact H.
      * simpl. apply Hcolor. exact H.
    + intros k. rewrite mapMutate_keys, Hkeys. split.
      * intros (m & Hin & Hs & Hm). exists m. rewrite in_app_iff. auto.
      * intros (m & Hin & Hs & Hm). apply in_app_iff in Hin.
        destruct Hin as [Hin | [<- | []]]; [eauto|].
        subst k. apply Hkeys. exact Hhas.
    + intros k v Hin. rewrite lastQualifying_snoc, Hq, andb_true_r.
      destruct (mapMutate_In f _ _ _ _ ND Hin) as [[Hk H] | [-> (v0 & H & ->)]].
      * replace (streq (sender msg) k) with false
          by (symmetry; apply streq_neq; congruence).
        apply Hlast. exact H.
      * rewrite streq_refl. exists msg, []. auto.
  - rewrite updateParticipants_new by assumption.
    apply mapHas_false in Hhas.
    constructor.
    + unfold keys. rewrite map_app. simpl. apply NoDup_snoc; assumption.
    + intros k v Hin. apply in_app_iff in Hin.
      destruct Hin as [Hin | [E | []]]; [apply Hname; exact Hin|].
      inversion E; subst. reflexivity.
    + intros k v Hin. apply in_app_iff in Hin.
      destruct Hin as [Hin | [E | []]]; [apply Hcolor; exact Hin|].
      inversion E; subst. reflexivity.
    + intros k. unfold keys. rewrite map_app, in_app_iff. simpl.
      fold (keys pm). rewrite Hkeys. split.
      * intros [(m & Hin & Hs & Hm) | [<- | []]].
        -- exists m. rewrite in_app_iff. auto.
        -- exists msg. rewrite in_app_iff. simpl. auto.
      * intros (m & Hin & Hs & Hm). apply in_app_iff in Hin.
        destruct Hin as [Hin | [<- | []]]; [left; eauto|]. right. auto.
    + intros k v Hin. rewrite lastQualifying_snoc, Hq, andb_true_r.
      apply in_app_iff in Hin. destruct Hin as [Hin | [E | []]].
      * replace (streq (sender msg) k) with false.
        -- apply Hlast. exact Hin.
        -- symmetry. apply streq_neq. intros E. apply Hhas.
           rewrite E. apply (In_keys _ _ _ Hin).
      * inversion E; subst. rewrite streq_refl. exists msg, []. auto.
Qed.

Lemma appendLines_snoc c ls l :
  Spec.appendLines c (ls ++ [l]) = Spec.appendLines c ls ++ [10] ++ l.
Proof. unfold Spec.appendLines. rewrite fold_left_app. reflexivity. Qed.

(** A continuation line: the open message gets a longer content and is
    otherwise the same. *)
Lemma Inv_continue pm l cur line :
  Inv pm (l ++ [cur]) ->
  Inv pm (l ++ [mkMessage (id cur) (rawDate cur) (timestamp cur) (sender cur)
                          (content cur ++ [10] ++ line) (isMe cur)
                          (isSystem cur) (type cur)
                          (attachmentFileName cur)]).
Proof.
  set (cur' := mkMessage _ _ _ _ _ _ _ _ _).
  intros [ND Hname Hcolor Hkeys Hlast].
  constructor; auto.
  - intros k. rewrite Hkeys. split.
    + intros (m & Hin & Hs & Hm). apply in_app_iff in Hin.
      destruct Hin as [Hin | [<- | []]].
      * exists m. rewrite in_app_iff. auto.
      * exists cur'. rewrite in_app_iff. simpl. auto.
    + intros (m & Hin & Hs & Hm). apply in_app_iff in Hin.
      destruct Hin as [Hin | [<- | []]].
      * exists m. rewrite in_app_iff. auto.
      * exists cur. rewrite in_app_iff. simpl. auto.
  - intros k v Hin. destruct (Hlast _ _ Hin) as (m & conts & L & D & C).
    rewrite lastQualifying_snoc in *.
    change (sender cur') with (sender cur).
    change (qualifies cur') with (qualifies cur).
    destruct (streq (sender cur) k && qualifies cur).
    + inversion L; subst m. exists cur', (conts ++ [line]).
      split; [reflexivity|]. split; [exact D|].
      rewrite appendLines_snoc, <- C. reflexivity.
    + exists m, conts. auto.
Qed.

Lemma step_Inv myName st i l :
  Inv (participantsMap st) (finish st) ->
  Inv (participantsMap (step myName st i l)) (finish (step myName st i l)).
Proof.
  intros H.
  destruct (step_cases myName st i l) as [E Hs | m E Em Hs | E Em Hs];
    rewrite Hs; clear Hs; auto.
  - unfold finish at 2. cbn [st_messages currentMessage participantsMap
                            pushCurrent].
    apply Inv_start. exact H.
  - unfold finish in *.
    destruct (currentMessage st) as [cur|] eqn:Ec; [|rewrite Ec; exact H].
    cbn [st_messages currentMessage participantsMap pushCurrent] in *.
    apply Inv_continue. exact H.
Qed.

Lemma loop_Inv myName lines :
  let st := loop myName initState 0 lines in
  Inv (participantsMap st) (finish st).
Proof.
  apply (loop_invariant myName
           (fun st => Inv (participantsMap st) (finish st))).
  - intros st i l. apply step_Inv.
  - exact Inv_init.
Qed.

(** Sorting rearranges and nothing else. *)
Lemma insertSorted_perm (A : Type) (cmp : A -> A -> jsnum) x : forall l,
    Permutation (insertSorted cmp x l) (x :: l).
Proof.
  induction l as [|y l IH]; simpl; [constructor; constructor|].
  destruct (comesAfter cmp x y); [|apply Permutation_refl].
  eapply perm_trans; [apply perm_skip; exact IH|]. apply perm_swap.
Qed.

Lemma sort_perm (A : Type) (cmp : A -> A -> jsnum) : forall l,
    Permutation (sort cmp l) l.
Proof.
  induction l as [|x l IH]; simpl; [constructor|].
  eapply perm_trans; [apply insertSorted_perm|]. apply perm_skip. exact IH.
Qed.

Lemma step_start_map myName st i rawLine m :
  Spec.clean rawLine <> [] ->
  exec msgStartRegex (Spec.clean rawLine) = Some m ->
  participantsMap (step myName st i rawLine)
  = updateParticipants (participantsMap st) (startMessage myName i m).
Proof.
  intros E Em. rewrite step_unfold.
  destruct (Spec.clean rawLine); [congruence|]. rewrite Em. reflexivity.
Qed.

Lemma step_other_map myName st i rawLine :
  Spec.clean rawLine = [] \/
  exec msgStartRegex (Spec.clean rawLine) = None ->
  participantsMap (step myName st i rawLine) = participantsMap st.
Proof.
  intros H. rewrite step_unfold.
  destruct (Spec.clean rawLine) as [|c l]; [reflexivity|].
  destruct H as [H|H]; [discriminate|]. rewrite H.
  destruct (currentMessage st); reflexivity.
Qed.

Lemma qualifies_true msg :
  qualifies msg = true <-> isMe msg = false /\ type msg <> system.
Proof.
  unfold qualifies. destruct (isMe msg), (type msg); simpl;
    split; try tauto; try congruence; try (intros [? ?]; congruence);
    intros _; split; congruence.
Qed.

Lemma qualifies_false msg :
  qualifies msg = false <-> isMe msg = true \/ type msg = system.
Proof.
  unfold qualifies. destruct (isMe msg), (type msg); simpl;
    split; try tauto; try congruence; intros [?|?]; congruence.
Qed.

(** Under the invariant the values carry their keys as names. *)
Lemma Inv_names pm msgs :
  Inv pm msgs -> map name (mapValues pm) = keys pm.
Proof.
  intros H. pose proof (inv_name H) as Hn. clear H.
  unfold mapValues, keys. rewrite map_map.
  induction pm as [|[k v] pm IH]; simpl; [reflexivity|].
  f_equal; [apply Hn; simpl; auto|]. apply IH.
  intros k' v' Hin. apply Hn. simpl. auto.
Qed.

End LoopFacts.

(* ================================================================== *)
(** ** Facts about the hash                                            *)
(* ================================================================== *)

Module HashFacts.
Import JS Parser.
Open Scope Z_scope.

(** [ToInt32] moves its argument by a multiple of 2^32. *)
Lemma ToInt32_offset x : exists k, ToInt32 x = x + k * 4294967296.
Proof.
  unfold ToInt32.
  pose proof (Z.div_mod x 4294967296 ltac:(lia)) as E.
  destruct (2147483648 <=? x mod 4294967296).
  - exists (- (x / 4294967296) - 1). lia.
  - exists (- (x / 4294967296)). lia.
Qed.

Lemma ToInt32_range x : -2147483648 <= ToInt32 x < 2147483648.
Proof.
  unfold ToInt32.
  pose proof (Z.mod_pos_bound x 4294967296 ltac:(lia)).
  destruct (Z.leb_spec 2147483648 (x mod 4294967296)); lia.
Qed.

(** Two integers of the 32-bit range that differ by a multiple of 2^32
    are equal. *)
Lemma ToInt32_congr x y k :
  x = y + k * 4294967296 -> ToInt32 x = ToInt32 y.
Proof.
  intros ->. unfold ToInt32. rewrite Z.mod_add by lia. reflexivity.
Qed.

(** [hash << 5] is the product by 32 reduced to 32 bits. *)
Lemma shl_5 h : shl h 5 = ToInt32 (h * 32).
Proof.
  unfold shl. change (5 mod 32) with 5.
  rewrite Z.shiftl_mul_pow2 by lia. change (2 ^ 5) with 32.
  destruct (ToInt32_offset h) as [k E].
  apply ToInt32_congr with (k := 32 * k). lia.
Qed.

Lemma hashOf_shiftWrapped name : hashOf name = Spec.hashShiftWrapped name.
Proof.
  unfold hashOf, Spec.hashShiftWrapped. generalize 0.
  induction name as [|c name IH]; intros h; cbn [fold_left]; [reflexivity|].
  rewrite IH. unfold hashStep. rewrite shl_5. reflexivity.
Qed.

(** The hash of the source and the 32-bit hash agree modulo 2^32. *)
Lemma hashOf_hash32 name :
  exists k, hashOf name = Spec.hash32 name + k * 4294967296.
Proof.
  unfold hashOf, Spec.hash32.
  assert (G : forall h1 h2,
             (exists k, h1 = h2 + k * 4294967296) ->
             exists k, fold_left hashStep name h1
                       = fold_left Spec.hashStep32 name h2 + k * 4294967296).
  { induction name as [|c name IH]; intros h1 h2 H; cbn [fold_left]; [exact H|].
    apply IH. destruct H as [k0 E0].
    unfold hashStep, Spec.hashStep32. rewrite shl_5.
    destruct (ToInt32_offset (h1 * 32)) as [k1 E1].
    destruct (ToInt32_offset (h2 * 32)) as [k2 E2].
    destruct (ToInt32_offset (ToInt32 (h2 * 32) - h2)) as [k3 E3].
    destruct (ToInt32_offset (c + ToInt32 (ToInt32 (h2 * 32) - h2)))
      as [k4 E4].
    exists (31 * k0 + k1 - k2 - k3 - k4). lia. }
  apply G. exists 0. lia.
Qed.

(** The exact hash is an integer of at most 2^32 per character, far
    inside the range where number arithmetic is exact. *)
Lemma hashOf_bound name :
  Forall (fun c => 0 <= c <= 65535) name ->
  Z.abs (hashOf name) <= Z.of_nat (length name) * 4294967296.
Proof.
  unfold hashOf.
  assert (G : forall h,
             Forall (fun c => 0 <= c <= 65535) name ->
             Z.abs (fold_left hashStep name h)
             <= Z.abs h + Z.of_nat (length name) * 4294967296).
  { induction name as [|c name IH]; intros h H; cbn [fold_left length].
    - lia.
    - inversion H; subst. specialize (IH (hashStep h c) H3).
      unfold hashStep in *. pose proof (ToInt32_range (Z.shiftl (ToInt32 h) (5 mod 32))).
      unfold shl in *. lia. }
  intros H. specialize (G 0 H). simpl Z.abs in G. lia.
Qed.

Lemma getRandomColor_in name : In (getRandomColor name) colors.
Proof.
  unfold getRandomColor. apply nth_In.
  change (length colors) with 13%nat. change (Z.of_nat 13) with 13.
  pose proof (Z.mod_pos_bound (Z.abs (hashOf name)) 13 ltac:(lia)). lia.
Qed.

End HashFacts.

(* ================================================================== *)
(** ** The claims                                                      *)
(* ================================================================== *)

Module Claims.
Import JS Regex Num Parser Sem Views Host.
Import RegexFacts StringFacts ParserFacts DateFacts MapFacts LoopFacts.
Open Scope Z_scope.

Lemma fullYearOf_window y : fullYearOf (Some y) = Some (Spec.windowYear y).
Proof.
  unfold fullYearOf, Spec.windowYear, lt, add.
  destruct (y <? 100); [f_equal; lia|reflexivity].
Qed.

Lemma convertHours_hour24 marker h :
  convertHours marker (Some h) = Some (Spec.hour24 marker h).
Proof.
  unfold convertHours, Spec.hour24, Spec.isPM, Spec.isAM, markerIs, OS, OO,
    eqn, add.
  destruct marker as [mk|]; cbn [orb andb negb].
  - destruct (streq mk [214; 83] || streq mk (lit "PM")) eqn:Epm; cbn [andb].
    + destruct (h =? 12); cbn [negb]; [|reflexivity].
      apply orb_prop in Epm.
      destruct Epm as [E|E]; apply streq_eq in E; subst mk; reflexivity.
    + destruct (streq mk [214; 214] || streq mk (lit "AM")); cbn [andb];
        destruct (h =? 12); reflexivity.
  - reflexivity.
Qed.

(** C3.  On every line the start pattern matches, the date token is
    two runs of one or two digits and a run of two to four digits with
    a separator after the first and after the second.  When both
    separators are dots the timestamp is built with the first run as
    day and the second as month; when both are slashes, with the first
    as month and the second as day.  In both cases the third run is
    the year, 2000 added when it is below 100.  Read back from the
    timestamp, 28.11.2024 is day 28 of month 11 (index 10) of 2024 and
    6/27/24 is day 27 of month 6 (index 5) of 2024. *)
Theorem C3_date_field_order :
  (forall myName i line m,
      exec msgStartRegex line = Some m ->
      exists a s1 b s2 c,
        group 1 m = Some (a ++ [s1] ++ b ++ [s2] ++ c) /\
        dateToken a s1 b s2 c /\
        let built day month year :=
          newDate (Some (Spec.windowYear year)) (Some (month - 1)) (Some day)
                  (hoursOf m) (minutesOf m) (secondsOf m) in
        (s1 = 46 -> s2 = 46 ->
         timestamp (startMessage myName i m)
         = built (decimal a) (decimal b) (decimal c)) /\
        (s1 = 47 -> s2 = 47 ->
         timestamp (startMessage myName i m)
         = built (decimal b) (decimal a) (decimal c)))
  /\ calendarOf (lit "[28.11.2024 14:05:00] Alice: Hello")
     = [(Some 28, Some 10, Some 2024)]
  /\ calendarOf (lit "[6/27/24 14:05:00] Alice: Hello")
     = [(Some 27, Some 5, Some 2024)]
  /\ Spec.windowYear 24 = 2024 /\ Spec.windowYear 99 = 2099
  /\ Spec.windowYear 100 = 100 /\ Spec.windowYear 2024 = 2024.
Proof.
  split; [|repeat split; vm_compute; reflexivity].
  intros myName i line m H.
  destruct (msgStart_groups _ H)
    as (a & s1 & b & s2 & c & hh & mm & ss & snd & cnt
        & G1 & Hd & _ & _ & _ & _ & _ & _ & _).
  exists a, s1, b, s2, c. split; [exact G1|]. split; [exact Hd|].
  destruct Hd as (Da & La & _ & Db & Lb & _ & Dc & Lc).
  assert (Na : a <> []) by (apply len_nonempty; lia).
  assert (Nb : b <> []) by (apply len_nonempty; lia).
  assert (Nc : c <> []) by (apply len_nonempty; lia).
  cbv zeta. rewrite startMessage_timestamp. unfold grp. rewrite G1.
  split; intros -> ->.
  - rewrite dateFields_dots by assumption.
    rewrite fullYearOf_window. reflexivity.
  - rewrite dateFields_slashes by assumption.
    rewrite fullYearOf_window. reflexivity.
Qed.

Lemma C3_date_field_order_witness :
  let m := capturesOf (lit "[28.11.2024 14:05:00] Alice: Hello") in
  exists a s1 b s2 c,
    group 1 m = Some (a ++ [s1] ++ b ++ [s2] ++ c) /\
    dateToken a s1 b s2 c /\
    let built day month year :=
      newDate (Some (Spec.windowYear year)) (Some (month - 1)) (Some day)
              (hoursOf m) (minutesOf m) (secondsOf m) in
    (s1 = 46 -> s2 = 46 ->
     timestamp (startMessage None 0 m)
     = built (decimal a) (decimal b) (decimal c)) /\
    (s1 = 47 -> s2 = 47 ->
     timestamp (startMessage None 0 m)
     = built (decimal b) (decimal a) (decimal c)).
Proof.
  exact (proj1 C3_date_field_order None 0%nat
               (lit "[28.11.2024 14:05:00] Alice: Hello") _ eq_refl).
Defined.

(** C4, as stated, fails: on the line with 13:05:00 and the marker PM
    the rule gives hour 25, and the hour stored in the timestamp is 1,
    that of the following day. *)
Lemma C4_hour_counterexample :
  ~ (forall line m hh mm ss,
        exec msgStartRegex line = Some m ->
        group 3 m = Some (hh ++ [58] ++ mm ++ [58] ++ ss) ->
        getHours (timestamp (startMessage None 0 m))
        = Some (Spec.hour24 (group 2 m) (decimal hh))).
Proof.
  intros H.
  specialize (H (lit "[6/27/24 PM 13:05:00] Alice: Hello")
                (capturesOf (lit "[6/27/24 PM 13:05:00] Alice: Hello"))
                (lit "13") (lit "05") (lit "00")).
  assert (E : getHours
                (timestamp
                   (startMessage None 0
                      (capturesOf (lit "[6/27/24 PM 13:05:00] Alice: Hello"))))
              = Some 1) by (vm_compute; reflexivity).
  rewrite E in H.
  assert (R : Spec.hour24
                (group 2 (capturesOf (lit "[6/27/24 PM 13:05:00] Alice: Hello")))
                (decimal (lit "13")) = 25) by (vm_compute; reflexivity).
  rewrite R in H.
  assert (X : Some 1 = Some 25)
    by (apply H; vm_compute; reflexivity).
  discriminate X.
Qed.

(** C4, amended.  On every line the start pattern matches, the time
    token is H:MM:SS with one or two digits of hour, and the hour
    handed to the Date constructor is the one the conversion rule gives:
    12 added under a PM marker unless the hour is 12, 0 for hour 12
    under an AM marker, the hour itself otherwise.  The timestamp of the
    embedding is the one a host on UTC builds.  On every host, a valid
    timestamp built from a converted hour below 24, minutes and seconds
    below 60, at a local time that exists on the host, returns that
    hour.  12:05:00 PM hands over hour 12, 12:05:00 AM hour 0 and
    01:05:00 PM hour 13, with the Turkish markers as with the English
    ones; 13:05:00 PM hands over 25.  At a local time the host's clock
    skips the stored hour differs: 03:30:00 on 27.03.2016 hands over 3
    and is stored as hour 4 on a host that moves its clock forward at
    03:00 that day. *)
Theorem C4_hour_amended :
  (forall myName i line m,
      exec msgStartRegex line = Some m ->
      exists hh mm ss,
        group 3 m = Some (hh ++ [58] ++ mm ++ [58] ++ ss) /\
        timeToken hh mm ss /\
        let h24 := Spec.hour24 (group 2 m) (decimal hh) in
        hoursOf m = Some h24 /\
        minutesOf m = Some (decimal mm) /\
        secondsOf m = Some (decimal ss) /\
        timestamp (startMessage myName i m) = timestampIn utcZone m /\
        (forall z t,
            localValueOf m = Some t -> existsIn z t ->
            getTime (timestampIn z m) <> None ->
            h24 < 24 -> decimal mm < 60 -> decimal ss < 60 ->
            getHoursIn z (timestampIn z m) = Some h24))
  /\ hoursOf (capturesOf (lit "[6/27/24 PM 12:05:00] Alice: Hello")) = Some 12
  /\ hoursOf (capturesOf (lit "[6/27/24 AM 12:05:00] Alice: Hello")) = Some 0
  /\ hoursOf (capturesOf (lit "[6/27/24 PM 01:05:00] Alice: Hello")) = Some 13
  /\ hoursOf (capturesOf
                (lit "[28.11.2024 " ++ OS ++ lit " 12:05:00] Alice: Hello"))
     = Some 12
  /\ hoursOf (capturesOf
                (lit "[28.11.2024 " ++ OO ++ lit " 12:05:00] Alice: Hello"))
     = Some 0
  /\ hoursOf (capturesOf
                (lit "[28.11.2024 " ++ OS ++ lit " 01:05:00] Alice: Hello"))
     = Some 13
  /\ hoursOf (capturesOf (lit "[28.11.2024 14:05:00] Alice: Hello")) = Some 14
  /\ hoursOf (capturesOf (lit "[6/27/24 PM 13:05:00] Alice: Hello")) = Some 25
  /\ (let m := capturesOf (lit "[27.03.2016 03:30:00] Alice: Hello") in
      hoursOf m = Some 3 /\
      localValueOf m = Some 1459049400000 /\
      ~ existsIn springForward 1459049400000 /\
      getHoursIn springForward (timestampIn springForward m) = Some 4).
Proof.
  split; [|repeat split; try (vm_compute; reflexivity);
           vm_compute; discriminate].
  intros myName i line m H.
  destruct (msgStart_groups _ H)
    as (a & s1 & b & s2 & c & hh & mm & ss & snd & cnt
        & G1 & Hd & _ & G3 & Ht & _ & _ & _ & _).
  exists hh, mm, ss. split; [exact G3|]. split; [exact Ht|].
  destruct Ht as (Dh & Lh & Dm & Lm & Ds & Ls).
  assert (Nh : hh <> []) by (apply len_nonempty; lia).
  assert (Nm : mm <> []) by (apply len_nonempty; lia).
  assert (Ns : ss <> []) by (apply len_nonempty; lia).
  assert (Eh : hoursOf m = Some (Spec.hour24 (group 2 m) (decimal hh))).
  { unfold hoursOf, grp. rewrite G3, timeParts_colons by assumption.
    rewrite parseInt_digits by assumption. apply convertHours_hour24. }
  assert (Em : minutesOf m = Some (decimal mm)).
  { unfold minutesOf, grp. rewrite G3, timeParts_colons by assumption.
    apply parseInt_digits; assumption. }
  assert (Es : secondsOf m = Some (decimal ss)).
  { unfold secondsOf, grp. rewrite G3, timeParts_colons by assumption.
    apply parseInt_digits; assumption. }
  cbv zeta. split; [exact Eh|]. split; [exact Em|]. split; [exact Es|].
  split; [apply HostFacts.startMessage_timestampIn|].
  intros z t Hl Hex Hv B1 B2 B3.
  assert (P1 := decimal_nonneg Dh). assert (P2 := decimal_nonneg Dm).
  assert (P3 := decimal_nonneg Ds).
  assert (P0 : 0 <= Spec.hour24 (group 2 m) (decimal hh)).
  { unfold Spec.hour24.
    destruct (Spec.isPM _ && _); [lia|]. destruct (Spec.isAM _ && _); lia. }
  revert Hl Hv. unfold localValueOf, timestampIn. rewrite Eh, Em, Es.
  destruct (dateFields (grp 1 m)) as [[day month] year].
  intros Hl Hv.
  apply (@HostFacts.getHoursIn_newDateIn z _ _ _ _ _ _ t Hl Hex Hv); lia.
Qed.

Lemma C4_hour_amended_witness :
  let m := capturesOf (lit "[6/27/24 PM 01:05:00] Alice: Hello") in
  exists hh mm ss,
    group 3 m = Some (hh ++ [58] ++ mm ++ [58] ++ ss) /\
    timeToken hh mm ss /\
    let h24 := Spec.hour24 (group 2 m) (decimal hh) in
    hoursOf m = Some h24 /\
    minutesOf m = Some (decimal mm) /\
    secondsOf m = Some (decimal ss) /\
    timestamp (startMessage None 0 m) = timestampIn utcZone m /\
    (forall z t,
        localValueOf m = Some t -> existsIn z t ->
        getTime (timestampIn z m) <> None ->
        h24 < 24 -> decimal mm < 60 -> decimal ss < 60 ->
        getHoursIn z (timestampIn z m) = Some h24).
Proof.
  exact (proj1 C4_hour_amended None 0%nat
               (lit "[6/27/24 PM 01:05:00] Alice: Hello") _ eq_refl).
Defined.

(** C2.  The messages of a parse are as many as the non-blank cleaned
    lines that match the start pattern, and their contents are, start
    line by start line and in input order, the content of the start
    line followed by the non-blank lines between it and the next start
    line, each appended after a newline; non-blank lines before the
    first start line appear in no content. *)
Theorem C2_message_boundaries :
  forall (JSZip : Type) text (zipFile : option JSZip) myName,
    let result := parseChatFile text zipFile myName in
    let lines := Spec.nonBlankLines text in
    length (messages result) = length (filter Spec.isStart lines) /\
    map content (messages result) = Spec.contentsOf lines.
Proof.
  intros JSZip text zipFile myName result lines.
  assert (E : map content (messages result) = Spec.contentsOf lines).
  { unfold result. rewrite LoopFacts.parseChatFile_messages.
    rewrite LoopFacts.loop_contents. reflexivity. }
  split; [|exact E].
  rewrite <- (length_map content), E. apply LoopFacts.contentsOf_length.
Qed.

(** C9, as stated, fails: parsed with the empty string as self
    identity, a message whose sender is the empty string is not
    flagged. *)
Lemma C9_isMe_counterexample :
  ~ (forall (text s : jsstring) (msg : Message),
        In msg (messages (parseChatFile text (@None unit) (Some s))) ->
        (isMe msg = true <-> sender msg = s)).
Proof.
  intros H.
  assert (Hm : exists msg,
             In msg (messages (parseChatFile
                                 (lit "[28.11.2024 14:05:00] : hi")
                                 (@None unit) (Some []))) /\
             sender msg = [] /\ isMe msg = false).
  { vm_compute. eexists. split; [left; reflexivity|]. split; reflexivity. }
  destruct Hm as (msg & Hin & Hs & Hf).
  apply H in Hin. rewrite Hf in Hin. destruct Hin as [_ Hin].
  specialize (Hin Hs). discriminate.
Qed.

(** C9, amended.  With a non-empty self identity a message is flagged
    exactly when its sender equals it; with no self identity, or with
    the empty string, no message is flagged. *)
Theorem C9_isMe_amended :
  forall (JSZip : Type) text (zipFile : option JSZip),
    (forall s msg,
        s <> [] ->
        In msg (messages (parseChatFile text zipFile (Some s))) ->
        (isMe msg = true <-> sender msg = s)) /\
    (forall msg,
        In msg (messages (parseChatFile text zipFile None)) ->
        isMe msg = false) /\
    (forall msg,
        In msg (messages (parseChatFile text zipFile (Some []))) ->
        isMe msg = false).
Proof.
  intros JSZip text zipFile.
  assert (F : forall myName msg,
             In msg (messages (parseChatFile text zipFile myName)) ->
             isMe msg = isMeOf myName (sender msg)).
  { intros myName msg Hin. rewrite LoopFacts.parseChatFile_messages in Hin.
    pose proof (LoopFacts.loop_flagged myName (split 10 text)) as HF.
    rewrite Forall_forall in HF. apply HF. exact Hin. }
  split; [|split].
  - intros s msg Hs Hin. rewrite (F _ _ Hin).
    destruct s as [|c s]; [congruence|]. cbn [isMeOf]. apply streq_eq.
  - intros msg Hin. rewrite (F _ _ Hin). reflexivity.
  - intros msg Hin. rewrite (F _ _ Hin). reflexivity.
Qed.

Lemma C9_isMe_amended_witness :
  let text := lit "[28.11.2024 14:05:00] Alice: Hello" in
  let msg := startMessage (Some (lit "Alice")) 0 (capturesOf text) in
  isMe msg = true <-> sender msg = lit "Alice".
Proof.
  intros text msg.
  apply (proj1 (C9_isMe_amended text (@None unit)) (lit "Alice") msg).
  - discriminate.
  - left. reflexivity.
Defined.

(** C8, as stated, fails: for the name Ferhat the colour of the
    source is not the palette entry the 32-bit hash selects. *)
Lemma C8_color_counterexample :
  getRandomColor (lit "Ferhat") <> Spec.colorByHash32 (lit "Ferhat").
Proof. vm_compute. discriminate. Qed.

(** C8, amended.  The colour is the palette entry at index
    [abs h mod 13], over the 13 colours in their listed order, where
    [h] folds [code + ((hash << 5) - hash)] over the name with the shift
    alone reduced to a 32-bit signed integer; the subtraction and the
    addition are exact.  [h] agrees with the 32-bit hash modulo 2^32 and
    need not lie in the 32-bit range: for Ferhat it is -2194151864. *)
Theorem C8_color_amended :
  forall name,
    getRandomColor name
    = nth (Z.to_nat (Z.abs (Spec.hashShiftWrapped name) mod 13)) colors []
    /\ In (getRandomColor name) colors
    /\ length colors = 13%nat
    /\ (exists k, Spec.hashShiftWrapped name
                  = Spec.hash32 name + k * 4294967296)
    /\ Spec.hashShiftWrapped (lit "Ferhat") = -2194151864
    /\ Spec.hash32 (lit "Ferhat") = 2100815432.
Proof.
  intros name. rewrite <- HashFacts.hashOf_shiftWrapped.
  split; [reflexivity|]. split; [apply HashFacts.getRandomColor_in|].
  split; [reflexivity|]. split; [apply HashFacts.hashOf_hash32|].
  split; vm_compute; reflexivity.
Qed.

(** C1.  The end-to-end scenario: two messages, Alice's with the
    continuation line appended after a newline and Bob's; both senders
    in first-seen order; both participants, Bob first because his last
    message is the later one. *)
Theorem C1_end_to_end :
  forall (JSZip : Type),
    let text := lit "[28.11.2024 14:05:00] Alice: Hello" ++ [10]
                ++ lit "world" ++ [10]
                ++ lit "[28.11.2024 14:06:00] Bob: Hi" in
    let result := parseChatFile text (@None JSZip) None in
    map (fun msg => (sender msg, content msg)) (messages result)
    = [ (lit "Alice", lit "Hello" ++ [10] ++ lit "world");
        (lit "Bob", lit "Hi") ]
    /\ allSenders result = [lit "Alice"; lit "Bob"]
    /\ map name (participants result) = [lit "Bob"; lit "Alice"]
    /\ map (fun p => getTime (lastMessageDate p)) (participants result)
       = [Some 1732802760000; Some 1732802700000]
    /\ zipFile result = None.
Proof.
  intros JSZip. vm_compute. repeat split.
Qed.

(** C5, as stated, fails: a security code notice with a reference to
    a .pdf file keeps the file name, and its type stays [system]; the
    extension gives no type and overrides nothing. *)
Lemma C5_extension_counterexample :
  ~ (forall line m f,
        exec msgStartRegex line = Some m ->
        attachmentFileName (startMessage None 0 m) = Some f ->
        exists t, Spec.typeOfExtension (extOf f) = Some t /\
                  type (startMessage None 0 m) = t).
Proof.
  intros H.
  destruct (H (lit "[28.11.2024 14:05:00] Alice: " ++ phraseSecurity
               ++ lit " <report.pdf eklendi>")
              (capturesOf (lit "[28.11.2024 14:05:00] Alice: "
                           ++ phraseSecurity ++ lit " <report.pdf eklendi>"))
              (lit "report.pdf"))
    as (t & Ht & _).
  - vm_compute. reflexivity.
  - vm_compute. reflexivity.
  - vm_compute in Ht. discriminate Ht.
Qed.

(** C5, amended.  When a start line yields an attachment file name, its
    extension is one of the nine the patterns accept.  For the eight of
    them in the extension table the type of the message is the one the
    table gives (image, audio or video), whatever the phrase checks had
    set.  For pdf, the one accepted extension the table leaves out, the
    type is not derived again: it stays what the phrase checks set.  A
    file name ending in .mp4 gives video, also when the content holds
    the missing-image phrase, as in the example line; a security code
    notice with a .pdf reference stays a system message. *)
Theorem C5_extension_amended :
  (forall myName i line m f,
      exec msgStartRegex line = Some m ->
      attachmentFileName (startMessage myName i m) = Some f ->
      let msg := startMessage myName i m in
      In (extOf f) mediaExts /\
      (Spec.typeOfExtension (extOf f) = None <-> extOf f = lit "pdf") /\
      type msg = match Spec.typeOfExtension (extOf f) with
                 | Some t => t
                 | None => phraseType (content msg)
                 end /\
      (forall stem, f = stem ++ lit ".mp4" -> type msg = video))
  /\ (let c := phraseNoImage ++ lit " <VID-1.mp4 eklendi>" in
      phraseType c = image /\
      attachmentOf c = Some (lit "VID-1.mp4") /\
      typesOf (lit "[28.11.2024 14:05:00] Alice: " ++ c) = [video])
  /\ (let c := phraseSecurity ++ lit " <report.pdf eklendi>" in
      phraseType c = system /\
      attachmentOf c = Some (lit "report.pdf") /\
      typesOf (lit "[28.11.2024 14:05:00] Alice: " ++ c) = [system]).
Proof.
  split; [|split; vm_compute; repeat split].
  intros myName i line m f _ Hf msg. unfold msg.
  rewrite startMessage_attachment in Hf.
  rewrite startMessage_type, startMessage_content.
  destruct (@attachmentOf_shape _ _ Hf) as (stem & e & -> & Hne & Hk).
  destruct (@knownExt_lower e Hk) as [Hin Hdot].
  rewrite Hf.
  assert (Hnil : stem ++ [46] ++ e <> []) by (destruct stem; discriminate).
  rewrite (@finalType_table _ _ Hnil).
  rewrite (@extOf_suffix stem e Hdot).
  split; [exact Hin|]. split.
  - revert Hin. generalize (toLowerCase e) as x. intros x Hin.
    unfold mediaExts in Hin. cbn [In] in Hin.
    destruct Hin as [<- | [<- | [<- | [<- | [<- | [<- | [<- | [<- | [<- | []]]]]]]]]];
      vm_compute; split; intros X; try reflexivity; discriminate X.
  - split; [reflexivity|].
    intros stem' E.
    change (stem' ++ lit ".mp4") with (stem' ++ [46] ++ lit "mp4") in E.
    assert (X : extOf (stem ++ [46] ++ e) = lit "mp4").
    { rewrite E. apply (@extOf_suffix stem' (lit "mp4")). reflexivity. }
    rewrite (@extOf_suffix stem e Hdot) in X. rewrite X. reflexivity.
Qed.

Lemma C5_extension_amended_witness :
  let c := phraseNoImage ++ lit " <VID-1.mp4 eklendi>" in
  let m := capturesOf (lit "[28.11.2024 14:05:00] Alice: " ++ c) in
  let msg := startMessage None 0 m in
  In (extOf (lit "VID-1.mp4")) mediaExts /\
  (Spec.typeOfExtension (extOf (lit "VID-1.mp4")) = None
   <-> extOf (lit "VID-1.mp4") = lit "pdf") /\
  type msg = match Spec.typeOfExtension (extOf (lit "VID-1.mp4")) with
             | Some t => t
             | None => phraseType (content msg)
             end /\
  (forall stem, lit "VID-1.mp4" = stem ++ lit ".mp4" -> type msg = video).
Proof.
  exact (proj1 C5_extension_amended None 0%nat
           (lit "[28.11.2024 14:05:00] Alice: " ++ phraseNoImage
            ++ lit " <VID-1.mp4 eklendi>") _ (lit "VID-1.mp4")
           eq_refl eq_refl).
Defined.

(** C6.  When the content of a start line matches both attachment
    patterns, the file name of the message is group 1 of the
    angle-bracket match, which is defined and not empty.  In the example
    the two patterns capture different names and the angle-bracket one
    is kept. *)
Theorem C6_angle_bracket_first :
  (forall myName i line m mNew mOld,
      exec msgStartRegex line = Some m ->
      exec attachmentRegexNew (grp 5 m) = Some mNew ->
      exec attachmentRegexOld (grp 5 m) = Some mOld ->
      attachmentFileName (startMessage myName i m) = group 1 mNew /\
      exists f, group 1 mNew = Some f /\ f <> [])
  /\ (let c := lit "<a.jpg eklendi> b.png (file attached)" in
      option_map (group 1) (exec attachmentRegexNew c)
        = Some (Some (lit "a.jpg")) /\
      option_map (group 1) (exec attachmentRegexOld c)
        = Some (Some (lit " b.png")) /\
      attachmentsOf (lit "[28.11.2024 14:05:00] Alice: " ++ c)
        = [Some (lit "a.jpg")]).
Proof.
  split; [|vm_compute; repeat split].
  intros myName i line m mNew mOld _ Hn Ho.
  rewrite startMessage_attachment. unfold attachmentOf. rewrite Hn.
  split; [reflexivity|].
  destruct (@attachmentNew_group1 _ _ Hn) as (stem & e & G & Hne & _).
  exists (stem ++ [46] ++ e). split; [exact G|].
  destruct stem; [congruence|discriminate].
Qed.

Lemma C6_angle_bracket_first_witness :
  let c := lit "<a.jpg eklendi> b.png (file attached)" in
  let m := capturesOf (lit "[28.11.2024 14:05:00] Alice: " ++ c) in
  attachmentFileName (startMessage None 0 m)
  = group 1 [(1%nat, lit "a.jpg"); (2%nat, lit "jpg")] /\
  exists f, group 1 [(1%nat, lit "a.jpg"); (2%nat, lit "jpg")] = Some f
            /\ f <> [].
Proof.
  exact (proj1 C6_angle_bracket_first None 0%nat
           (lit "[28.11.2024 14:05:00] Alice: <a.jpg eklendi> b.png (file attached)")
           _ _ [(3%nat, lit "(file attached)"); (1%nat, lit " b.png");
                (2%nat, lit "png")]
           eq_refl eq_refl eq_refl).
Defined.




(** C7.  On a start line, the participants map changes only when the
    message is neither from the self identity nor a system message.
    Then the entry of the sender, and no other, is written: a sender not
    yet in the map gets a new entry at the end, with the colour computed
    from the name; a sender already there keeps name and colour and gets
    the content and timestamp of this message, whatever timestamp the
    entry held.  Other lines leave the map as it is.  In the result of a
    parse the participant names are pairwise distinct and are exactly
    the senders of such messages; every participant has the colour of
    its name and the timestamp and first content of the last such
    message of that sender in input order, also when that message is
    dated earlier than a previous one. *)
Theorem C7_participant_aggregation :
  (forall myName st i rawLine m,
      Spec.clean rawLine <> [] ->
      exec msgStartRegex (Spec.clean rawLine) = Some m ->
      let msg := startMessage myName i m in
      let before := participantsMap st in
      let after := participantsMap (step myName st i rawLine) in
      (isMe msg = true \/ type msg = system -> after = before) /\
      (isMe msg = false -> type msg <> system ->
       (forall k, k <> sender msg -> mapGet after k = mapGet before k) /\
       match mapGet before (sender msg) with
       | None =>
           after = before ++
                   [(sender msg,
                     mkParticipant (sender msg) (content msg) (timestamp msg)
                                   (getRandomColor (sender msg)))]
       | Some p =>
           keys after = keys before /\
           mapGet after (sender msg)
           = Some (mkParticipant (name p) (content msg) (timestamp msg)
                                 (avatarColor p))
       end))
  /\ (forall myName st i rawLine,
         Spec.clean rawLine = [] \/
         exec msgStartRegex (Spec.clean rawLine) = None ->
         participantsMap (step myName st i rawLine) = participantsMap st)
  /\ (forall (JSZip : Type) text (zipFile : option JSZip) myName,
         let result := parseChatFile text zipFile myName in
         NoDup (map name (participants result)) /\
         (forall n,
             In n (map name (participants result)) <->
             exists msg, In msg (messages result) /\ sender msg = n /\
                         isMe msg = false /\ type msg <> system) /\
         (forall p,
             In p (participants result) ->
             avatarColor p = getRandomColor (name p) /\
             exists msg conts,
               lastQualifying (name p) (messages result) = Some msg /\
               lastMessageDate p = timestamp msg /\
               content msg = Spec.appendLines (lastMessage p) conts))
  /\ map (fun p => (name p, lastMessage p, getTime (lastMessageDate p)))
         (participants
            (parseChatFile
               (lit "[28.11.2024 14:05:00] Alice: new" ++ [10]
                ++ lit "[27.11.2024 09:00:00] Alice: old")
               (@None unit) None))
     = [(lit "Alice", lit "old", Some 1732698000000)].
Proof.
  split; [|split; [|split]].
  - intros myName st i rawLine m E Em msg before after.
    unfold after. rewrite (@step_start_map myName st i rawLine m E Em).
    fold msg. fold before. split.
    + intros H. apply updateParticipants_unqualified.
      apply qualifies_false. exact H.
    + intros H1 H2.
      assert (Hq : qualifies msg = true) by (apply qualifies_true; auto).
      destruct (mapGet before (sender msg)) as [p|] eqn:G.
      * assert (Hhas : mapHas before (sender msg) = true)
          by (unfold mapHas; rewrite G; reflexivity).
        rewrite (@updateParticipants_known before msg Hq Hhas).
        split; [|split].
        -- intros k Hk. apply mapGet_mapMutate_other. exact Hk.
        -- apply mapMutate_keys.
        -- exact (@mapGet_mapMutate_same
                    (fun q => mkParticipant (name q) (content msg)
                                (timestamp msg) (avatarColor q))
                    before (sender msg) p G).
      * assert (Hhas : mapHas before (sender msg) = false)
          by (unfold mapHas; rewrite G; reflexivity).
        rewrite (@updateParticipants_new before msg Hq Hhas).
        split; [|reflexivity].
        intros k Hk. apply mapGet_app_other. exact Hk.
  - intros myName st i rawLine H. apply step_other_map. exact H.
  - intros JSZip text zipFile myName result.
    pose proof (loop_Inv myName (split 10 text)) as HI. cbv zeta in HI.
    set (st := loop myName initState 0 (split 10 text)) in *.
    assert (Em : messages result = finish st) by reflexivity.
    assert (Ep : participants result
                 = sort byRecency (mapValues (participantsMap st)))
      by reflexivity.
    pose proof (sort_perm byRecency (mapValues (participantsMap st))) as HP.
    rewrite <- Ep in HP.
    pose proof (Permutation_map name HP) as HPn.
    rewrite (Inv_names HI) in HPn.
    split; [|split].
    + apply (Permutation_NoDup (Permutation_sym HPn)). apply (inv_nodup HI).
    + intros n. rewrite Em. split.
      * intros Hn. apply (Permutation_in n HPn) in Hn.
        apply (inv_keys HI) in Hn. destruct Hn as (msg & Hin & Hs & Hq).
        exists msg. apply qualifies_true in Hq. tauto.
      * intros (msg & Hin & Hs & Hq).
        apply (Permutation_in n (Permutation_sym HPn)).
        apply (inv_keys HI). exists msg. rewrite qualifies_true. tauto.
    + intros p Hp. apply (Permutation_in p HP) in Hp.
      unfold mapValues in Hp. apply in_map_iff in Hp.
      destruct Hp as ([k v] & E & Hin). simpl in E. subst v.
      rewrite (inv_name HI _ _ Hin). split.
      * apply (inv_color HI _ _ Hin).
      * rewrite Em. apply (inv_last HI _ _ Hin).
  - vm_compute. reflexivity.
Qed.

Lemma C7_participant_aggregation_witness :
  let rawLine := lit "[28.11.2024 14:05:00] Alice: Hello" in
  let msg := startMessage None 0 (capturesOf rawLine) in
  let before := participantsMap initState in
  let after := participantsMap (step None initState 0 rawLine) in
  (isMe msg = true \/ type msg = system -> after = before) /\
  (isMe msg = false -> type msg <> system ->
   (forall k, k <> sender msg -> mapGet after k = mapGet before k) /\
   match mapGet before (sender msg) with
   | None =>
       after = before ++
               [(sender msg,
                 mkParticipant (sender msg) (content msg) (timestamp msg)
                               (getRandomColor (sender msg)))]
   | Some p =>
       keys after = keys before /\
       mapGet after (sender msg)
       = Some (mkParticipant (name p) (content msg) (timestamp msg)
                             (avatarColor p))
   end).
Proof.
  refine (proj1 C7_participant_aggregation None initState 0%nat
            (lit "[28.11.2024 14:05:00] Alice: Hello") _ _ eq_refl).
  vm_compute. discriminate.
Defined.

End Claims.

(* ================================================================== *)
(** ** Further facts about the loop                                    *)
(* ================================================================== *)

Module MoreFacts.
Import JS Regex Num Parser Sem Views App Shapes.
Import RegexFacts StringFacts ParserFacts MapFacts LoopFacts.
Open Scope Z_scope.
Local Unset Implicit Arguments.

(** *** Printing and reading back an index *)

Lemma digitsOf_decimal : forall fuel n acc,
    0 <= n < 2 ^ Z.of_nat fuel ->
    fold_left (fun a c => 10 * a + (c - 48)) (digitsOf fuel n acc) 0
    = fold_left (fun a c => 10 * a + (c - 48)) acc n.
Proof.
  induction fuel as [|fuel IH]; intros n acc Hn.
  - change (2 ^ Z.of_nat 0) with 1 in Hn. assert (n = 0) by lia. subst.
    reflexivity.
  - cbn [digitsOf]. destruct (Z.ltb_spec n 10).
    + cbn [fold_left]. rewrite Z.mod_small by lia. f_equal. lia.
    + rewrite IH.
      * cbn [fold_left]. f_equal.
        pose proof (Z.div_mod n 10 ltac:(lia)). lia.
      * rewrite Nat2Z.inj_succ, Z.pow_succ_r in Hn by lia.
        split; [apply Z.div_pos; lia|].
        apply Z.div_lt_upper_bound; lia.
Qed.

Lemma digitsOf_digits : forall fuel n acc,
    0 <= n -> forallb isDigit acc = true ->
    forallb isDigit (digitsOf fuel n acc) = true.
Proof.
  induction fuel as [|fuel IH]; intros n acc Hn Hacc; [exact Hacc|].
  cbn [digitsOf].
  assert (Hd : isDigit (48 + n mod 10) = true).
  { pose proof (Z.mod_pos_bound n 10 ltac:(lia)).
    unfold isDigit, between. lia. }
  destruct (n <? 10).
  - cbn [forallb]. rewrite Hd, Hacc. reflexivity.
  - apply IH; [apply Z.div_pos; lia|]. cbn [forallb].
    rewrite Hd, Hacc. reflexivity.
Qed.

Lemma digitsOf_nonempty fuel n acc : digitsOf (S fuel) n acc <> [].
Proof.
  revert n acc. induction fuel as [|fuel IH]; intros n acc.
  - cbn [digitsOf]. destruct (n <? 10); discriminate.
  - change (digitsOf (S (S fuel)) n acc)
      with (if n <? 10 then (48 + n mod 10) :: acc
            else digitsOf (S fuel) (n / 10) ((48 + n mod 10) :: acc)).
    destruct (n <? 10); [discriminate|apply IH].
Qed.

Lemma showInt_nonneg n :
  0 <= n ->
  showInt n = digitsOf (Z.to_nat (Z.log2 n) + 1) n [].
Proof.
  intros H. unfold showInt. destruct (Z.ltb_spec n 0); [lia|reflexivity].
Qed.

(** What [String(n)] prints for a natural number reads back as [n]. *)
Lemma showInt_roundtrip n :
  0 <= n ->
  digits (showInt n) /\ showInt n <> [] /\ decimal (showInt n) = n.
Proof.
  intros H. rewrite showInt_nonneg by exact H.
  split; [|split].
  - apply digitsOf_digits; auto.
  - rewrite Nat.add_1_r. apply digitsOf_nonempty.
  - unfold decimal. rewrite digitsOf_decimal; [reflexivity|].
    split; [exact H|].
    rewrite Nat2Z.inj_add, Z2Nat.id by apply Z.log2_nonneg.
    change (Z.of_nat 1) with 1.
    destruct (Z.eq_dec n 0) as [->|Hn]; [reflexivity|].
    pose proof (Z.log2_spec n ltac:(lia)). unfold Z.succ in *. lia.
Qed.

Lemma idOf_inj i j : idOf i = idOf j -> i = j.
Proof.
  unfold idOf. intros E. apply app_inv_head in E.
  assert (D : decimal (showInt (Z.of_nat i)) = decimal (showInt (Z.of_nat j)))
    by (rewrite E; reflexivity).
  destruct (showInt_roundtrip (Z.of_nat i) ltac:(lia)) as (_ & _ & Ri).
  destruct (showInt_roundtrip (Z.of_nat j) ltac:(lia)) as (_ & _ & Rj).
  lia.
Qed.

(** *** The messages, line by line *)

Lemma extend_nil msg : extend msg [] = msg.
Proof. destruct msg. reflexivity. Qed.

Lemma loop_blocks myName : forall lines st i,
    finish (loop myName st i lines)
    = st_messages st
      ++ match currentMessage st with
         | Some cur =>
             [extend cur (Spec.continuationRun (Spec.nonBlank lines))]
         | None => []
         end
      ++ blocksFrom myName i lines.
Proof.
  induction lines as [|l ls IH]; intros st i.
  - cbn [loop blocksFrom]. unfold finish, pushCurrent.
    destruct (currentMessage st); [|rewrite app_nil_r; reflexivity].
    change (Spec.continuationRun (Spec.nonBlank [])) with (@nil jsstring).
    rewrite extend_nil, app_nil_r. reflexivity.
  - cbn [loop blocksFrom]. rewrite IH. clear IH.
    destruct (step_cases myName st i l) as [E Hs | m E Em Hs | E Em Hs];
      rewrite Hs.
    + rewrite nonBlank_blank by exact E. rewrite E. reflexivity.
    + rewrite nonBlank_cons by exact E. cbn [st_messages currentMessage].
      destruct (Spec.clean l) as [|c0 l0] eqn:El; [congruence|].
      rewrite Em. cbn [Spec.continuationRun]. unfold Spec.isStart.
      rewrite Em. unfold finish, pushCurrent.
      destruct (currentMessage st) as [cur|].
      * rewrite extend_nil, <- app_assoc. reflexivity.
      * reflexivity.
    + rewrite nonBlank_cons by exact E.
      destruct (Spec.clean l) as [|c0 l0] eqn:El; [congruence|].
      rewrite Em. cbn [Spec.continuationRun]. unfold Spec.isStart.
      rewrite Em.
      destruct (currentMessage st) as [cur|] eqn:Ec.
      * cbn [st_messages currentMessage]. reflexivity.
      * rewrite Ec. reflexivity.
Qed.

Lemma blocksFrom_ids myName : forall lines i,
    map id (blocksFrom myName i lines) = map idOf (startIndices i lines).
Proof.
  induction lines as [|l ls IH]; intros i; cbn [blocksFrom startIndices];
    [reflexivity|].
  unfold Spec.isStart.
  destruct (Spec.clean l) as [|c0 l0]; cbn [Spec.isBlank negb andb];
    [apply IH|].
  destruct (exec msgStartRegex (c0 :: l0)) as [m|]; [|apply IH].
  cbn [map]. rewrite IH. f_equal.
  unfold extend, startMessage, idOf. cbn [id].
  destruct (dateFields (grp 1 m)) as [[day month] year].
  destruct (timeParts (grp 3 m)) as [[hs ms] ss]. reflexivity.
Qed.

Lemma startIndices_bounds : forall lines i j,
    In j (startIndices i lines) -> (i <= j < i + length lines)%nat.
Proof.
  induction lines as [|l ls IH]; intros i j H; cbn [startIndices] in H;
    [contradiction|].
  cbn [length].
  destruct (negb _ && _).
  - destruct H as [<- | H]; [lia|]. apply IH in H. lia.
  - apply IH in H. lia.
Qed.

Lemma startIndices_increasing : forall lines i,
    StronglySorted Nat.lt (startIndices i lines).
Proof.
  induction lines as [|l ls IH]; intros i; cbn [startIndices];
    [constructor|].
  destruct (negb _ && _); [|apply IH].
  constructor; [apply IH|].
  apply Forall_forall. intros j Hj. apply startIndices_bounds in Hj. lia.
Qed.

Lemma increasing_NoDup (l : list nat) : StronglySorted Nat.lt l -> NoDup l.
Proof.
  induction 1 as [|x l HS IH HF]; constructor; [|exact IH].
  intros Hin. rewrite Forall_forall in HF. specialize (HF _ Hin). lia.
Qed.

Lemma map_NoDup_inj (A B : Type) (f : A -> B) :
  (forall x y, f x = f y -> x = y) ->
  forall l, NoDup l -> NoDup (map f l).
Proof.
  intros Hf. induction 1 as [|x l Hx HN IH]; cbn [map]; constructor; auto.
  rewrite in_map_iff. intros (y & E & Hy). apply Hf in E. subst. auto.
Qed.

(** *** The set of senders *)

Lemma setHas_In s k : setHas s k = true <-> In k s.
Proof.
  unfold setHas. rewrite existsb_exists. split.
  - intros (x & Hx & E). apply streq_eq in E. subst. exact Hx.
  - intros H. exists k. split; [exact H|apply streq_refl].
Qed.

Lemma setAdd_In s k n : In n (setAdd s k) <-> In n s \/ n = k.
Proof.
  unfold setAdd. destruct (setHas s k) eqn:E.
  - apply setHas_In in E. split; [auto|]. intros [H| ->]; auto.
  - rewrite in_app_iff. simpl. intuition auto.
Qed.

Lemma setAdd_NoDup s k : NoDup s -> NoDup (setAdd s k).
Proof.
  intros H. unfold setAdd. destruct (setHas s k) eqn:E; [exact H|].
  apply NoDup_snoc; [exact H|]. rewrite <- setHas_In, E. discriminate.
Qed.

Lemma fold_setAdd_In : forall l acc n,
    In n (fold_left setAdd l acc) <-> In n acc \/ In n l.
Proof.
  induction l as [|x l IH]; intros acc n; cbn [fold_left].
  - simpl. tauto.
  - rewrite IH, setAdd_In. simpl. intuition auto.
Qed.

Lemma fold_setAdd_NoDup : forall l acc,
    NoDup acc -> NoDup (fold_left setAdd l acc).
Proof.
  induction l as [|x l IH]; intros acc H; cbn [fold_left]; [exact H|].
  apply IH. apply setAdd_NoDup. exact H.
Qed.

Lemma step_senders myName st i l :
  sendersSet st = firstSeen (map sender (finish st)) ->
  sendersSet (step myName st i l)
  = firstSeen (map sender (finish (step myName st i l))).
Proof.
  intros H.
  destruct (step_cases myName st i l) as [E Hs | m E Em Hs | E Em Hs];
    rewrite Hs; clear Hs; auto.
  - unfold finish at 2. cbn [st_messages currentMessage sendersSet
                               pushCurrent].
    unfold firstSeen. rewrite map_app, fold_left_app. cbn [map fold_left].
    fold (firstSeen (map sender (finish st))). rewrite <- H. reflexivity.
  - unfold finish in *.
    destruct (currentMessage st) as [cur|] eqn:Ec; [|rewrite Ec; exact H].
    cbn [st_messages currentMessage sendersSet pushCurrent] in *.
    rewrite H, !map_app. reflexivity.
Qed.

Lemma loop_senders myName lines :
  let st := loop myName initState 0 lines in
  sendersSet st = firstSeen (map sender (finish st)).
Proof.
  apply (loop_invariant myName
           (fun st => sendersSet st = firstSeen (map sender (finish st)))).
  - intros st i l. apply step_senders.
  - reflexivity.
Qed.

(** *** Nothing to show *)

Lemma messages_count (JSZip : Type) text (zipFile : option JSZip) myName :
  length (messages (parseChatFile text zipFile myName))
  = length (filter Spec.isStart (Spec.nonBlankLines text)).
Proof.
  rewrite <- (length_map content), parseChatFile_messages, loop_contents.
  cbn [initState st_messages currentMessage app].
  apply contentsOf_length.
Qed.

Lemma firstSeen_nil l : firstSeen l = [] <-> l = [].
Proof.
  split; [|intros ->; reflexivity].
  destruct l as [|x l]; [reflexivity|]. intros E.
  assert (H : In x (firstSeen (x :: l))).
  { unfold firstSeen. apply fold_setAdd_In. right. left. reflexivity. }
  rewrite E in H. contradiction.
Qed.

Lemma Inv_no_messages pm : Inv pm [] -> pm = [].
Proof.
  intros H. destruct pm as [|[k v] pm]; [reflexivity|].
  assert (Hk : In k (keys ((k, v) :: pm))) by (left; reflexivity).
  apply (inv_keys H) in Hk. destruct Hk as (msg & [] & _).
Qed.

(** The three outputs are empty together, and exactly when no line
    starts a message. *)
Lemma parse_empty (JSZip : Type) text (zipFile : option JSZip) myName :
  let result := parseChatFile text zipFile myName in
  (messages result = [] <->
   filter Spec.isStart (Spec.nonBlankLines text) = []) /\
  (allSenders result = [] <-> messages result = []) /\
  (messages result = [] -> participants result = []).
Proof.
  intros result.
  pose proof (messages_count JSZip text zipFile myName) as HC.
  fold result in HC.
  pose proof (loop_senders myName (split 10 text)) as HS. cbv zeta in HS.
  pose proof (loop_Inv myName (split 10 text)) as HI. cbv zeta in HI.
  set (st := loop myName initState 0 (split 10 text)) in *.
  assert (Ea : allSenders result = sendersSet st) by reflexivity.
  assert (Em : messages result = finish st) by reflexivity.
  assert (Ep : participants result
               = sort byRecency (mapValues (participantsMap st)))
    by reflexivity.
  split; [|split].
  - split; intros E.
    + apply length_zero_iff_nil. rewrite <- HC, E. reflexivity.
    + apply length_zero_iff_nil. rewrite HC, E. reflexivity.
  - rewrite Ea, HS, <- Em, firstSeen_nil. split.
    + intros E. destruct (messages result); [reflexivity|discriminate].
    + intros ->. reflexivity.
  - intros E. rewrite Ep. rewrite Em in E. rewrite E in HI.
    rewrite (Inv_no_messages _ HI). reflexivity.
Qed.

(** *** When a timestamp is a valid date *)

Lemma decimal_bound : forall w,
    digits w -> 0 <= decimal w < 10 ^ Z.of_nat (length w).
Proof.
  unfold decimal, digits. intros w.
  assert (G : forall acc, 0 <= acc -> forallb isDigit w = true ->
             0 <= fold_left (fun a c => 10 * a + (c - 48)) w acc
             < (acc + 1) * 10 ^ Z.of_nat (length w)).
  { induction w as [|c w IH]; intros acc Ha H.
    - cbn [fold_left length]. change (10 ^ Z.of_nat 0) with 1. lia.
    - cbn [fold_left length forallb] in *.
      apply andb_prop in H. destruct H as [Hc Hw].
      apply digit_range in Hc.
      specialize (IH (10 * acc + (c - 48)) ltac:(lia) Hw).
      rewrite Nat2Z.inj_succ, Z.pow_succ_r by lia.
      assert (0 < 10 ^ Z.of_nat (length w)) by (apply Z.pow_pos_nonneg; lia).
      nia. }
  intros H. specialize (G 0 ltac:(lia) H). lia.
Qed.

Lemma decimal_upto (w : jsstring) (n : nat) :
  digits w -> (length w <= n)%nat -> 0 <= decimal w < 10 ^ Z.of_nat n.
Proof.
  intros D L. pose proof (decimal_bound w D) as B.
  assert (10 ^ Z.of_nat (length w) <= 10 ^ Z.of_nat n)
    by (apply Z.pow_le_mono_r; lia).
  lia.
Qed.

Lemma DaysBeforeMonth_bound leap m : 0 <= DaysBeforeMonth leap m <= 335.
Proof.
  unfold DaysBeforeMonth.
  destruct leap, m as [|p|p]; try lia;
    do 4 (try destruct p as [p|p|]; try lia).
Qed.

(** Fields of the size the start pattern allows always give a valid
    date: the time value stays far inside the range of [TimeClip]. *)
Lemma newDate_valid y mo d h mi s :
  100 <= y < 10000 -> -1 <= mo < 100 -> 0 <= d < 100 ->
  0 <= h < 200 -> 0 <= mi < 100 -> 0 <= s < 100 ->
  getTime (newDate (Some y) (Some mo) (Some d) (Some h) (Some mi) (Some s))
  <> None.
Proof.
  intros Hy Hmo Hd Hh Hmi Hs. unfold newDate.
  replace ((0 <=? y) && (y <=? 99)) with false
    by (symmetry; apply andb_false_iff; right; apply Z.leb_gt; lia).
  unfold TimeClip, MakeDate, MakeDay, MakeTime, DayFromYear, msPerDay,
    msPerHour, msPerMinute, msPerSecond.
  cbn [getTime].
  pose proof (DaysBeforeMonth_bound (InLeapYear (y + mo / 12)) (mo mod 12)).
  set (db := DaysBeforeMonth _ _) in *.
  assert (-1 <= mo / 12 <= 8).
  { split; [apply Z.div_le_lower_bound; lia|].
    apply Z.lt_succ_r, Z.div_lt_upper_bound; lia. }
  set (ym := y + mo / 12) in *.
  assert (Hym : 99 <= ym <= 10007) by (unfold ym; lia).
  pose proof (Z.div_mod (ym - 1969) 4 ltac:(lia)).
  pose proof (Z.mod_pos_bound (ym - 1969) 4 ltac:(lia)).
  pose proof (Z.div_mod (ym - 1901) 100 ltac:(lia)).
  pose proof (Z.mod_pos_bound (ym - 1901) 100 ltac:(lia)).
  pose proof (Z.div_mod (ym - 1601) 400 ltac:(lia)).
  pose proof (Z.mod_pos_bound (ym - 1601) 400 ltac:(lia)).
  destruct (Z.leb_spec (Z.abs
     ((365 * (ym - 1970) + (ym - 1969) / 4 - (ym - 1901) / 100
       + (ym - 1601) / 400 + db + d - 1) * 86400000
      + (h * 3600000 + mi * 60000 + s * 1000 + 0))) 8640000000000000);
    [discriminate|].
  exfalso. lia.
Qed.

Lemma isDateSep_cases s : isDateSep s = true -> s = 46 \/ s = 47.
Proof. unfold isDateSep. lia. Qed.

Lemma dropWhile_head x t :
  isWhiteSpace x = false -> dropWhile isWhiteSpace (x :: t) = x :: t.
Proof. intros H. cbn [dropWhile]. rewrite H. reflexivity. Qed.

(** Two runs of digits around a slash are not a number. *)
Lemma Number_slashed b c :
  digits b -> digits c -> b <> [] -> c <> [] ->
  Number (b ++ [47] ++ c) = None.
Proof.
  intros Db Dc Nb Nc. unfold Number.
  assert (T : trim (b ++ [47] ++ c) = b ++ [47] ++ c).
  { unfold trim. destruct b as [|x b]; [congruence|].
    assert (Hx : isWhiteSpace x = false).
    { apply digit_not_ws. unfold digits in Db. cbn [forallb] in Db.
      apply andb_prop in Db. tauto. }
    cbn [app]. rewrite (dropWhile_head _ _ Hx).
    change (x :: b ++ 47 :: c) with ((x :: b) ++ [47] ++ c).
    rewrite !rev_app_distr.
    destruct (rev c) as [|z rc] eqn:Er.
    { apply (f_equal (@rev Z)) in Er. rewrite rev_involutive in Er.
      simpl in Er. congruence. }
    assert (Hz : isWhiteSpace z = false).
    { apply digit_not_ws. pose proof (@digits_rev c Dc) as Dr.
      rewrite Er in Dr. unfold digits in Dr. cbn [forallb] in Dr.
      apply andb_prop in Dr. tauto. }
    cbn [app]. rewrite (dropWhile_head _ _ Hz).
    rewrite <- (rev_involutive (x :: b ++ 47 :: c)). f_equal.
    change (x :: b ++ 47 :: c) with ((x :: b) ++ [47] ++ c).
    rewrite !rev_app_distr, Er. reflexivity. }
  rewrite T.
  destruct (b ++ [47] ++ c) as [|x t] eqn:E.
  { destruct b; discriminate. }
  rewrite <- E, forallb_app. cbn [app forallb].
  replace (isDigit 47) with false by reflexivity.
  rewrite andb_false_r. reflexivity.
Qed.

(** A date token with two different separators gives no date fields the
    constructor accepts: the year is missing and so is the month or the
    day. *)
Lemma dateFields_mixed a s1 b s2 c :
  digits a -> digits b -> digits c -> a <> [] -> b <> [] -> c <> [] ->
  (s1 = 46 /\ s2 = 47) \/ (s1 = 47 /\ s2 = 46) ->
  exists day month,
    dateFields (a ++ [s1] ++ b ++ [s2] ++ c) = (day, month, None) /\
    (day = None \/ month = None).
Proof.
  intros Da Db Dc Na Nb Nc [[-> ->] | [-> ->]]; unfold dateFields.
  - change (lit ".") with ([46] ++ @nil Z).
    replace (a ++ [46] ++ b ++ [47] ++ c)
      with (a ++ ([46] ++ []) ++ (b ++ [47] ++ c)) at 1 by reflexivity.
    rewrite includes_here.
    change (a ++ [46] ++ b ++ [47] ++ c) with (a ++ 46 :: (b ++ [47] ++ c)).
    rewrite split_app.
    rewrite (@split_nosep 46 a) by (apply digits_without; [lia|assumption]).
    rewrite (@split_nosep 46 (b ++ [47] ++ c)).
    2:{ rewrite !forallb_app. cbn [forallb].
        rewrite !digits_without by (try lia; assumption). reflexivity. }
    pose proof (Number_slashed b c Db Dc Nb Nc) as HN.
    cbn [app map] in *. unfold elem. cbn [nth_error]. rewrite HN.
    eexists _, _. split; [reflexivity|]. right. reflexivity.
  - change (lit ".") with [46].
    assert (E : a ++ [47] ++ b ++ [46] ++ c = (a ++ [47] ++ b) ++ [46] ++ c)
      by (rewrite <- !app_assoc; reflexivity).
    rewrite E, includes_here.
    change ((a ++ [47] ++ b) ++ [46] ++ c) with ((a ++ [47] ++ b) ++ 46 :: c).
    rewrite split_app.
    rewrite (@split_nosep 46 c) by (apply digits_without; [lia|assumption]).
    rewrite (@split_nosep 46 (a ++ [47] ++ b)).
    2:{ rewrite !forallb_app. cbn [forallb].
        rewrite !digits_without by (try lia; assumption). reflexivity. }
    pose proof (Number_slashed a b Da Db Na Nb) as HN.
    cbn [app map] in *. unfold elem. cbn [nth_error]. rewrite HN.
    eexists _, _. split; [reflexivity|]. left. reflexivity.
Qed.

(** The time fields of a start line are numbers of at most three and
    two digits. *)
Lemma timeFields_of_token m hh mm ss :
  group 3 m = Some (hh ++ [58] ++ mm ++ [58] ++ ss) ->
  timeToken hh mm ss ->
  hoursOf m = Some (Spec.hour24 (group 2 m) (decimal hh)) /\
  minutesOf m = Some (decimal mm) /\ secondsOf m = Some (decimal ss) /\
  0 <= Spec.hour24 (group 2 m) (decimal hh) < 200 /\
  0 <= decimal mm < 100 /\ 0 <= decimal ss < 100.
Proof.
  intros G3 (Dh & Lh & Dm & Lm & Ds & Ls).
  assert (Nh : hh <> []) by (apply len_nonempty; lia).
  assert (Nm : mm <> []) by (apply len_nonempty; lia).
  assert (Ns : ss <> []) by (apply len_nonempty; lia).
  unfold hoursOf, minutesOf, secondsOf, grp.
  rewrite G3, timeParts_colons by assumption.
  rewrite !parseInt_digits by assumption.
  rewrite Claims.convertHours_hour24.
  pose proof (decimal_upto hh 2 Dh ltac:(lia)) as Bh.
  pose proof (decimal_upto mm 2 Dm ltac:(lia)) as Bm.
  pose proof (decimal_upto ss 2 Ds ltac:(lia)) as Bs.
  change (10 ^ Z.of_nat 2) with 100 in *.
  repeat split; try lia;
    unfold Spec.hour24;
    destruct (Spec.isPM _ && _); try lia;
    destruct (Spec.isAM _ && _); lia.
Qed.

(** *** Sorting by recency *)

Lemma insertSorted_In (A : Type) (cmp : A -> A -> jsnum) x l z :
  In z (insertSorted cmp x l) -> z = x \/ In z l.
Proof.
  intros H. apply (Permutation_in z (insertSorted_perm cmp x l)) in H.
  destruct H as [H|H]; auto.
Qed.

Lemma insertSorted_newestFirst x l :
  getTime (lastMessageDate x) <> None ->
  (forall p, In p l -> getTime (lastMessageDate p) <> None) ->
  newestFirst l -> newestFirst (insertSorted byRecency x l).
Proof.
  unfold newestFirst. intros Hx Hl HS.
  induction HS as [|y l HS IH HF]; cbn [insertSorted].
  - constructor; constructor.
  - assert (Hy : getTime (lastMessageDate y) <> None)
      by (apply Hl; left; reflexivity).
    assert (Hl' : forall p, In p l -> getTime (lastMessageDate p) <> None)
      by (intros p Hp; apply Hl; right; exact Hp).
    specialize (IH Hl'). rewrite Forall_forall in HF.
    unfold comesAfter, byRecency, sub.
    destruct (getTime (lastMessageDate x)) as [tx|] eqn:Ex; [|congruence].
    destruct (getTime (lastMessageDate y)) as [ty|] eqn:Ey; [|congruence].
    destruct (Z.ltb_spec 0 (ty - tx)).
    + constructor; [exact IH|]. apply Forall_forall. intros z Hz.
      apply insertSorted_In in Hz. destruct Hz as [-> | Hz].
      * rewrite Ey, Ex. lia.
      * specialize (HF z Hz). rewrite Ey. exact HF.
    + constructor.
      * constructor; [exact HS|]. apply Forall_forall. intros z Hz.
        specialize (HF z Hz). rewrite Ey. exact HF.
      * apply Forall_forall. intros z [<- | Hz].
        -- rewrite Ex, Ey. lia.
        -- specialize (HF z Hz). rewrite Ex.
           destruct (getTime (lastMessageDate z)); [lia|contradiction].
Qed.

Lemma sort_newestFirst l :
  (forall p, In p l -> getTime (lastMessageDate p) <> None) ->
  newestFirst (sort byRecency l).
Proof.
  induction l as [|x l IH]; intros H; cbn [sort fold_right].
  - constructor.
  - apply insertSorted_newestFirst.
    + apply H. left. reflexivity.
    + intros p Hp. apply (Permutation_in p (sort_perm byRecency l)) in Hp.
      apply H. right. exact Hp.
    + apply IH. intros p Hp. apply H. right. exact Hp.
Qed.

Lemma lastQualifying_In k msgs msg :
  lastQualifying k msgs = Some msg -> In msg msgs.
Proof.
  unfold lastQualifying. intros H. apply find_some in H.
  apply in_rev. tauto.
Qed.

(** The date of every participant is the timestamp of a message. *)
Lemma participant_dates (JSZip : Type) text (zipFile : option JSZip) myName p :
  In p (participants (parseChatFile text zipFile myName)) ->
  exists msg, In msg (messages (parseChatFile text zipFile myName)) /\
              lastMessageDate p = timestamp msg.
Proof.
  intros Hp.
  pose proof (loop_Inv myName (split 10 text)) as HI. cbv zeta in HI.
  set (st := loop myName initState 0 (split 10 text)) in *.
  change (In p (sort byRecency (mapValues (participantsMap st)))) in Hp.
  change (messages (parseChatFile text zipFile myName)) with (finish st).
  apply (Permutation_in p (sort_perm byRecency _)) in Hp.
  unfold mapValues in Hp. apply in_map_iff in Hp.
  destruct Hp as ([k v] & E & Hin). simpl in E. subst v.
  destruct (inv_last HI _ _ Hin) as (msg & conts & L & D & _).
  exists msg. split; [|exact D]. apply (lastQualifying_In _ _ _ L).
Qed.

(** *** Which match a quantifier returns *)

Lemma search_rmatch r : forall s pos caps,
    search r pos s = Some caps ->
    exists n, (n <= length s)%nat /\
              rmatch r (pos + n) (skipn n s) [] found = Some caps.
Proof.
  induction s as [|c s IH]; intros pos caps H; cbn [search] in H.
  - fold found in H. destruct (rmatch r pos [] [] found) eqn:Hm;
      [|discriminate].
    exists 0%nat. rewrite Nat.add_0_r. cbn [skipn]. split; [reflexivity|].
    congruence.
  - fold found in H. destruct (rmatch r pos (c :: s) [] found) eqn:Hm.
    + exists 0%nat. rewrite Nat.add_0_r. cbn [skipn]. split; [apply Nat.le_0_l|].
      congruence.
    + apply IH in H. destruct H as (n & Hn & H). exists (S n).
      rewrite <- Nat.add_succ_comm. cbn [skipn length]. split; [lia|exact H].
Qed.

(** One step into a sequence. *)
Lemma peel (R : Type) r1 r2 pos s caps (k : cont R) x :
  rmatch (Seq r1 r2) pos s caps k = Some x ->
  exists w s' caps',
    s = w ++ s' /\ matches r1 pos w caps caps' /\
    rmatch r2 (pos + length w) s' caps' k = Some x.
Proof. cbn [rmatch]. intros H. apply rmatch_sound in H. exact H. Qed.

(** The lazy star stops at the first length its continuation accepts. *)
Lemma starLazy_first (R : Type) p : forall s pos (k : nat -> jsstring -> option R) x,
    starLazy p pos s k = Some x ->
    exists w s',
      s = w ++ s' /\ forallb p w = true /\
      k (pos + length w)%nat s' = Some x /\
      forall w1 w2, w = w1 ++ w2 -> w2 <> [] ->
                    k (pos + length w1)%nat (w2 ++ s') = None.
Proof.
  induction s as [|c s IH]; intros pos k x H; cbn [starLazy] in H.
  - destruct (k pos []) eqn:Hk; cbn [orElse] in H; [|discriminate].
    exists [], []. rewrite Nat.add_0_r. repeat split; auto; [congruence|].
    intros w1 w2 E Hne. symmetry in E. apply app_eq_nil in E.
    destruct E; congruence.
  - destruct (k pos (c :: s)) eqn:Hk; cbn [orElse] in H.
    + exists [], (c :: s). rewrite Nat.add_0_r.
      repeat split; auto; [congruence|].
      intros w1 w2 E Hne. symmetry in E. apply app_eq_nil in E.
      destruct E; congruence.
    + destruct (p c) eqn:Hc; [|discriminate].
      destruct (IH _ _ _ H) as (w & s' & -> & Hw & Hk' & Hfirst).
      exists (c :: w), s'. cbn [length forallb app].
      rewrite Hc, Hw, Nat.add_succ_r. repeat split; auto.
      intros w1 w2 E Hne. destruct w1 as [|c1 w1].
      * cbn [app] in E. subst w2. rewrite Nat.add_0_r. exact Hk.
      * cbn [app] in E. inversion E; subst.
        cbn [length]. rewrite Nat.add_succ_r. apply Hfirst; auto.
Qed.

Lemma starGreedy_total (R : Type) p (k : nat -> jsstring -> option R) :
  (forall pos s, k pos s <> None) ->
  forall s pos, starGreedy p pos s k <> None.
Proof.
  intros Hk. induction s as [|c s IH]; intros pos; cbn [starGreedy];
    [apply Hk|].
  destruct (p c); [|apply Hk].
  specialize (IH (S pos)). destruct (starGreedy p (S pos) s k);
    [discriminate|congruence].
Qed.

(** Before a continuation that never fails the greedy star takes all it
    can. *)
Lemma starGreedy_max (R : Type) p (k : nat -> jsstring -> option R) :
  (forall pos s, k pos s <> None) ->
  forall s pos x,
    starGreedy p pos s k = Some x ->
    exists w s',
      s = w ++ s' /\ forallb p w = true /\
      k (pos + length w)%nat s' = Some x /\
      (forall c t, s' = c :: t -> p c = false).
Proof.
  intros Hk. induction s as [|c s IH]; intros pos x H; cbn [starGreedy] in H.
  - exists [], []. rewrite Nat.add_0_r. repeat split; auto. discriminate.
  - destruct (p c) eqn:Hc.
    + pose proof (starGreedy_total R p k Hk s (S pos)) as HT.
      destruct (starGreedy p (S pos) s k) eqn:Hr; [|congruence].
      cbn [orElse] in H. inversion H; subst r. clear H HT.
      destruct (IH _ _ Hr) as (w & s' & -> & Hw & Hk' & Hmax).
      exists (c :: w), s'. cbn [length forallb app].
      rewrite Hc, Hw, Nat.add_succ_r. repeat split; auto.
    + exists [], (c :: s). rewrite Nat.add_0_r. repeat split; auto.
      intros c' t E. inversion E; subst. exact Hc.
Qed.

(** What follows the sender: a colon, all the white space there is, and
    the content up to the first line terminator. *)
Lemma afterSender_shape pos s caps x :
  rmatch (chr 58 ;; ws1 ;; Group 5 (Star isDot))%re pos s caps found = Some x ->
  exists sep cnt rest,
    s = [58] ++ sep ++ cnt ++ rest /\ x = (5%nat, cnt) :: caps /\
    sep <> [] /\ forallb isWhiteSpace sep = true /\
    forallb isDot cnt = true /\
    (forall c t, cnt = c :: t -> isWhiteSpace c = false) /\
    (forall c t, rest = c :: t -> isLineTerminator c = true).
Proof.
  unfold chr, ws1, plus. cbn [rmatch]. intros H.
  destruct s as [|c0 s]; [discriminate|].
  destruct (58 =? c0) eqn:E0; [|discriminate]. apply Z.eqb_eq in E0. subst c0.
  destruct s as [|c1 s]; [discriminate|].
  destruct (isWhiteSpace c1) eqn:E1; [|discriminate].
  apply starGreedy_max in H.
  2:{ intros pos' s'. apply starGreedy_total. discriminate. }
  destruct H as (w & s' & -> & Hw & H & Hmax).
  apply starGreedy_max in H; [|discriminate].
  destruct H as (cnt & rest & -> & Hcnt & H & Hrest).
  exists (c1 :: w), cnt, rest. cbn [app forallb]. rewrite E1, Hw.
  inversion H; subst x. clear H.
  match goal with
  | |- context [firstn ?n (cnt ++ rest)] =>
      replace n with (length cnt) by lia
  end.
  rewrite firstn_app, Nat.sub_diag, firstn_all. cbn [firstn].
  rewrite app_nil_r.
  repeat split; auto; try discriminate.
  - intros c t E. subst cnt. apply (Hmax c (t ++ rest)). reflexivity.
  - intros c t E. specialize (Hrest c t E). unfold isDot in Hrest.
    destruct (isLineTerminator c); [reflexivity|discriminate].
Qed.

Lemma afterSender_accepts pos c t caps :
  isWhiteSpace c = true ->
  rmatch (chr 58 ;; ws1 ;; Group 5 (Star isDot))%re pos (58 :: c :: t) caps found
  <> None.
Proof.
  intros Hc. unfold chr, ws1, plus. cbn [rmatch]. rewrite Z.eqb_refl, Hc.
  apply starGreedy_total. intros pos' s'. apply starGreedy_total.
  discriminate.
Qed.

(** The end of a start line: the sender stops at the first colon that
    white space follows. *)
Lemma startTail_shape pos s caps x :
  rmatch startTail pos s caps found = Some x ->
  exists snd sep cnt rest,
    s = snd ++ [58] ++ sep ++ cnt ++ rest /\
    x = (5%nat, cnt) :: (4%nat, snd) :: caps /\
    forallb isDot snd = true /\
    (forall u c v, snd = u ++ 58 :: c :: v -> isWhiteSpace c = false) /\
    sep <> [] /\ forallb isWhiteSpace sep = true /\
    forallb isDot cnt = true /\
    (forall c t, cnt = c :: t -> isWhiteSpace c = false) /\
    (forall c t, rest = c :: t -> isLineTerminator c = true).
Proof.
  unfold startTail. cbn [rmatch]. intros H.
  apply starLazy_first in H.
  destruct H as (snd & s' & -> & Hsnd & H & Hfirst).
  replace (pos + length snd - pos)%nat with (length snd) in H by lia.
  rewrite firstn_app, Nat.sub_diag, firstn_all in H. cbn [firstn] in H.
  rewrite app_nil_r in H.
  change (rmatch (chr 58 ;; ws1 ;; Group 5 (Star isDot))%re
                 (pos + length snd) s' ((4%nat, snd) :: caps) found = Some x)
    in H.
  apply afterSender_shape in H.
  destruct H as (sep & cnt & rest & -> & -> & Hne & Hsep & Hcnt & Hc & Hr).
  exists snd, sep, cnt, rest. repeat split; auto.
  intros u c v E.
  specialize (Hfirst u (58 :: c :: v) E ltac:(discriminate)).
  destruct (isWhiteSpace c) eqn:Ec; [|reflexivity]. exfalso.
  replace (pos + length u - pos)%nat with (length u) in Hfirst by lia.
  revert Hfirst. cbn [app].
  apply (afterSender_accepts (pos + length u) c
           (v ++ [58] ++ sep ++ cnt ++ rest)). exact Ec.
Qed.

(** A match of the start pattern ends with a match of its tail. *)
Lemma msgStart_tail line m :
  exec msgStartRegex line = Some m ->
  exists head tl pos caps,
    line = head ++ tl /\ rmatch startTail pos tl caps found = Some m.
Proof.
  unfold exec. intros H. apply search_rmatch in H.
  destruct H as (n & _ & H).
  pose proof (firstn_skipn n line) as Hline.
  revert H Hline. generalize (skipn n line) as s, (firstn n line) as h.
  intros s h H Hline. subst line. unfold msgStartRegex in H.
  apply peel in H. destruct H as (w1 & s1 & c1 & -> & _ & H).
  apply peel in H. destruct H as (w2 & s2 & c2 & -> & _ & H).
  apply peel in H. destruct H as (w3 & s3 & c3 & -> & _ & H).
  apply peel in H. destruct H as (w4 & s4 & c4 & -> & _ & H).
  apply peel in H. destruct H as (w5 & s5 & c5 & -> & _ & H).
  apply peel in H. destruct H as (w6 & s6 & c6 & -> & _ & H).
  apply peel in H. destruct H as (w7 & s7 & c7 & -> & _ & H).
  apply peel in H. destruct H as (w8 & s8 & c8 & -> & _ & H).
  apply peel in H. destruct H as (w9 & s9 & c9 & -> & _ & H).
  eexists (h ++ w1 ++ w2 ++ w3 ++ w4 ++ w5 ++ w6 ++ w7 ++ w8 ++ w9),
    s9, _, c9.
  split; [|exact H]. rewrite <- !app_assoc. reflexivity.
Qed.

(** *** Choosing the identity after the parse *)

Ltac streq_cases :=
  repeat match goal with
         | |- context [streq ?a ?b] =>
             let E := fresh "E" in destruct (streq a b) eqn:E
         end;
  repeat match goal with
         | H : streq _ _ = true |- _ => apply streq_eq in H
         | H : streq _ _ = false |- _ => apply streq_neq in H
         end;
  subst; cbn [negb fst snd]; try congruence.

Lemma startMessage_remap name i m :
  name <> [] ->
  startMessage (Some name) i m = remapMessage name (startMessage None i m).
Proof.
  intros Hn. unfold startMessage, remapMessage.
  destruct (dateFields (grp 1 m)) as [[day month] year].
  destruct (timeParts (grp 3 m)) as [[hs ms] ss].
  destruct name as [|c name]; [congruence|]. reflexivity.
Qed.

Lemma mapGet_withoutKey name k : k <> name ->
  forall pm, mapGet (withoutKey name pm) k = mapGet pm k.
Proof.
  intros Hk. induction pm as [|[k' v'] pm IH]; [reflexivity|].
  cbn [withoutKey filter fst mapGet]. fold (withoutKey name pm).
  streq_cases; cbn [mapGet]; streq_cases.
Qed.

Lemma mapSet_withoutKey_same name v : forall pm,
    withoutKey name (mapSet pm name v) = withoutKey name pm.
Proof.
  induction pm as [|[k' v'] pm IH]; cbn [mapSet withoutKey filter fst].
  - rewrite streq_refl. reflexivity.
  - fold (withoutKey name pm).
    destruct (streq k' name) eqn:E; cbn [withoutKey filter fst]; rewrite E;
      cbn [negb]; [reflexivity|].
    fold (withoutKey name (mapSet pm name v)). rewrite IH. reflexivity.
Qed.

Lemma mapMutate_withoutKey_same name f : forall pm,
    withoutKey name (mapMutate pm name f) = withoutKey name pm.
Proof.
  induction pm as [|[k' v'] pm IH]; cbn [mapMutate withoutKey filter fst];
    [reflexivity|].
  fold (withoutKey name pm).
  destruct (streq k' name) eqn:E; cbn [withoutKey filter fst]; rewrite E;
    cbn [negb]; [reflexivity|].
  fold (withoutKey name (mapMutate pm name f)). rewrite IH. reflexivity.
Qed.

Lemma mapSet_withoutKey_other name k v : k <> name ->
  forall pm, withoutKey name (mapSet pm k v) = mapSet (withoutKey name pm) k v.
Proof.
  intros Hk. induction pm as [|[k' v'] pm IH]; cbn [mapSet withoutKey filter fst].
  - apply streq_neq in Hk. rewrite Hk. reflexivity.
  - fold (withoutKey name pm).
    destruct (streq k' k) eqn:E1; destruct (streq k' name) eqn:E2;
      cbn [withoutKey filter fst mapSet]; rewrite ?E1, ?E2; cbn [negb];
      fold (withoutKey name pm); fold (withoutKey name (mapSet pm k v));
      rewrite ?IH; try reflexivity;
      try (cbn [mapSet]; rewrite ?E1; reflexivity).
    apply streq_eq in E1, E2. congruence.
Qed.

Lemma mapMutate_withoutKey_other name k f : k <> name ->
  forall pm,
    withoutKey name (mapMutate pm k f) = mapMutate (withoutKey name pm) k f.
Proof.
  intros Hk. induction pm as [|[k' v'] pm IH];
    cbn [mapMutate withoutKey filter fst]; [reflexivity|].
  fold (withoutKey name pm).
  destruct (streq k' k) eqn:E1; destruct (streq k' name) eqn:E2;
    cbn [withoutKey filter fst mapMutate]; rewrite ?E1, ?E2; cbn [negb];
    fold (withoutKey name pm); fold (withoutKey name (mapMutate pm k f));
    rewrite ?IH; try reflexivity;
    try (cbn [mapMutate]; rewrite ?E1; reflexivity).
  apply streq_eq in E1, E2. congruence.
Qed.

(** Leaving a name out of the map afterwards is the same as never
    letting its messages in. *)
Lemma updateParticipants_remap name pm msg :
  isMe msg = false ->
  updateParticipants (withoutKey name pm) (remapMessage name msg)
  = withoutKey name (updateParticipants pm msg).
Proof.
  intros Hme. unfold updateParticipants, remapMessage.
  cbn [isMe type sender content timestamp]. rewrite Hme. cbn [negb andb].
  destruct (MsgType_eqb (type msg) system); cbn [negb andb];
    [rewrite andb_false_r; reflexivity|].
  rewrite andb_true_r.
  destruct (streq (sender msg) name) eqn:E; cbn [negb].
  - apply streq_eq in E. rewrite E.
    destruct (negb (mapHas pm name)).
    + rewrite mapSet_withoutKey_same. reflexivity.
    + rewrite mapMutate_withoutKey_same. reflexivity.
  - apply streq_neq in E. unfold mapHas.
    rewrite (mapGet_withoutKey name (sender msg) E).
    destruct (mapGet pm (sender msg)); cbn [negb].
    + rewrite mapMutate_withoutKey_other by exact E. reflexivity.
    + rewrite mapSet_withoutKey_other by exact E. reflexivity.
Qed.

Lemma pushCurrent_remap name msgs cur :
  pushCurrent (map (remapMessage name) msgs)
              (option_map (remapMessage name) cur)
  = map (remapMessage name) (pushCurrent msgs cur).
Proof.
  destruct cur; cbn [pushCurrent option_map]; [|reflexivity].
  rewrite map_app. reflexivity.
Qed.

(** One iteration with the name known is one iteration without it,
    seen through the later choice. *)
Lemma step_remap name st i l :
  name <> [] ->
  step (Some name) (remapState name st) i l
  = remapState name (step None st i l).
Proof.
  intros Hn. rewrite !step_unfold.
  destruct (Spec.clean l) as [|c line]; [reflexivity|].
  destruct (exec msgStartRegex (c :: line)) as [m|].
  - unfold remapState.
    cbn [st_messages participantsMap sendersSet currentMessage option_map].
    unfold finish.
    cbn [st_messages participantsMap sendersSet currentMessage option_map].
    rewrite (startMessage_remap name i m Hn), pushCurrent_remap.
    rewrite updateParticipants_remap
      by (rewrite startMessage_isMe; reflexivity).
    reflexivity.
  - destruct st as [msgs pm ss [cur|]]; reflexivity.
Qed.

Lemma loop_remap name : name <> [] ->
  forall lines st i,
    loop (Some name) (remapState name st) i lines
    = remapState name (loop None st i lines).
Proof.
  intros Hn. induction lines as [|l ls IH]; intros st i; cbn [loop];
    [reflexivity|].
  rewrite (step_remap name st i l Hn). apply IH.
Qed.

Lemma withoutKey_values n : forall pm,
    (forall k v, In (k, v) pm -> name v = k) ->
    mapValues (withoutKey n pm)
    = filter (fun p => negb (streq (name p) n)) (mapValues pm).
Proof.
  induction pm as [|[k v] pm IH]; intros H; [reflexivity|].
  cbn [withoutKey filter fst mapValues map snd].
  fold (withoutKey n pm). fold (mapValues pm).
  rewrite (H k v) by (left; reflexivity).
  rewrite <- IH by (intros k' v' Hin; apply H; right; exact Hin).
  destruct (negb (streq k n)); reflexivity.
Qed.

(** Before a list that is in order, an element that need not pass its
    head stays in front. *)
Lemma insertSorted_front x l :
  match l with
  | [] => True
  | y :: _ => comesAfter byRecency x y = false
  end ->
  insertSorted byRecency x l = x :: l.
Proof. destruct l as [|y l]; cbn [insertSorted]; [reflexivity|]. intros ->. reflexivity. Qed.

Lemma insertSorted_filter q x : forall l,
    newestFirst l ->
    filter q (insertSorted byRecency x l)
    = if q x then insertSorted byRecency x (filter q l) else filter q l.
Proof.
  unfold newestFirst. intros l HS.
  induction HS as [|y l HS IH HF]; cbn [insertSorted filter].
  - destruct (q x); reflexivity.
  - destruct (comesAfter byRecency x y) eqn:Ec; cbn [filter].
    + rewrite IH. destruct (q y), (q x); cbn [insertSorted]; rewrite ?Ec;
        reflexivity.
    + destruct (q x); [|reflexivity]. symmetry. apply insertSorted_front.
      destruct (q y); [exact Ec|].
      destruct (filter q l) as [|z fl] eqn:Ef; [exact I|].
      assert (Hz : In z l).
      { apply (proj1 (filter_In q z l)). rewrite Ef. left. reflexivity. }
      rewrite Forall_forall in HF. specialize (HF z Hz).
      revert Ec. unfold comesAfter, byRecency, sub.
      destruct (getTime (lastMessageDate x)) as [tx|];
        destruct (getTime (lastMessageDate y)) as [ty|];
        destruct (getTime (lastMessageDate z)) as [tz|];
        try contradiction; try reflexivity.
      rewrite !Z.ltb_ge. lia.
Qed.

(** Filtering commutes with the sort by recency. *)
Lemma sort_filter q : forall l,
    (forall p, In p l -> getTime (lastMessageDate p) <> None) ->
    filter q (sort byRecency l) = sort byRecency (filter q l).
Proof.
  induction l as [|x l IH]; intros H; [reflexivity|].
  cbn [sort fold_right filter]. fold (sort byRecency l).
  rewrite insertSorted_filter
    by (apply sort_newestFirst; intros p Hp; apply H; right; exact Hp).
  rewrite IH by (intros p Hp; apply H; right; exact Hp).
  destruct (q x); reflexivity.
Qed.

(** Re-mapping the parse made without a name gives the parse made with
    the name. *)
Lemma remapChatData_parse :
  forall (JSZip : Type) text (zipFile : option JSZip) name,
    name <> [] ->
    (forall msg, In msg (messages (parseChatFile text zipFile None)) ->
                 getTime (timestamp msg) <> None) ->
    remapChatData name (parseChatFile text zipFile None)
    = parseChatFile text zipFile (Some name).
Proof.
  intros JSZip text zipFile name Hn Hvalid.
  assert (Hp : forall p,
             In p (mapValues (participantsMap
                                (loop None initState 0 (split 10 text)))) ->
             getTime (lastMessageDate p) <> None).
  { intros p Hp.
    destruct (participant_dates JSZip text zipFile None p) as (msg & Hin & E).
    - change (In p (sort byRecency
                      (mapValues (participantsMap
                                    (loop None initState 0 (split 10 text)))))).
      apply (Permutation_in p (Permutation_sym (sort_perm byRecency _))).
      exact Hp.
    - rewrite E. apply Hvalid. exact Hin. }
  pose proof (loop_remap name Hn (split 10 text) initState 0) as HL.
  change (remapState name initState) with initState in HL.
  pose proof (loop_Inv None (split 10 text)) as HI. cbv zeta in HI.
  unfold remapChatData, parseChatFile. cbv zeta.
  cbn [messages participants allSenders Parser.zipFile].
  rewrite HL. unfold remapState.
  cbn [st_messages participantsMap sendersSet currentMessage].
  rewrite pushCurrent_remap.
  rewrite withoutKey_values by (apply (inv_name HI)).
  rewrite sort_filter by exact Hp.
  reflexivity.
Qed.

(** *** Line endings *)

Lemma dropWhile_app p : forall s t,
    dropWhile p (s ++ t)
    = match dropWhile p s with
      | [] => dropWhile p t
      | c :: r => (c :: r) ++ t
      end.
Proof.
  induction s as [|c s IH]; intros t; cbn [dropWhile app].
  - destruct (dropWhile p t); reflexivity.
  - destruct (p c); [apply IH|reflexivity].
Qed.

(** Trimming takes a carriage return at the end away. *)
Lemma trim_CR s : trim (s ++ [13]) = trim s.
Proof.
  unfold trim. rewrite dropWhile_app.
  destruct (dropWhile isWhiteSpace s) as [|c r]; [reflexivity|].
  rewrite rev_app_distr. reflexivity.
Qed.

Lemma clean_CR l : Spec.clean (l ++ [13]) = Spec.clean l.
Proof.
  unfold Spec.clean, stripBidi. rewrite filter_app. cbn [filter].
  change (negb (isBidiMark 13)) with true. cbv iota. apply trim_CR.
Qed.

(** The lines of a text with carriage returns are the lines of the
    text, some with a carriage return at the end. *)
Lemma split_withCR : forall s,
    Forall2 (fun a b => a = b \/ a = b ++ [13])
            (split 10 (withCR s)) (split 10 s).
Proof.
  induction s as [|c t IH].
  - repeat constructor.
  - unfold withCR. cbn [flat_map]. fold (withCR t).
    destruct (c =? 10) eqn:Ec.
    + cbn [app split]. change (13 =? 10) with false. cbv iota.
      rewrite Ec. change (10 =? 10) with true. cbv iota.
      constructor; [|exact IH]. right. reflexivity.
    + cbn [app split]. rewrite Ec.
      inversion IH as [|l1 l2 ls1 ls2 Hl Hls]; subst.
      * repeat constructor.
      * constructor; [|exact Hls].
        destruct Hl as [-> | ->]; [left|right]; reflexivity.
Qed.

(** An iteration reads the line through [trim] and the removal of the
    direction marks only. *)
Lemma step_clean myName st i l1 l2 :
  Spec.clean l1 = Spec.clean l2 ->
  step myName st i l1 = step myName st i l2.
Proof. intros E. rewrite !step_unfold, E. reflexivity. Qed.

Lemma loop_clean myName : forall ls1 ls2,
    Forall2 (fun a b => Spec.clean a = Spec.clean b) ls1 ls2 ->
    forall st i, loop myName st i ls1 = loop myName st i ls2.
Proof.
  induction 1 as [|l1 l2 ls1 ls2 E _ IH]; intros st i; cbn [loop];
    [reflexivity|].
  rewrite (step_clean myName st i l1 l2 E). apply IH.
Qed.

(** *** Search navigation *)

Lemma matchesFrom_spec lower lowerTerm : forall msgs index m,
    In m (matchesFrom lower index lowerTerm msgs) ->
    index <= m /\
    exists msg,
      nth_error msgs (Z.to_nat (m - index)) = Some msg /\
      content msg <> [] /\
      includes (lower (content msg)) lowerTerm = true.
Proof.
  induction msgs as [|msg rest IH]; intros index m H;
    cbn [matchesFrom] in H; [contradiction|].
  assert (Hrest : In m (matchesFrom lower (index + 1) lowerTerm rest) ->
                  index <= m /\
                  exists msg0,
                    nth_error (msg :: rest) (Z.to_nat (m - index)) = Some msg0 /\
                    content msg0 <> [] /\
                    includes (lower (content msg0)) lowerTerm = true).
  { intros Hin. destruct (IH _ _ Hin) as (Hle & msg0 & Hn & Hc & Hi).
    split; [lia|]. exists msg0.
    replace (Z.to_nat (m - index)) with (S (Z.to_nat (m - (index + 1))))
      by lia.
    cbn [nth_error]. auto. }
  destruct (content msg) as [|c0 cs] eqn:Ec; [auto|].
  destruct (includes (lower (c0 :: cs)) lowerTerm) eqn:Ei; [|auto].
  destruct H as [<- | H]; [|auto].
  split; [lia|]. exists msg. rewrite Z.sub_diag. cbn [Z.to_nat nth_error].
  rewrite Ec. repeat split; [discriminate|exact Ei].
Qed.

Lemma rem_wrap a n :
  0 <= a < 2 * n -> Z.rem a n = if a <? n then a else a - n.
Proof.
  intros H. destruct (Z.ltb_spec a n).
  - apply Z.rem_small. lia.
  - symmetry. apply (Z.rem_unique a n 1); lia.
Qed.

(** What the search effect and the arrows keep. *)
Lemma searchRun_inv lower term msgs st :
  searchRun lower term msgs st ->
  searchMatches st = searchMatches (searchEffect lower term msgs) /\
  (searchMatches st = [] /\ currentMatchIndex st = -1 \/
   0 <= currentMatchIndex st < Z.of_nat (length (searchMatches st))).
Proof.
  induction 1 as [|st _ [IHm IHi]|st _ [IHm IHi]].
  - split; [reflexivity|]. unfold searchEffect.
    destruct (Nat.ltb (length term) 2); [left; split; reflexivity|].
    destruct (matchesFrom lower 0 (lower term) msgs);
      [left; split; reflexivity|].
    right. cbn [searchMatches currentMatchIndex length]. lia.
  - unfold handleNextMatch.
    destruct (searchMatches st) as [|m ms] eqn:Em; [rewrite Em; auto|].
    cbn [searchMatches currentMatchIndex]. split; [exact IHm|].
    right. destruct IHi as [[? _] | IHi]; [discriminate|].
    rewrite rem_wrap by lia.
    destruct (Z.ltb_spec (currentMatchIndex st + 1)
                         (Z.of_nat (length (m :: ms)))); lia.
  - unfold handlePrevMatch.
    destruct (searchMatches st) as [|m ms] eqn:Em; [rewrite Em; auto|].
    cbn [searchMatches currentMatchIndex]. split; [exact IHm|].
    right. destruct IHi as [[? _] | IHi]; [discriminate|].
    rewrite rem_wrap by lia.
    destruct (Z.ltb_spec (currentMatchIndex st - 1
                          + Z.of_nat (length (m :: ms)))
                         (Z.of_nat (length (m :: ms)))); lia.
Qed.

Lemma searchEffect_hits lower term msgs m :
  In m (searchMatches (searchEffect lower term msgs)) ->
  (2 <= length term)%nat /\
  0 <= m /\
  exists msg,
    nth_error msgs (Z.to_nat m) = Some msg /\
    content msg <> [] /\
    includes (lower (content msg)) (lower term) = true.
Proof.
  unfold searchEffect. destruct (Nat.ltb_spec (length term) 2);
    [intros []|].
  intros Hin.
  assert (Hin' : In m (matchesFrom lower 0 (lower term) msgs))
    by (destruct (matchesFrom lower 0 (lower term) msgs); exact Hin).
  apply matchesFrom_spec in Hin'. destruct Hin' as (H0 & msg & Hn & Hc & Hi).
  rewrite Z.sub_0_r in Hn. split; [lia|]. split; [exact H0|].
  exists msg. auto.
Qed.

Lemma arrows_round_trip st :
  (searchMatches st = [] /\ currentMatchIndex st = -1 \/
   0 <= currentMatchIndex st < Z.of_nat (length (searchMatches st))) ->
  handlePrevMatch (handleNextMatch st) = st /\
  handleNextMatch (handlePrevMatch st) = st.
Proof.
  destruct st as [ms i]. cbn [searchMatches currentMatchIndex].
  intros [[-> ->] | Hi]; [split; reflexivity|].
  unfold handlePrevMatch, handleNextMatch.
  destruct ms as [|m ms]; [split; reflexivity|].
  cbn [searchMatches currentMatchIndex].
  set (n := Z.of_nat (length (m :: ms))) in *.
  split; f_equal.
  - rewrite (rem_wrap (i + 1) n) by lia.
    destruct (Z.ltb_spec (i + 1) n); rewrite rem_wrap by lia.
    + destruct (Z.ltb_spec (i + 1 - 1 + n) n); lia.
    + destruct (Z.ltb_spec (i + 1 - n - 1 + n) n); lia.
  - rewrite (rem_wrap (i - 1 + n) n) by lia.
    destruct (Z.ltb_spec (i - 1 + n) n); rewrite rem_wrap by lia.
    + destruct (Z.ltb_spec (i - 1 + n + 1) n); lia.
    + destruct (Z.ltb_spec (i - 1 + n - n + 1) n); lia.
Qed.

(** *** The header of the chat *)

(** The participants of a parse, by name. *)
Lemma participants_names (JSZip : Type) text (zipFile : option JSZip) myName :
  let result := parseChatFile text zipFile myName in
  NoDup (map name (participants result)) /\
  (forall n,
      In n (map name (participants result)) <->
      exists msg, In msg (messages result) /\ sender msg = n /\
                  qualifies msg = true) /\
  (forall p, In p (participants result) ->
             avatarColor p = getRandomColor (name p)).
Proof.
  intros result.
  pose proof (loop_Inv myName (split 10 text)) as HI. cbv zeta in HI.
  set (st := loop myName initState 0 (split 10 text)) in *.
  assert (Em : messages result = finish st) by reflexivity.
  assert (Ep : participants result
               = sort byRecency (mapValues (participantsMap st)))
    by reflexivity.
  pose proof (sort_perm byRecency (mapValues (participantsMap st))) as HP.
  rewrite <- Ep in HP.
  pose proof (Permutation_map name HP) as HPn.
  rewrite (Inv_names HI) in HPn.
  split; [|split].
  - apply (Permutation_NoDup (Permutation_sym HPn)). apply (inv_nodup HI).
  - intros n. rewrite Em. split.
    + intros Hn. apply (Permutation_in n HPn) in Hn.
      apply (inv_keys HI) in Hn. exact Hn.
    + intros Hn. apply (Permutation_in n (Permutation_sym HPn)).
      apply (inv_keys HI). exact Hn.
  - intros p Hp. apply (Permutation_in p HP) in Hp.
    unfold mapValues in Hp. apply in_map_iff in Hp.
    destruct Hp as ([k v] & E & Hin). simpl in E. subst v.
    rewrite (inv_name HI _ _ Hin). apply (inv_color HI _ _ Hin).
Qed.

Lemma filter_idem (A : Type) (f : A -> bool) : forall l,
    filter f (filter f l) = filter f l.
Proof.
  induction l as [|x l IH]; [reflexivity|]. cbn [filter].
  destruct (f x) eqn:E; cbn [filter]; rewrite ?E, IH; reflexivity.
Qed.

Lemma NoDup_map_filter (A B : Type) (g : A -> B) (f : A -> bool) : forall l,
    NoDup (map g l) -> NoDup (map g (filter f l)).
Proof.
  induction l as [|x l IH]; intros H; [constructor|].
  cbn [map] in H. inversion H as [|y ys Hnin Hnd]; subst.
  cbn [filter]. destruct (f x); [|apply IH; exact Hnd].
  cbn [map]. constructor; [|apply IH; exact Hnd].
  intros Hin. apply Hnin. apply in_map_iff in Hin.
  destruct Hin as (z & Ez & Hz). apply filter_In in Hz.
  apply in_map_iff. exists z. tauto.
Qed.

(** A list without two elements of the same name, all of one name. *)
Lemma one_name (A B : Type) (g : A -> B) c l :
  NoDup (map g l) -> (forall x, In x l -> g x = c) -> l <> [] ->
  exists p, l = [p] /\ g p = c.
Proof.
  intros Hnd Hall Hne. destruct l as [|p [|q l]]; [congruence| |].
  - exists p. split; [reflexivity|]. apply Hall. left. reflexivity.
  - exfalso. cbn [map] in Hnd. inversion Hnd as [|y ys Hnin _]; subst.
    apply Hnin. left.
    rewrite (Hall p), (Hall q); cbn [In]; auto.
Qed.

(** *** System notices *)

Lemma startsWith_inv : forall p s,
    startsWith p s = true -> exists b, s = p ++ b.
Proof.
  induction p as [|x p IH]; intros s H; [exists s; reflexivity|].
  destruct s as [|y s]; cbn [startsWith] in H; [discriminate|].
  apply andb_true_iff in H. destruct H as [Hx H]. apply Z.eqb_eq in Hx.
  subst y. destruct (IH _ H) as (b & ->). exists b. reflexivity.
Qed.

Lemma includes_inv : forall s p,
    includes s p = true -> exists a b, s = a ++ p ++ b.
Proof.
  induction s as [|c s IH]; intros p H; cbn [includes] in H;
    apply orb_true_iff in H; destruct H as [H | H]; try discriminate.
  - apply startsWith_inv in H. destruct H as (b & ->). exists [], b.
    reflexivity.
  - apply startsWith_inv in H. destruct H as (b & ->). exists [], b.
    reflexivity.
  - destruct (IH _ H) as (a & b & ->). exists (c :: a), b. reflexivity.
Qed.

Lemma includes_app_r s t p :
  includes s p = true -> includes (s ++ t) p = true.
Proof.
  intros H. destruct (includes_inv _ _ H) as (a & b & ->).
  rewrite <- !app_assoc. apply includes_here.
Qed.

Lemma includes_trans s p q :
  includes s p = true -> includes p q = true -> includes s q = true.
Proof.
  intros H1 H2. destruct (includes_inv _ _ H1) as (a & b & ->).
  destruct (includes_inv _ _ H2) as (a' & b' & ->).
  replace (a ++ (a' ++ q ++ b') ++ b) with ((a ++ a') ++ q ++ (b' ++ b))
    by (rewrite <- !app_assoc; reflexivity).
  apply includes_here.
Qed.

Lemma appendLines_prefix : forall ls c, exists t, Spec.appendLines c ls = c ++ t.
Proof.
  unfold Spec.appendLines.
  induction ls as [|l ls IH]; intros c; cbn [fold_left].
  - exists []. rewrite app_nil_r. reflexivity.
  - destruct (IH (c ++ [10] ++ l)) as (t & ->). exists (([10] ++ l) ++ t).
    rewrite <- !app_assoc. reflexivity.
Qed.

(** A phrase found on the first line is found in the whole content. *)
Lemma includes_extended c ls p :
  includes (toLowerCase c) p = true ->
  includes (toLowerCase (Spec.appendLines c ls)) p = true.
Proof.
  intros H. destruct (appendLines_prefix ls c) as (t & ->).
  unfold toLowerCase. rewrite flat_map_app. apply includes_app_r. exact H.
Qed.

Lemma finalType_system type0 att :
  finalType type0 att = system -> type0 = system.
Proof.
  unfold finalType. destruct att as [[|c f]|]; auto.
  destruct (arrIncludes _ _); [discriminate|].
  destruct (arrIncludes _ _); [discriminate|].
  destruct (arrIncludes _ _); [discriminate|]. auto.
Qed.

Lemma phraseType_system c :
  phraseType c = system ->
  includes (toLowerCase c) phraseSecurity = true \/
  includes (toLowerCase c) (lit "arama") = true.
Proof.
  unfold phraseType. cbv zeta.
  destruct (includes (toLowerCase c) phraseNoImage); [discriminate|].
  destruct (includes (toLowerCase c) phraseNoAudio); [discriminate|].
  destruct (includes (toLowerCase c) phraseSecurity); [auto|].
  destruct (includes (toLowerCase c) phraseVideoCall) eqn:Ev.
  - intros _. right. apply (includes_trans _ _ _ Ev). reflexivity.
  - destruct (includes (toLowerCase c) phraseVoiceCall) eqn:Eo;
      [|discriminate].
    intros _. right. apply (includes_trans _ _ _ Eo). reflexivity.
Qed.

(** Every message of the result is the message of a start line with
    continuation lines appended. *)
Lemma blocksFrom_In myName msg : forall lines i,
    In msg (blocksFrom myName i lines) ->
    exists j m conts, msg = extend (startMessage myName j m) conts.
Proof.
  induction lines as [|l ls IH]; intros i H; cbn [blocksFrom] in H;
    [contradiction|].
  destruct (Spec.clean l) as [|c0 l0]; [apply (IH _ H)|].
  destruct (exec msgStartRegex (c0 :: l0)) as [m|]; [|apply (IH _ H)].
  destruct H as [<- | H]; [|apply (IH _ H)].
  eexists i, m, _. reflexivity.
Qed.

(** *** The displayed date *)

Lemma startMessage_rawDate myName i m :
  rawDate (startMessage myName i m)
  = grp 1 m ++ lit " " ++ showNum (hoursOf m) ++ lit ":"
    ++ (let '(_, minutesStr, _) := timeParts (grp 3 m) in minutesStr).
Proof.
  unfold startMessage, hoursOf.
  destruct (dateFields (grp 1 m)) as [[day month] year].
  destruct (timeParts (grp 3 m)) as [[hs ms] ss]. reflexivity.
Qed.

(** Below 200 a printed number starts with the digit 0 only when it
    is 0. *)
Lemma showInt_small h :
  0 <= h < 200 -> forall t, showInt h = 48 :: t -> t = [].
Proof.
  intros Hh.
  assert (Hall : forallb (fun k => match showInt (Z.of_nat k) with
                                   | 48 :: _ :: _ => false
                                   | _ => true
                                   end) (seq 0 200) = true)
    by (vm_compute; reflexivity).
  rewrite forallb_forall in Hall.
  specialize (Hall (Z.to_nat h)). rewrite Z2Nat.id in Hall by lia.
  intros t Et. rewrite Et in Hall.
  destruct t; [reflexivity|]. discriminate Hall. apply in_seq. lia.
Qed.

(** *** Transcripts put one after the other *)

Lemma continuationRun_app b :
  Spec.continuationRun b = [] ->
  forall a, Spec.continuationRun (a ++ b) = Spec.continuationRun a.
Proof.
  intros Hb. induction a as [|l a IH]; cbn [app Spec.continuationRun];
    [exact Hb|].
  destruct (Spec.isStart l); [reflexivity|]. rewrite IH. reflexivity.
Qed.

Lemma nonBlank_app a b :
  Spec.nonBlank (a ++ b) = Spec.nonBlank a ++ Spec.nonBlank b.
Proof. unfold Spec.nonBlank. rewrite map_app, filter_app. reflexivity. Qed.

(** Lines that start with a message leave the messages before them as
    they are. *)
Lemma blocksFrom_app myName l2 :
  Spec.continuationRun (Spec.nonBlank l2) = [] ->
  forall l1 i,
    blocksFrom myName i (l1 ++ l2)
    = blocksFrom myName i l1 ++ blocksFrom myName (i + length l1) l2.
Proof.
  intros H2. induction l1 as [|l l1 IH]; intros i; cbn [app blocksFrom length].
  - rewrite Nat.add_0_r. reflexivity.
  - rewrite IH, <- Nat.add_succ_comm.
    destruct (Spec.clean l) as [|c0 l0]; [reflexivity|].
    destruct (exec msgStartRegex (c0 :: l0)) as [m|]; [|reflexivity].
    rewrite nonBlank_app, (continuationRun_app _ H2). reflexivity.
Qed.

(** The index of a line reaches the identifier alone. *)
Lemma blocksFrom_exceptId myName : forall ls i j,
    map exceptId (blocksFrom myName i ls)
    = map exceptId (blocksFrom myName j ls).
Proof.
  induction ls as [|l ls IH]; intros i j; cbn [blocksFrom]; [reflexivity|].
  destruct (Spec.clean l) as [|c0 l0]; [apply IH|].
  destruct (exec msgStartRegex (c0 :: l0)) as [m|]; [|apply IH].
  cbn [map]. rewrite (IH (S i) (S j)). f_equal.
  unfold exceptId, extend, startMessage.
  destruct (dateFields (grp 1 m)) as [[day month] year].
  destruct (timeParts (grp 3 m)) as [[hs ms] ss]. reflexivity.
Qed.

End MoreFacts.

(* ================================================================== *)
(** ** Further properties of the parser and of the application         *)
(* ================================================================== *)

Module Extras.
Import JS Regex Num Parser Sem Views Shapes App.
Import RegexFacts StringFacts ParserFacts MapFacts LoopFacts MoreFacts.
Open Scope Z_scope.
Local Unset Implicit Arguments.

(** X1.  The messages of a parse are, in input order, one per start
    line: the message built from that line and its index alone, with
    only the content extended by the continuation lines that follow.
    Continuation lines therefore never change the type, the attachment,
    the sender or the timestamp of a message. *)
Theorem X1_messages_line_by_line :
  forall (JSZip : Type) text (zipFile : option JSZip) myName,
    messages (parseChatFile text zipFile myName)
    = blocksFrom myName 0 (split 10 text).
Proof.
  intros JSZip text zipFile myName.
  rewrite parseChatFile_messages, loop_blocks. reflexivity.
Qed.

(** X2.  The identifiers of the messages are "msg-" followed by the
    decimal index of the start line among the lines of the text; the
    indices increase, the identifiers are pairwise distinct, and the
    index reads back from the identifier. *)
Theorem X2_ids_unique :
  forall (JSZip : Type) text (zipFile : option JSZip) myName,
    let result := parseChatFile text zipFile myName in
    let indices := startIndices 0 (split 10 text) in
    map id (messages result) = map idOf indices /\
    StronglySorted Nat.lt indices /\
    NoDup (map id (messages result)) /\
    (forall i, parseInt (skipn 4 (idOf i)) = Some (Z.of_nat i)).
Proof.
  intros JSZip text zipFile myName result indices.
  assert (E : map id (messages result) = map idOf indices).
  { unfold result. rewrite parseChatFile_messages, loop_blocks.
    cbn [initState st_messages currentMessage app].
    apply blocksFrom_ids. }
  pose proof (startIndices_increasing (split 10 text) 0%nat) as HS.
  split; [exact E|]. split; [exact HS|]. split.
  - rewrite E. apply map_NoDup_inj; [exact idOf_inj|].
    apply increasing_NoDup. exact HS.
  - intros i. unfold idOf. change (skipn 4 (lit "msg-" ++ ?x)) with x.
    destruct (showInt_roundtrip (Z.of_nat i) ltac:(lia)) as (D & N & R).
    rewrite (parseInt_digits D N), R. reflexivity.
Qed.

(** X3.  [allSenders] lists the senders of the messages in the order of
    their first message, each once, self and system senders included;
    every participant name is among them. *)
Theorem X3_all_senders :
  forall (JSZip : Type) text (zipFile : option JSZip) myName,
    let result := parseChatFile text zipFile myName in
    allSenders result = firstSeen (map sender (messages result)) /\
    NoDup (allSenders result) /\
    (forall n, In n (allSenders result) <->
               exists msg, In msg (messages result) /\ sender msg = n) /\
    (forall p, In p (participants result) ->
               In (name p) (allSenders result)).
Proof.
  intros JSZip text zipFile myName result.
  pose proof (loop_senders myName (split 10 text)) as HS. cbv zeta in HS.
  pose proof (loop_Inv myName (split 10 text)) as HI. cbv zeta in HI.
  set (st := loop myName initState 0 (split 10 text)) in *.
  assert (Ea : allSenders result = sendersSet st) by reflexivity.
  assert (Em : messages result = finish st) by reflexivity.
  assert (Hmem : forall n, In n (allSenders result) <->
                           exists msg, In msg (messages result)
                                       /\ sender msg = n).
  { intros n. rewrite Ea, HS, Em. unfold firstSeen.
    rewrite fold_setAdd_In, in_map_iff. simpl. split.
    - intros [[]|(msg & E & Hin)]. exists msg. auto.
    - intros (msg & Hin & E). right. exists msg. auto. }
  split; [rewrite Ea, HS, Em; reflexivity|]. split; [|split].
  - rewrite Ea, HS. apply fold_setAdd_NoDup. constructor.
  - exact Hmem.
  - intros p Hp. apply Hmem.
    assert (Ep : participants result
                 = sort byRecency (mapValues (participantsMap st)))
      by reflexivity.
    rewrite Ep in Hp.
    apply (Permutation_in p (sort_perm byRecency _)) in Hp.
    unfold mapValues in Hp. apply in_map_iff in Hp.
    destruct Hp as ([k v] & E & Hin). simpl in E. subst v.
    rewrite (inv_name HI _ _ Hin).
    apply In_keys in Hin. apply (inv_keys HI) in Hin.
    destruct Hin as (msg & Hin & Hs & _). exists msg. rewrite Em. auto.
Qed.

Lemma X3_all_senders_witness :
  In (lit "Alice")
     (allSenders (parseChatFile (lit "[28.11.2024 14:05:00] Alice: Hello")
                                (@None unit) None)).
Proof.
  apply (proj2 (proj2 (proj2
           (X3_all_senders unit (lit "[28.11.2024 14:05:00] Alice: Hello")
                           None None)))
           (mkParticipant (lit "Alice") (lit "Hello")
                          (mkDate (Some 1732802700000))
                          (lit "bg-green-500"))).
  left. vm_compute. reflexivity.
Defined.

(** X4.  A parse returns no message exactly when no non-blank cleaned
    line of the text matches the start pattern, and [allSenders] is
    empty exactly then; the participants are empty as well. *)
Theorem X4_empty_result :
  forall (JSZip : Type) text (zipFile : option JSZip) myName,
    let result := parseChatFile text zipFile myName in
    (messages result = [] <->
     filter Spec.isStart (Spec.nonBlankLines text) = []) /\
    (allSenders result = [] <-> messages result = []) /\
    (messages result = [] -> participants result = []).
Proof.
  intros JSZip text zipFile myName. apply parse_empty.
Qed.

Lemma X4_empty_result_witness :
  participants (parseChatFile (lit "no header here") (@None unit) None) = [].
Proof.
  apply (proj2 (proj2 (X4_empty_result unit (lit "no header here")
                                       None None))).
  vm_compute. reflexivity.
Defined.

(** X5.  Once the text of an upload is at hand, the application stores
    the "no speaker found" error, and keeps step and chat data as they
    were, exactly when no line of the text matches the start pattern;
    otherwise it stores the parse made without self identity, offers
    its non-empty [allSenders] as the possible owners and moves to the
    identity selection without error.  Loading ends either way. *)
Theorem X5_upload_outcome :
  forall (JSZip : Type) (st : AppState JSZip) text (zipInstance : option JSZip),
    let st' := processText st text zipInstance in
    let data := parseChatFile text zipInstance None in
    loading st' = false /\
    (filter Spec.isStart (Spec.nonBlankLines text) = [] ->
     error st' = Some noSpeakerError /\ app_step st' = app_step st /\
     chatData st' = chatData st /\ potentialOwners st' = potentialOwners st) /\
    (filter Spec.isStart (Spec.nonBlankLines text) <> [] ->
     error st' = None /\ app_step st' = SELECT_IDENTITY /\
     chatData st' = Some data /\ potentialOwners st' = allSenders data /\
     potentialOwners st' <> []).
Proof.
  intros JSZip st text zipInstance st' data.
  destruct (parse_empty JSZip text zipInstance None) as (H1 & H2 & _).
  fold data in H1, H2. unfold st', processText. fold data.
  destruct (allSenders data) as [|n ns] eqn:Ea; cbn [length Nat.eqb].
  - split; [reflexivity|]. split.
    + intros _. repeat split.
    + intros Hne. exfalso. apply Hne, H1, H2. reflexivity.
  - split; [reflexivity|]. split.
    + intros E. apply H1, H2 in E. discriminate.
    + intros _. cbn [error app_step chatData potentialOwners].
      repeat split. discriminate.
Qed.

Lemma X5_upload_outcome_witness :
  let st := @mkAppState unit UPLOAD None true None [] [] in
  let st' := processText st (lit "no header here") None in
  error st' = Some noSpeakerError /\ app_step st' = app_step st /\
  chatData st' = chatData st /\ potentialOwners st' = potentialOwners st.
Proof.
  apply (proj1 (proj2 (X5_upload_outcome unit
                         (@mkAppState unit UPLOAD None true None [] [])
                         (lit "no header here") None))).
  vm_compute. reflexivity.
Defined.

(** X6.  The timestamp of a start line is an invalid date exactly when
    the two separators of its date token differ (a dot and a slash in
    either order).  With two dots or two slashes the date is valid,
    whatever the digits are. *)
Theorem X6_timestamp_validity :
  forall myName i line m,
    exec msgStartRegex line = Some m ->
    exists a s1 b s2 c,
      group 1 m = Some (a ++ [s1] ++ b ++ [s2] ++ c) /\
      dateToken a s1 b s2 c /\
      (getTime (timestamp (startMessage myName i m)) = None <-> s1 <> s2).
Proof.
  intros myName i line m H.
  destruct (@msgStart_groups line m H)
    as (a & s1 & b & s2 & c & hh & mm & ss & snd & cnt
        & G1 & Hd & _ & G3 & Ht & _ & _ & _ & _).
  exists a, s1, b, s2, c. split; [exact G1|]. split; [exact Hd|].
  destruct (timeFields_of_token m hh mm ss G3 Ht)
    as (Eh & Em & Es & Bh & Bm & Bs).
  destruct Hd as (Da & La & S1 & Db & Lb & S2 & Dc & Lc).
  assert (Na : a <> []) by (apply len_nonempty; lia).
  assert (Nb : b <> []) by (apply len_nonempty; lia).
  assert (Nc : c <> []) by (apply len_nonempty; lia).
  pose proof (decimal_upto a 2 Da ltac:(lia)) as Ba.
  pose proof (decimal_upto b 2 Db ltac:(lia)) as Bb.
  pose proof (decimal_upto c 4 Dc ltac:(lia)) as Bc.
  change (10 ^ Z.of_nat 2) with 100 in *.
  change (10 ^ Z.of_nat 4) with 10000 in *.
  assert (Bw : 100 <= Spec.windowYear (decimal c) < 10000).
  { unfold Spec.windowYear. destruct (Z.ltb_spec (decimal c) 100); lia. }
  rewrite startMessage_timestamp, Eh, Em, Es. unfold grp. rewrite G1.
  apply isDateSep_cases in S1. apply isDateSep_cases in S2.
  destruct S1 as [-> | ->], S2 as [-> | ->].
  - rewrite dateFields_dots by assumption.
    rewrite Claims.fullYearOf_window. cbn [sub].
    split; [|congruence]. intros E. exfalso.
    revert E. apply newDate_valid; lia.
  - destruct (dateFields_mixed a 46 b 47 c Da Db Dc Na Nb Nc)
      as (day & month & E & _); [left; auto|].
    rewrite E. split; [intros _; lia|]. intros _. reflexivity.
  - destruct (dateFields_mixed a 47 b 46 c Da Db Dc Na Nb Nc)
      as (day & month & E & _); [right; auto|].
    rewrite E. split; [intros _; lia|]. intros _. reflexivity.
  - rewrite dateFields_slashes by assumption.
    rewrite Claims.fullYearOf_window. cbn [sub].
    split; [|congruence]. intros E. exfalso.
    revert E. apply newDate_valid; lia.
Qed.

Lemma X6_timestamp_validity_witness :
  let m := capturesOf (lit "[28/11.2024 14:05:00] Alice: Hello") in
  exists a s1 b s2 c,
    group 1 m = Some (a ++ [s1] ++ b ++ [s2] ++ c) /\
    dateToken a s1 b s2 c /\
    (getTime (timestamp (startMessage None 0 m)) = None <-> s1 <> s2).
Proof.
  exact (X6_timestamp_validity None 0%nat
           (lit "[28/11.2024 14:05:00] Alice: Hello") _ eq_refl).
Defined.

(** X7.  When every message of a parse has a valid timestamp, the
    participants are ordered from the most recent last message to the
    oldest. *)
Theorem X7_participants_newest_first :
  forall (JSZip : Type) text (zipFile : option JSZip) myName,
    let result := parseChatFile text zipFile myName in
    (forall msg, In msg (messages result) ->
                 getTime (timestamp msg) <> None) ->
    newestFirst (participants result).
Proof.
  intros JSZip text zipFile myName result Hvalid.
  assert (Hp : forall p, In p (participants result) ->
                         getTime (lastMessageDate p) <> None).
  { intros p Hp.
    destruct (participant_dates JSZip text zipFile myName p Hp)
      as (msg & Hin & E).
    rewrite E. apply Hvalid. exact Hin. }
  change (participants result)
    with (sort byRecency
            (mapValues (participantsMap
                          (loop myName initState 0 (split 10 text))))) in *.
  apply sort_newestFirst. intros p Hin. apply Hp.
  apply (Permutation_in p (Permutation_sym (sort_perm byRecency _))).
  exact Hin.
Qed.

Lemma X7_participants_newest_first_witness :
  newestFirst
    (participants
       (parseChatFile
          (lit "[28.11.2024 14:05:00] Alice: Hello" ++ [10]
           ++ lit "[28.11.2024 14:06:00] Bob: Hi")
          (@None unit) None)).
Proof.
  apply (X7_participants_newest_first unit
           (lit "[28.11.2024 14:05:00] Alice: Hello" ++ [10]
            ++ lit "[28.11.2024 14:06:00] Bob: Hi") None None).
  vm_compute. intros msg [<- | [<- | []]]; discriminate.
Defined.

(** X8.  On a start line the sender is cut at the first colon that
    white space follows, and then trimmed; all the white space after
    that colon is skipped; the content of the line is what follows, up
    to the first line terminator, so it never starts with white space.
    A colon inside a name is kept as long as no white space comes right
    after it. *)
Theorem X8_sender_and_content :
  forall myName i line m,
    exec msgStartRegex line = Some m ->
    exists head snd sep cnt rest,
      line = head ++ snd ++ [58] ++ sep ++ cnt ++ rest /\
      sender (startMessage myName i m) = trim snd /\
      content (startMessage myName i m) = cnt /\
      (forall u c v, snd = u ++ 58 :: c :: v -> isWhiteSpace c = false) /\
      sep <> [] /\ forallb isWhiteSpace sep = true /\
      (forall c t, cnt = c :: t -> isWhiteSpace c = false) /\
      forallb isDot (snd ++ cnt) = true /\
      (forall c t, rest = c :: t -> isLineTerminator c = true).
Proof.
  intros myName i line m H.
  apply msgStart_tail in H. destruct H as (head & tl & pos & caps & -> & H).
  apply startTail_shape in H.
  destruct H as (snd & sep & cnt & rest & -> & -> & Hsnd & Hcolon & Hne
                 & Hsep & Hcnt & Hc & Hr).
  exists head, snd, sep, cnt, rest.
  rewrite startMessage_sender, startMessage_content, forallb_app, Hsnd, Hcnt.
  repeat split; auto.
Qed.

Lemma X8_sender_and_content_witness :
  exists head snd sep cnt rest,
    lit "[28.11.2024 14:05:00] Re: plan:   Hello: you"
    = head ++ snd ++ [58] ++ sep ++ cnt ++ rest /\
    sender (startMessage None 0
              (capturesOf (lit "[28.11.2024 14:05:00] Re: plan:   Hello: you")))
    = trim snd /\
    content (startMessage None 0
               (capturesOf (lit "[28.11.2024 14:05:00] Re: plan:   Hello: you")))
    = cnt /\
    (forall u c v, snd = u ++ 58 :: c :: v -> isWhiteSpace c = false) /\
    sep <> [] /\ forallb isWhiteSpace sep = true /\
    (forall c t, cnt = c :: t -> isWhiteSpace c = false) /\
    forallb isDot (snd ++ cnt) = true /\
    (forall c t, rest = c :: t -> isLineTerminator c = true).
Proof.
  apply (X8_sender_and_content None 0
           (lit "[28.11.2024 14:05:00] Re: plan:   Hello: you")
           (capturesOf (lit "[28.11.2024 14:05:00] Re: plan:   Hello: you"))).
  vm_compute. reflexivity.
Defined.

(** X9.  Choosing the identity after the upload gives the chat data a
    parse with that name would have given: for a non-empty name and a
    transcript whose timestamps are all valid, re-mapping the result of
    the parse without a name (the messages re-flagged, the participant
    of that name filtered out of the sorted list) equals the parse with
    the name. *)
Theorem X9_identity_after_parse :
  forall (JSZip : Type) text (zipFile : option JSZip) name,
    name <> [] ->
    (forall msg, In msg (messages (parseChatFile text zipFile None)) ->
                 getTime (timestamp msg) <> None) ->
    remapChatData name (parseChatFile text zipFile None)
    = parseChatFile text zipFile (Some name).
Proof. exact remapChatData_parse. Qed.

Lemma X9_identity_after_parse_witness :
  remapChatData (lit "Alice")
    (parseChatFile
       (lit "[28.11.2024 14:05:00] Alice: Hello" ++ [10]
        ++ lit "[28.11.2024 14:06:00] Bob: Hi")
       (@None unit) None)
  = parseChatFile
      (lit "[28.11.2024 14:05:00] Alice: Hello" ++ [10]
       ++ lit "[28.11.2024 14:06:00] Bob: Hi")
      (@None unit) (Some (lit "Alice")).
Proof.
  apply (X9_identity_after_parse unit
           (lit "[28.11.2024 14:05:00] Alice: Hello" ++ [10]
            ++ lit "[28.11.2024 14:06:00] Bob: Hi") None (lit "Alice")).
  - discriminate.
  - vm_compute. intros msg [<- | [<- | []]]; discriminate.
Defined.

(** X10.  Windows line endings change nothing: a carriage return put
    before every line feed of a transcript leaves the whole result of
    the parse as it is, identifiers included. *)
Theorem X10_carriage_returns :
  forall (JSZip : Type) text (zipFile : option JSZip) myName,
    parseChatFile (withCR text) zipFile myName
    = parseChatFile text zipFile myName.
Proof.
  intros JSZip text zipFile myName. unfold parseChatFile. cbv zeta.
  rewrite (loop_clean myName (split 10 (withCR text)) (split 10 text));
    [reflexivity|].
  eapply Forall2_impl; [|apply split_withCR].
  intros a b [-> | ->]; [reflexivity|apply clean_CR].
Qed.

(** X11.  The search lowers the term and the contents with the host's
    [toLowerCase], taken here as any function on strings.  While the
    search term and the displayed messages stay the same, after the
    search effect and any number of uses of the two arrows: either there
    is no match, the current index is -1 and nothing is scrolled to; or
    the current index is a position of the match list and the message
    scrolled to is a displayed message whose content is not empty and,
    lowered, contains the lowered term, which has at least two units.
    The arrows never change the match list, and each undoes the
    other. *)
Theorem X11_search_navigation :
  forall (hostLowerCase : jsstring -> jsstring) searchTerm displayedMessages st,
    searchRun hostLowerCase searchTerm displayedMessages st ->
    searchMatches st
    = searchMatches (searchEffect hostLowerCase searchTerm displayedMessages) /\
    match scrollTarget st with
    | None => searchMatches st = [] /\ currentMatchIndex st = -1
    | Some target =>
        0 <= currentMatchIndex st < Z.of_nat (length (searchMatches st)) /\
        0 <= target < Z.of_nat (length displayedMessages) /\
        (2 <= length searchTerm)%nat /\
        exists msg,
          nth_error displayedMessages (Z.to_nat target) = Some msg /\
          content msg <> [] /\
          includes (hostLowerCase (content msg)) (hostLowerCase searchTerm)
          = true
    end /\
    handlePrevMatch (handleNextMatch st) = st /\
    handleNextMatch (handlePrevMatch st) = st.
Proof.
  intros lower term msgs st Hrun.
  destruct (searchRun_inv lower term msgs st Hrun) as [Hm Hi].
  split; [exact Hm|]. split; [|apply arrows_round_trip; exact Hi].
  unfold scrollTarget. destruct Hi as [[He Hi] | Hi].
  - rewrite He, Hi. cbn. split; reflexivity.
  - destruct (Z.leb_spec 0 (currentMatchIndex st)); [|lia].
    destruct (Nat.ltb_spec 0 (length (searchMatches st))); [|lia].
    cbn [andb].
    destruct (nth_error (searchMatches st) (Z.to_nat (currentMatchIndex st)))
      as [target|] eqn:En.
    + apply nth_error_In in En. rewrite Hm in En.
      destruct (searchEffect_hits lower term msgs target En)
        as (Hlen & H0' & msg & Hn & Hc & Hinc).
      assert (Hlt : (Z.to_nat target < length msgs)%nat)
        by (apply nth_error_Some; congruence).
      repeat split; try lia. exists msg. auto.
    + apply nth_error_None in En. lia.
Qed.

Lemma X11_search_navigation_witness :
  handlePrevMatch
    (handleNextMatch
       (searchEffect toLowerCase (lit "he")
          (messages
             (parseChatFile
                (lit "[28.11.2024 14:05:00] Alice: Hello" ++ [10]
                 ++ lit "[28.11.2024 14:06:00] Bob: Hi" ++ [10]
                 ++ lit "[28.11.2024 14:07:00] Bob: Hey")
                (@None unit) None))))
  = searchEffect toLowerCase (lit "he")
      (messages
         (parseChatFile
            (lit "[28.11.2024 14:05:00] Alice: Hello" ++ [10]
             ++ lit "[28.11.2024 14:06:00] Bob: Hi" ++ [10]
             ++ lit "[28.11.2024 14:07:00] Bob: Hey")
            (@None unit) None)).
Proof.
  apply (X11_search_navigation toLowerCase (lit "he")
           (messages
              (parseChatFile
                 (lit "[28.11.2024 14:05:00] Alice: Hello" ++ [10]
                  ++ lit "[28.11.2024 14:06:00] Bob: Hi" ++ [10]
                  ++ lit "[28.11.2024 14:07:00] Bob: Hey")
                 (@None unit) None))).
  apply run_effect.
Defined.

(** X12.  The header of a chat between two people: when, apart from
    the chosen identity, one name alone sends messages that are not
    system notices, the title shown after the identity was chosen is
    that name, and the avatar colour is the colour the hash gives that
    name. *)
Theorem X12_one_to_one_header :
  forall (JSZip : Type) text (zipFile : option JSZip) me other,
    let parsed := parseChatFile text zipFile None in
    let data := remapChatData me parsed in
    other <> me ->
    (exists msg, In msg (messages parsed) /\ sender msg = other /\
                 type msg <> system) ->
    (forall msg, In msg (messages parsed) -> type msg <> system ->
                 sender msg = me \/ sender msg = other) ->
    chatTitle (participants data) me = other /\
    headerColor (participants data) me = getRandomColor other.
Proof.
  intros JSZip text zipFile me other parsed data Hne Hex Hall.
  destruct (participants_names JSZip text zipFile None)
    as (Hnd & Hnames & Hcolor).
  fold parsed in Hnd, Hnames, Hcolor.
  assert (Hme : forall msg, In msg (messages parsed) -> isMe msg = false).
  { intros msg Hin.
    pose proof (loop_flagged None (split 10 text)) as HF.
    rewrite Forall_forall in HF. apply (HF msg Hin). }
  set (keep := fun p : ChatParticipant => negb (streq (name p) me)).
  assert (Ed : participants data = filter keep (participants parsed))
    by reflexivity.
  assert (Eo : otherParticipants (participants data) me
               = filter keep (participants parsed)).
  { unfold otherParticipants. fold keep. rewrite Ed. apply filter_idem. }
  destruct (one_name ChatParticipant jsstring name other
              (filter keep (participants parsed)))
    as (p & Ep & Hp).
  - apply NoDup_map_filter. exact Hnd.
  - intros x Hx. apply filter_In in Hx. destruct Hx as [Hx Hk].
    assert (Hn : In (name x) (map name (participants parsed)))
      by (apply in_map; exact Hx).
    apply Hnames in Hn. destruct Hn as (msg & Hin & Hs & Hq).
    apply qualifies_true in Hq. destruct Hq as [_ Hq].
    destruct (Hall msg Hin Hq) as [E | E]; [|congruence].
    exfalso. unfold keep in Hk. rewrite <- Hs, E, streq_refl in Hk.
    discriminate.
  - destruct Hex as (msg & Hin & Hs & Ht).
    assert (Hn : In other (map name (participants parsed))).
    { apply Hnames. exists msg. rewrite qualifies_true. auto. }
    apply in_map_iff in Hn. destruct Hn as (q & Eq & Hq).
    intros Hnil.
    assert (Hq' : In q (filter keep (participants parsed))).
    { apply filter_In. split; [exact Hq|]. unfold keep. rewrite Eq.
      apply negb_true_iff. apply streq_neq. exact Hne. }
    rewrite Hnil in Hq'. destruct Hq'.
  - unfold chatTitle, headerColor. rewrite Eo, Ep. cbn [length Nat.eqb].
    split; [exact Hp|]. rewrite <- Hp. apply Hcolor.
    assert (Hin : In p (filter keep (participants parsed)))
      by (rewrite Ep; left; reflexivity).
    apply filter_In in Hin. tauto.
Qed.

Lemma X12_one_to_one_header_witness :
  let text := lit "[28.11.2024 14:05:00] Alice: Hello" ++ [10]
              ++ lit "[28.11.2024 14:06:00] Bob: Hi" in
  let data := remapChatData (lit "Alice")
                (parseChatFile text (@None unit) None) in
  chatTitle (participants data) (lit "Alice") = lit "Bob" /\
  headerColor (participants data) (lit "Alice") = getRandomColor (lit "Bob").
Proof.
  apply (X12_one_to_one_header unit
           (lit "[28.11.2024 14:05:00] Alice: Hello" ++ [10]
            ++ lit "[28.11.2024 14:06:00] Bob: Hi")
           None (lit "Alice") (lit "Bob")).
  - discriminate.
  - vm_compute. eexists. split; [right; left; reflexivity|].
    split; [reflexivity|discriminate].
  - vm_compute. intros msg [<- | [<- | []]] _; auto.
Defined.

(** X13.  System notices and their icon.  For every message of a
    parse the flag [isSystem] says that the type is [system]; and when
    the bubble shows such a message with the lock (its lower-cased content does not contain the word
    for a call), its content contains the security code phrase: every
    notice recognised by one of the two call phrases is shown with the
    phone, whatever continuation lines follow it. *)
Theorem X13_system_notice_icon :
  forall (JSZip : Type) text (zipFile : option JSZip) myName msg,
    In msg (messages (parseChatFile text zipFile myName)) ->
    (isSystem msg = true <-> type msg = system) /\
    (isSystem msg = true ->
     systemIcon (content msg) = LockIcon ->
     includes (toLowerCase (content msg)) phraseSecurity = true).
Proof.
  intros JSZip text zipFile myName msg Hin.
  rewrite parseChatFile_messages, loop_blocks in Hin.
  cbn [finish initState st_messages currentMessage pushCurrent app] in Hin.
  apply blocksFrom_In in Hin. destruct Hin as (j & m & conts & ->).
  unfold extend. cbn [isSystem type content].
  rewrite startMessage_isSystem, startMessage_type, startMessage_content.
  split.
  - destruct (finalType (phraseType (grp 5 m)) (attachmentOf (grp 5 m)));
      cbn; split; congruence.
  - intros Hs Hicon.
    assert (Ht : finalType (phraseType (grp 5 m)) (attachmentOf (grp 5 m))
                 = system).
    { destruct (finalType (phraseType (grp 5 m)) (attachmentOf (grp 5 m)));
        cbn in Hs; congruence. }
    apply finalType_system in Ht. apply phraseType_system in Ht.
    destruct Ht as [Ht | Ht]; [apply includes_extended; exact Ht|].
    apply (includes_extended _ conts) in Ht.
    unfold systemIcon in Hicon. rewrite Ht in Hicon. discriminate.
Qed.

Lemma X13_system_notice_icon_witness :
  exists msg,
    isSystem msg = true /\ systemIcon (content msg) = PhoneIcon /\
    (isSystem msg = true <-> type msg = system).
Proof.
  exists (startMessage None 0
            (capturesOf (lit "[28.11.2024 14:05:00] Alice: Sesli arama"))).
  split; [reflexivity|]. split; [reflexivity|].
  apply (X13_system_notice_icon unit
           (lit "[28.11.2024 14:05:00] Alice: Sesli arama") None None).
  vm_compute. left. reflexivity.
Defined.

(** X14.  The field [rawDate] of a message is the date token as
    written, a space, the hour after the 12-hour conversion printed in
    decimal without a leading zero, a colon and the two minute digits as
    written: the marker and the seconds are dropped.  The printed hour
    reads back as the converted hour. *)
Theorem X14_raw_date :
  forall myName i line m,
    exec msgStartRegex line = Some m ->
    exists hh mm ss,
      group 3 m = Some (hh ++ [58] ++ mm ++ [58] ++ ss) /\
      timeToken hh mm ss /\
      let h24 := Spec.hour24 (group 2 m) (decimal hh) in
      rawDate (startMessage myName i m)
      = grp 1 m ++ lit " " ++ showInt h24 ++ lit ":" ++ mm /\
      digits (showInt h24) /\
      parseInt (showInt h24) = Some h24 /\
      (forall t, showInt h24 = 48 :: t -> t = []).
Proof.
  intros myName i line m H.
  destruct (@msgStart_groups line m H)
    as (a & s1 & b & s2 & c & hh & mm & ss & snd & cnt
        & _ & _ & _ & G3 & Ht & _).
  exists hh, mm, ss. split; [exact G3|]. split; [exact Ht|].
  destruct (timeFields_of_token m hh mm ss G3 Ht) as (Hh & _ & _ & Bh & _).
  cbv zeta. rewrite startMessage_rawDate, Hh.
  destruct Ht as (Dh & Lh & Dm & Lm & Ds & Ls).
  unfold grp at 2. rewrite G3, timeParts_colons by assumption.
  cbn [showNum].
  destruct (showInt_roundtrip (Spec.hour24 (group 2 m) (decimal hh)))
    as (Hd & Hne & Hr); [lia|].
  split; [reflexivity|]. split; [exact Hd|].
  split; [rewrite parseInt_digits by assumption; rewrite Hr; reflexivity|].
  apply showInt_small. exact Bh.
Qed.

Lemma X14_raw_date_witness :
  let m := capturesOf (lit "[6/27/24 PM 09:05:07] Alice: Hello") in
  exists hh mm ss,
    group 3 m = Some (hh ++ [58] ++ mm ++ [58] ++ ss) /\
    timeToken hh mm ss /\
    let h24 := Spec.hour24 (group 2 m) (decimal hh) in
    rawDate (startMessage None 0 m)
    = grp 1 m ++ lit " " ++ showInt h24 ++ lit ":" ++ mm /\
    digits (showInt h24) /\
    parseInt (showInt h24) = Some h24 /\
    (forall t, showInt h24 = 48 :: t -> t = []).
Proof.
  apply (X14_raw_date None 0 (lit "[6/27/24 PM 09:05:07] Alice: Hello")
           (capturesOf (lit "[6/27/24 PM 09:05:07] Alice: Hello"))).
  vm_compute. reflexivity.
Defined.

(** X15.  The hash behind the avatar colour stays small: for a name of
    [n] code units its magnitude is at most [n * 2^32], so for every
    name of fewer than 2^21 units the hash after every iteration is an
    integer below 2^53 in magnitude, which JavaScript numbers hold
    exactly. *)
Theorem X15_hash_magnitude :
  forall name,
    Forall (fun c => 0 <= c <= 65535) name ->
    Z.abs (hashOf name) <= Z.of_nat (length name) * 2 ^ 32 /\
    (Z.of_nat (length name) < 2 ^ 21 ->
     forall k, Z.abs (hashOf (firstn k name)) < 2 ^ 53).
Proof.
  intros name H. split; [apply HashFacts.hashOf_bound; exact H|].
  intros Hlen k.
  assert (Hk : Forall (fun c => 0 <= c <= 65535) (firstn k name)).
  { rewrite Forall_forall in *. intros c Hc. apply H.
    rewrite <- (firstn_skipn k name). apply in_or_app. left. exact Hc. }
  pose proof (HashFacts.hashOf_bound Hk) as B.
  rewrite length_firstn in B.
  change (2 ^ 21) with 2097152 in Hlen.
  change (2 ^ 53) with 9007199254740992.
  change (2 ^ 32) with 4294967296 in *. lia.
Qed.

Lemma X15_hash_magnitude_witness :
  Z.abs (hashOf (lit "Ferhat")) <= Z.of_nat (length (lit "Ferhat")) * 2 ^ 32 /\
  (Z.of_nat (length (lit "Ferhat")) < 2 ^ 21 ->
   forall k, Z.abs (hashOf (firstn k (lit "Ferhat"))) < 2 ^ 53).
Proof.
  apply (X15_hash_magnitude (lit "Ferhat")).
  repeat constructor; vm_compute; discriminate.
Defined.

(** X16.  From the upload to the chat: when the user picks one of the
    offered owners (a non-empty name, in a transcript whose timestamps
    are all valid), the application is in the chat step without error,
    the owner is the picked name, and the chat data is what a parse with
    that name as identity returns.  Without chat data, as after a reset,
    picking a name changes nothing. *)
Theorem X16_upload_then_identity :
  forall (JSZip : Type) (st : AppState JSZip) text (zipInstance : option JSZip)
         name,
    In name (potentialOwners (processText st text zipInstance)) ->
    error (processText st text zipInstance) = None ->
    name <> [] ->
    (forall msg, In msg (messages (parseChatFile text zipInstance None)) ->
                 getTime (timestamp msg) <> None) ->
    let st' := handleIdentitySelect (processText st text zipInstance) name in
    app_step st' = CHAT /\ error st' = None /\ loading st' = false /\
    currentOwner st' = name /\
    chatData st' = Some (parseChatFile text zipInstance (Some name)) /\
    handleIdentitySelect (resetApp st') name = resetApp st'.
Proof.
  intros JSZip st text zipInstance name Hin Herr Hn Hvalid.
  pose proof (remapChatData_parse JSZip text zipInstance name Hn Hvalid) as E.
  revert Hin Herr. unfold processText.
  destruct (Nat.eqb (length (allSenders (parseChatFile text zipInstance None)))
                    0); cbn [error potentialOwners]; [discriminate|].
  intros _ _. unfold handleIdentitySelect.
  cbn [chatData app_step error loading currentOwner resetApp].
  rewrite E. repeat split.
Qed.

Lemma X16_upload_then_identity_witness :
  let text := lit "[28.11.2024 14:05:00] Alice: Hello" ++ [10]
              ++ lit "[28.11.2024 14:06:00] Bob: Hi" in
  let st := @mkAppState unit UPLOAD None true None [] [] in
  let st' := handleIdentitySelect (processText st text None) (lit "Bob") in
  app_step st' = CHAT /\ error st' = None /\ loading st' = false /\
  currentOwner st' = lit "Bob" /\
  chatData st' = Some (parseChatFile text None (Some (lit "Bob"))) /\
  handleIdentitySelect (resetApp st') (lit "Bob") = resetApp st'.
Proof.
  apply (X16_upload_then_identity unit
           (@mkAppState unit UPLOAD None true None [] [])
           (lit "[28.11.2024 14:05:00] Alice: Hello" ++ [10]
            ++ lit "[28.11.2024 14:06:00] Bob: Hi")
           None (lit "Bob")).
  - vm_compute. right. left. reflexivity.
  - vm_compute. reflexivity.
  - discriminate.
  - vm_compute. intros msg [<- | [<- | []]]; discriminate.
Defined.

(** X17.  Two transcripts put one after the other, with a line feed
    between them: when the second has no continuation line before its
    first message, the messages of the whole are the messages of the
    first, unchanged, followed by the messages of the second, which
    differ from those of the second parsed alone in their identifiers
    only (the line index is shifted by the number of lines of the
    first). *)
Theorem X17_transcripts_in_sequence :
  forall (JSZip : Type) first second (zipFile : option JSZip) myName,
    Spec.continuationRun (Spec.nonBlankLines second) = [] ->
    let whole := parseChatFile (first ++ [10] ++ second) zipFile myName in
    let shifted :=
      blocksFrom myName (length (split 10 first)) (split 10 second) in
    messages whole = messages (parseChatFile first zipFile myName) ++ shifted /\
    map exceptId shifted
    = map exceptId (messages (parseChatFile second zipFile myName)) /\
    map id shifted
    = map idOf (startIndices (length (split 10 first)) (split 10 second)).
Proof.
  intros JSZip first second zipFile myName H whole shifted.
  unfold whole, shifted.
  rewrite !parseChatFile_messages, !loop_blocks.
  cbn [finish initState st_messages currentMessage pushCurrent app].
  rewrite split_app, (blocksFrom_app myName (split 10 second) H).
  split; [reflexivity|]. split; [apply blocksFrom_exceptId|].
  apply blocksFrom_ids.
Qed.

Lemma X17_transcripts_in_sequence_witness :
  let first := lit "[28.11.2024 14:05:00] Alice: Hello" ++ [10] ++ lit "there" in
  let second := lit "[28.11.2024 14:06:00] Bob: Hi" in
  let whole := parseChatFile (first ++ [10] ++ second) (@None unit) None in
  let shifted := blocksFrom None (length (split 10 first)) (split 10 second) in
  messages whole = messages (parseChatFile first (@None unit) None) ++ shifted /\
  map exceptId shifted
  = map exceptId (messages (parseChatFile second (@None unit) None)) /\
  map id shifted
  = map idOf (startIndices (length (split 10 first)) (split 10 second)).
Proof.
  apply (X17_transcripts_in_sequence unit
           (lit "[28.11.2024 14:05:00] Alice: Hello" ++ [10] ++ lit "there")
           (lit "[28.11.2024 14:06:00] Bob: Hi") None None).
  vm_compute. reflexivity.
Defined.

End Extras.
